(** * Calendar.js: the day layout of calendar-canvas

    A shallow embedding of [layOutDay] and of its recursive helper
    [checkLeft] (src/js/Calendar.js), together with the comparator
    [sortByDuration], and the properties of the layout they compute.

    JavaScript event objects are mutable and are shared between the array
    handed to [layOutDay] and the module-level binding [events] that
    [checkLeft] reads, so the embedding keeps an object store, an array
    store and that binding in an explicit state.  Numbers are modelled as
    integers ([Z]); array indices and object references are [nat].

    The other functions of the file follow: the helpers on start times
    and the comparator [sortByStart], [TimelineStop] and [createTimeline],
    [drawEvents] and the [Calendar] constructor.  What they build in the
    document is represented by what it shows: the stops of the timeline,
    and the calls made on the drawing context of the canvas. *)

From stdpp Require Import base numbers list sorting relations.
From stdpp Require Import strings pretty.

(** ** Outcomes of a call *)

Inductive JsError := ReferenceError | TypeError.

Inductive outcome (A : Type) : Type :=
  | Ok (a : A)
  | Throw (e : JsError)
  | OutOfFuel.
Arguments Ok {A} a.
Arguments Throw {A} e.
Arguments OutOfFuel {A}.

Global Instance outcome_ret : MRet outcome := fun A a => Ok a.
Global Instance outcome_bind : MBind outcome := fun A B f m =>
  match m with
  | Ok a => f a
  | Throw e => Throw e
  | OutOfFuel => OutOfFuel
  end.

(** ** Event objects *)

(** An event object with the fields the layout reads and writes.  [id],
    [start] and [end_] come with the input; the others are given to the
    object by the initialization loop of [layOutDay].  [position] is the
    column index of the event, [collisions] holds indices into the scanned
    array in the order in which they were registered. *)
Record Event : Type := mkEvent {
  id : Z;
  start : Z;
  end_ : Z;
  left : Z;
  top : Z;
  width : Z;
  duration : Z;
  overlap : Z;
  position : Z;
  collisions : list nat;
  columns : Z
}.

Global Instance Event_inhabited : Inhabited Event :=
  populate (mkEvent 0 0 0 0 0 0 0 0 0 [] 0).

Definition set_position (v : Z) (e : Event) : Event :=
  mkEvent (id e) (start e) (end_ e) (left e) (top e) (width e) (duration e)
          (overlap e) v (collisions e) (columns e).

Definition set_collisions (v : list nat) (e : Event) : Event :=
  mkEvent (id e) (start e) (end_ e) (left e) (top e) (width e) (duration e)
          (overlap e) (position e) v (columns e).

Definition set_columns (v : Z) (e : Event) : Event :=
  mkEvent (id e) (start e) (end_ e) (left e) (top e) (width e) (duration e)
          (overlap e) (position e) (collisions e) v.

Definition set_width (v : Z) (e : Event) : Event :=
  mkEvent (id e) (start e) (end_ e) (left e) (top e) v (duration e)
          (overlap e) (position e) (collisions e) (columns e).

Definition set_left (v : Z) (e : Event) : Event :=
  mkEvent (id e) (start e) (end_ e) v (top e) (width e) (duration e)
          (overlap e) (position e) (collisions e) (columns e).

(** ** The store *)

(** [objects] maps an object reference to the object, [arrays] an array
    reference to the references the array holds, and [global_events] is the
    module-level binding [events] ([None] while nothing is bound to it).
    Every object of the store is an event object carrying the annotation
    fields: the objects of the array handed to [layOutDay] get them from its
    initialization loop before any is read, the others from an earlier
    call. *)
Record State : Type := mkState {
  objects : list Event;
  arrays : list (list nat);
  global_events : option nat
}.

Definition obj (s : State) (l : nat) : Event := objects s !!! l.

Definition update (s : State) (l : nat) (f : Event -> Event) : State :=
  mkState (alter f l (objects s)) (arrays s) (global_events s).

Definition set_array (s : State) (a : nat) (v : list nat) : State :=
  mkState (objects s) (<[a := v]> (arrays s)) (global_events s).

(** ** registerCollision (Calendar.js, lines 56-67) *)

Fixpoint newCollision (cs : list nat) (id : nat) : bool :=
  match cs with
  | [] => true
  | c :: cs' => if Nat.eqb c id then false else newCollision cs' id
  end.

Definition registerCollision (id : nat) (this : Event) : Event :=
  if newCollision (collisions this) id
  then set_collisions (collisions this ++ [id]) this
  else this.

(** ** sortByDuration (lines 277-282) and Array.prototype.sort *)

Definition sortByDuration (e1 e2 : Event) : Z :=
  let y := (end_ e1 - start e1)%Z in
  let x := (end_ e2 - start e2)%Z in
  if (x <? y)%Z then (-1)%Z else if (x >? y)%Z then 1%Z else 0%Z.

(** [Array.prototype.sort] with a comparator, which ECMAScript specifies to
    be stable: an insertion sort that puts an element in front of the first
    one it does not have to follow. *)
Fixpoint sort_insert {A : Type} (cmp : A -> A -> Z) (x : A) (l : list A) : list A :=
  match l with
  | [] => [x]
  | y :: l' => if (cmp x y <=? 0)%Z then x :: l else y :: sort_insert cmp x l'
  end.

Definition array_sort {A : Type} (cmp : A -> A -> Z) (l : list A) : list A :=
  foldr (sort_insert cmp) [] l.

(** ** checkLeft (lines 109-122) *)

Definition collide (event other : Event) : bool :=
  (start event <? end_ other)%Z && (end_ event >? start other)%Z.

(** The loop of [checkLeft] over the candidates [cands], which sit at the
    indices [i], [i+1], ... of the scanned array; [rec] is the recursive
    call. *)
Fixpoint scanLeft (rec : State -> nat -> nat -> outcome (Z * State))
    (event index : nat) (cands : list nat) (i : nat) (s : State) : outcome State :=
  match cands with
  | [] => Ok s
  | c :: rest =>
      if (id (obj s c) =? id (obj s event))%Z then Ok s
      else if collide (obj s event) (obj s c) then
        let s1 := update s event (registerCollision i) in
        '(p, s2) ← rec s1 c i;
        let s3 := update s2 event (set_position (p + 1)) in
        let s4 := update s3 c (registerCollision index) in
        scanLeft rec event index rest (S i) s4
      else scanLeft rec event index rest (S i) s
  end.

(** [checkLeft fuel s event index]: [event] is an object reference, the
    scanned array is the one bound to the module-level [events], not the
    array [layOutDay] was handed.  [fuel] bounds the depth of the
    recursion. *)
Fixpoint checkLeft (fuel : nat) (s : State) (event index : nat) : outcome (Z * State) :=
  match fuel with
  | O => OutOfFuel
  | S fuel' =>
      match global_events s with
      | None => Throw ReferenceError
      | Some g =>
          match arrays s !! g with
          | None => Throw TypeError
          | Some evs =>
              s' ← scanLeft (checkLeft fuel') event index evs 0 s;
              Ok (position (obj s' event), s')
          end
      end
  end.

(** ** layOutDay (lines 32-97) *)

Definition initialize (_event : Event) : Event :=
  {| id := id _event; start := start _event; end_ := end_ _event;
     left := 10; top := start _event; width := 200;
     duration := end_ _event - start _event; overlap := 0;
     position := 0; collisions := []; columns := 1 |}.

(** First loop (lines 33-68). *)
Definition initPass (s : State) (evs : list nat) : State :=
  foldl (fun s l => update s l initialize) s evs.

(** [events.sort(sortByDuration)] (line 69): the array is sorted in place. *)
Definition sortPass (s : State) (events : nat) : State :=
  set_array s events
    (array_sort (fun l1 l2 => sortByDuration (obj s l1) (obj s l2))
                (arrays s !!! events)).

Definition slideBack (event : Event) : Event :=
  if (position event >? 1)%Z && (length (collisions event) <? 2)%nat
  then set_position 0 event else event.

(** Second loop (lines 70-75), from index [e] on, over the rest of the
    array. *)
Fixpoint positionPass (fuel : nat) (rest : list nat) (e : nat) (s : State) : outcome State :=
  match rest with
  | [] => Ok s
  | l :: rest' =>
      '(p, s1) ← checkLeft fuel s l e;
      let s2 := update s1 l (set_position p) in
      let s3 := update s2 l slideBack in
      positionPass fuel rest' (S e) s3
  end.

(** Inner loop of the third pass (lines 84-88) over the collisions of
    [event], last registered first; [evs] is the array handed to
    [layOutDay]. *)
Fixpoint columnsLoop (evs : list nat) (event : nat) (cs : list nat) (s : State) : outcome State :=
  match cs with
  | [] => Ok s
  | c :: cs' =>
      match evs !! c with
      | None => Throw TypeError
      | Some other =>
          let s1 := update s event
                      (set_columns (Z.max (columns (obj s event)) (position (obj s other) + 1))) in
          let s2 := update s1 other (set_columns (columns (obj s1 event))) in
          columnsLoop evs event cs' s2
      end
  end.

(** Third loop (lines 76-94).  [parseInt(600/columns)] is the integer
    quotient, [columns] being a positive integer there. *)
Fixpoint geometryPass (evs rest : list nat) (s : State) : outcome State :=
  match rest with
  | [] => Ok s
  | event :: rest' =>
      s1 ← columnsLoop evs event (reverse (collisions (obj s event))) s;
      let s2 := update s1 event (fun ev => set_width (600 / columns ev) ev) in
      let s3 := update s2 event (fun ev => set_left (position ev * width ev + 10) ev) in
      geometryPass evs rest' s3
  end.

(** [layOutDay fuel s events]: [events] is the reference of the array
    handed to the function; the array returned is the same array. *)
Definition layOutDay (fuel : nat) (s : State) (events : nat) : outcome State :=
  match arrays s !! events with
  | None => Throw TypeError
  | Some evs0 =>
      let s1 := initPass s evs0 in
      let s2 := sortPass s1 events in
      let evs := arrays s2 !!! events in
      s3 ← positionPass fuel evs 0 s2;
      geometryPass evs evs s3
  end.

(** ** Reading a state *)

(** The events of array [a], by value, in array order. *)
Definition snapshot (s : State) (a : nat) : list Event :=
  obj s <$> (arrays s !!! a).

(** An event object as an array literal creates it.  It has no annotation
    fields yet; the initialization loop of [layOutDay] writes every one of
    them before any is read, so the values they are given here do not
    matter. *)
Definition rawEvent (r : Z * Z * Z) : Event :=
  mkEvent r.1.1 r.1.2 r.2 0 0 0 0 0 0 [] 0.

(** A page that binds the module-level [events] to a fresh array of fresh
    event objects, as in [var events = [...]; new Calendar(events)]: the
    array handed to [layOutDay] is the array [checkLeft] scans. *)
Definition page (input : list (Z * Z * Z)) : State :=
  mkState (rawEvent <$> input) [seq 0 (length input)] (Some 0).

(** The array a caller gets back, by value. *)
Definition returned (fuel : nat) (s : State) (events : nat) : outcome (list Event) :=
  s' ← layOutDay fuel s events; Ok (snapshot s' events).

(** [layOutDay] on such a page, handed the array of the page. *)
Definition layOutPage (input : list (Z * Z * Z)) : outcome (list Event) :=
  returned (S (length input)) (page input) 0.

(** A further array literal evaluated on a page: fresh objects, a fresh
    array, the module-level binding left as it is. *)
Definition alloc (s : State) (input : list (Z * Z * Z)) : State * nat :=
  (mkState (objects s ++ (rawEvent <$> input))
           (arrays s ++ [seq (length (objects s)) (length input)])
           (global_events s),
   length (arrays s)).

(** The input as the caller wrote it: [id], [start], [end]. *)
Definition raw (e : Event) : Z * Z * Z := (id e, start e, end_ e).

(** ** Measures and predicates used by the statements *)

(** Index at which the scan of [checkLeft] for an event of id [x] stops:
    the first index holding that id, the length of the list if none does. *)
Fixpoint first_index (x : Z) (ids : list Z) : nat :=
  match ids with
  | [] => 0
  | y :: ids' => if (y =? x)%Z then 0 else S (first_index x ids')
  end.

Definition ids (s : State) (evs : list nat) : list Z :=
  (fun l => id (obj s l)) <$> evs.

(** The array [evs] is bound to the module-level [events], and [ids0] are
    the ids of its events. *)
Definition scanned (g : nat) (evs : list nat) (ids0 : list Z) (s : State) : Prop :=
  global_events s = Some g /\ arrays s !! g = Some evs /\ ids s evs = ids0.

(** Two states with the same arrays, the same binding and objects with the
    same [id], [start] and [end]. *)
Definition same_shape (s s' : State) : Prop :=
  arrays s' = arrays s /\ global_events s' = global_events s /\
  length (objects s') = length (objects s) /\
  forall l, raw (obj s' l) = raw (obj s l).

(** A page on which [events] is bound to an array laid out earlier, and a
    second array literal holding the single event [{id:1,start:0,end:60}]. *)
Definition earlier_page : outcome (State * nat) :=
  s ← layOutDay 2 (page [(7, 0, 60)%Z]) 0; Ok (alloc s [(1, 0, 60)%Z]).

(** The indices of the candidates that collide with [event], in scan
    order: what the loop of [checkLeft] meets before it reaches the id of
    [event]; [cands] sit at the indices [i], [i+1], ... *)
Fixpoint colliding (s : State) (event : nat) (cands : list nat) (i : nat) : list nat :=
  match cands with
  | [] => []
  | c :: rest =>
      if (id (obj s c) =? id (obj s event))%Z then []
      else if collide (obj s event) (obj s c)
           then i :: colliding s event rest (S i)
           else colliding s event rest (S i)
  end.

(** The day of the example that shows the last colliding candidate, not
    the largest column, deciding: five events already in duration order. *)
Definition quirk_day : list (Z * Z * Z) :=
  [(1, 0, 6); (2, 0, 5); (3, 1, 5); (4, 6, 9); (5, 4, 7)]%Z.

(** ** Invariants of the position loop *)

(** What the slide-back of line 74 establishes for an event. *)
Definition settled (e : Event) : Prop :=
  (position e ≤ 1)%Z \/ 2 ≤ length (collisions e).

(** [evolves arr s s']: what a call of [checkLeft] may change, [arr] being
    the scanned array.  Collisions are only appended; a new entry [x] in
    the collisions of the event at index [k] comes with the entry [k] in
    the collisions of the event at index [x], and the two overlap; the
    position of an event changes only if it has a collision with an earlier
    event. *)
Record evolves (arr : list nat) (s s' : State) : Prop := {
  ev_shape : same_shape s s';
  ev_columns : forall l, columns (obj s' l) = columns (obj s l);
  ev_grow : forall l, collisions (obj s l) `prefix_of` collisions (obj s' l);
  ev_new : forall k l x,
    arr !! k = Some l -> x ∈ collisions (obj s' l) ->
    x ∈ collisions (obj s l) \/
    exists lx, arr !! x = Some lx /\ x <> k /\
               collide (obj s l) (obj s lx) = true /\
               k ∈ collisions (obj s' lx);
  ev_pos : forall k l,
    arr !! k = Some l ->
    position (obj s' l) = position (obj s l) \/
    exists j, j < k /\ j ∈ collisions (obj s' l)
}.

Definition keeps_settled (arr : list nat) (m : nat) (s s' : State) : Prop :=
  forall k l, arr !! k = Some l -> k <> m ->
    settled (obj s l) -> settled (obj s' l).

Definition ranged (arr : list nat) (s : State) : Prop :=
  forall k l, arr !! k = Some l -> l < length (objects s).

(** The array [arr] that [layOutDay] works on is the array bound to the
    module-level [events], and its references are those of stored
    objects. *)
Definition aliased (arr : list nat) (g : nat) (s : State) : Prop :=
  global_events s = Some g /\ arrays s !! g = Some arr /\ ranged arr s.

(** Every registered collision is mutual, joins two events of the array
    and joins events that overlap. *)
Definition linked (arr : list nat) (s : State) : Prop :=
  forall k l x, arr !! k = Some l -> x ∈ collisions (obj s l) ->
    exists lx, arr !! x = Some lx /\ x <> k /\
               collide (obj s l) (obj s lx) = true /\
               k ∈ collisions (obj s lx).

(** The invariant of the position loop. *)
Record resolved (arr : list nat) (s : State) : Prop := {
  rs_linked : linked arr s;
  rs_settled : forall k l, arr !! k = Some l -> settled (obj s l);
  rs_alone : forall k l, arr !! k = Some l ->
    collisions (obj s l) = [] -> position (obj s l) = 0%Z;
  rs_columns : forall k l, arr !! k = Some l -> columns (obj s l) = 1%Z
}.

(** ** Invariants of the geometry loop *)

(** The geometry loop leaves positions and collisions as they are. *)
Record painted (s s' : State) : Prop := {
  pt_shape : same_shape s s';
  pt_position : forall l, position (obj s' l) = position (obj s l);
  pt_collisions : forall l, collisions (obj s' l) = collisions (obj s l)
}.

(** From index [e] on, no turn of the geometry loop writes the [columns]
    of the event at index [k]: no event from [e] on has [k] among its
    collisions, and the event itself, if its turn is still to come, has no
    collisions. *)
Definition quiet (arr : list nat) (s : State) (e k : nat) : Prop :=
  (forall d ld, e ≤ d -> arr !! d = Some ld -> k ∉ collisions (obj s ld)) /\
  (forall lk, e ≤ k -> arr !! k = Some lk -> collisions (obj s lk) = []).

(** ** The input of the statements *)

(** Duration of an input triple [(id, start, end)]. *)
Definition span (r : Z * Z * Z) : Z := (r.2 - r.1.2)%Z.

(** [input_ok s events evs]: the array [events], holding the references
    [evs], is handed to [layOutDay] on a page whose module-level [events]
    is bound to that same array; its events have unique ids and start
    before they end. *)
Record input_ok (s : State) (events : nat) (evs : list nat) : Prop := {
  in_global : global_events s = Some events;
  in_array : arrays s !! events = Some evs;
  in_range : forall l, l ∈ evs -> l < length (objects s);
  in_ids : NoDup (ids s evs);
  in_times : forall l, l ∈ evs -> (start (obj s l) < end_ (obj s l))%Z
}.

(** An event as the initialization loop leaves it, for the fields the
    later loops read. *)
Definition fresh (e : Event) : Prop :=
  position e = 0%Z /\ collisions e = [] /\ columns e = 1%Z.

(** ** Connected components of the collision relation *)




(** The day on which a component ends with different [columns]. *)
Definition split_day : list (Z * Z * Z) :=
  [(1, 0, 1); (2, 0, 1); (3, 0, 2); (4, 1, 2)]%Z.

(** ** The column the search computes *)

(** [depths s arr n] lists, for the first [n] events of [arr], the value
    [checkLeft] returns: 0 for an event that collides with none before
    it, otherwise one more than the value of the last colliding candidate
    of its scan. *)
Fixpoint depths (s : State) (arr : list nat) (n : nat) : list Z :=
  match n with
  | O => []
  | S n' =>
      let ds := depths s arr n' in
      ds ++ [match last (colliding s (arr !!! n') arr 0) with
             | None => 0%Z
             | Some p => (1 + ds !!! p)%Z
             end]
  end.

Definition depth (s : State) (arr : list nat) (k : nat) : Z :=
  depths s arr (S k) !!! k.

(** The events before index [m] that collide with none before them are in
    column 0. *)
Definition roots_zero (arr : list nat) (m : nat) (s : State) : Prop :=
  forall k l, k < m -> arr !! k = Some l ->
    colliding s l arr 0 = [] -> position (obj s l) = 0%Z.

(** An event is as it was, or in the column the search computes for it. *)
Definition moved (arr : list nat) (s s' : State) : Prop :=
  forall k l, arr !! k = Some l ->
    (position (obj s' l) = position (obj s l) /\
     collisions (obj s' l) = collisions (obj s l)) \/
    position (obj s' l) = depth s arr k.

(** After its turn in the position loop an event is in the column the
    search computes for it, unless line 74 has slid it back to 0. *)
Definition graded (arr : list nat) (s : State) : Prop :=
  forall k l, arr !! k = Some l ->
    position (obj s l) = depth s arr k \/
    (position (obj s l) = 0%Z /\ length (collisions (obj s l)) < 2).

(** Every two overlapping events of which the later has had its turn
    before index [e] are registered. *)
Definition complete (arr : list nat) (e : nat) (s : State) : Prop :=
  forall a b la lb, a < b -> b < e ->
    arr !! a = Some la -> arr !! b = Some lb ->
    collide (obj s lb) (obj s la) = true -> a ∈ collisions (obj s lb).

(** ** Groups of mutually colliding events *)

(** [K] is a group of events of [arr] each of which has exactly the others
    of the group among its collisions. *)
Definition mutual (arr : list nat) (s : State) (K : list nat) : Prop :=
  forall i, i ∈ K -> exists l, arr !! i = Some l /\
    forall j, j ∈ collisions (obj s l) <-> (j ∈ K /\ j <> i).

(** The same for the events of a returned list. *)
Definition mutually_colliding (out : list Event) (K : list nat) : Prop :=
  forall i, i ∈ K -> exists e, out !! i = Some e /\
    forall j, j ∈ collisions e <-> (j ∈ K /\ j <> i).

(** The [columns] of the event [lz] is not below its own column. *)
Definition wide (s : State) (lz : nat) : Prop :=
  (position (obj s lz) + 1 ≤ columns (obj s lz))%Z.

(** Scenario 4 of the specification: three mutually overlapping events of
    equal duration. *)
Definition trio_day : list (Z * Z * Z) :=
  [(1, 0, 60); (2, 10, 70); (3, 20, 80)]%Z.

(** ** Further readings of a layout *)

(** The collisions of the events of [arr] hold no index twice. *)
Definition tidy (arr : list nat) (s : State) : Prop :=
  forall k l, arr !! k = Some l -> NoDup (collisions (obj s l)).

(** After its turn in the position loop, which the events before index
    [m] have had, an event is in the column the search computes for it,
    unless that column is beyond 1 and line 74 has slid the event back
    to 0. *)
Definition ranked (arr : list nat) (m : nat) (s : State) : Prop :=
  forall k l, k < m -> arr !! k = Some l ->
    position (obj s l) = depth s arr k \/
    (position (obj s l) = 0%Z /\ length (collisions (obj s l)) < 2 /\
     (1 < depth s arr k)%Z).

(** The [columns] of the events of [arr] do not exceed [n]. *)
Definition narrow (arr : list nat) (n : Z) (s : State) : Prop :=
  forall k l, arr !! k = Some l -> (columns (obj s l) ≤ n)%Z.

(** The box of an event as line 89 and line 90 leave it: [width] is the
    quotient of 600 by a number of columns above the column of the event,
    and [left] puts the box in that column. *)
Definition boxed (e : Event) : Prop :=
  exists c, (position e < c)%Z /\ width e = (600 / c)%Z /\
            left e = (position e * width e + 10)%Z.

(** [layOutDay] called a second time, on the array the first call
    returned, on the same page. *)
Definition layOutTwice (input : list (Z * Z * Z)) : outcome (list Event) :=
  s' ← layOutDay (S (length input)) (page input) 0;
  returned (S (length input)) s' 0.

(** A day of four events in two groups of two. *)
Definition pairs_day : list (Z * Z * Z) :=
  [(1, 0, 60); (2, 30, 90); (3, 100, 160); (4, 130, 200)]%Z.

(** An event as the three loops leave it when no collision is registered
    on it: column 0 of one column, the full width. *)
Definition plain (e : Event) : Prop :=
  position e = 0%Z /\ collisions e = [] /\ columns e = 1%Z /\
  width e = 600%Z /\ left e = 10%Z.

(** A page on which nothing is bound to the module-level [events], with
    one array literal. *)
Definition unbound_page (input : list (Z * Z * Z)) : State :=
  mkState (rawEvent <$> input) [seq 0 (length input)] None.

(** A page on which the module-level [events] is bound to an empty array,
    with a second array literal. *)
Definition empty_page (input : list (Z * Z * Z)) : State :=
  mkState (rawEvent <$> input) [[]; seq 0 (length input)] (Some 0).

(** A day on which two events that overlap in time get boxes that
    overlap on the canvas. *)
Definition crowded_day : list (Z * Z * Z) :=
  [(1, 0, 1); (2, 0, 1); (3, 0, 2); (4, 1, 4)]%Z.

(** No object outside [arr] has changed from [s] to [s']. *)
Definition untouched (arr : list nat) (s s' : State) : Prop :=
  forall l, l ∉ arr -> obj s' l = obj s l.

(** A page with two array literals, the first bound to the module-level
    [events]. *)
Definition two_arrays : State :=
  mkState (rawEvent <$> [(1, 0, 60); (2, 30, 90); (3, 0, 60)]%Z)
          [[0; 1]; [2]] (Some 0).

(** From [s] to [s'] the collisions of every object have only been
    appended to. *)
Definition grows (s s' : State) : Prop :=
  forall l, collisions (obj s l) `prefix_of` collisions (obj s' l).

(** The fields of an event that [checkLeft] never writes. *)
Definition fixed (e : Event) : Z * Z * Z * Z * Z * Z * Z * Z * Z :=
  (id e, start e, end_ e, left e, top e, width e, duration e, overlap e, columns e).

(** ** The order of the collisions *)

(** The collisions of the events of [arr] are in ascending order. *)
Definition ascending (arr : list nat) (s : State) : Prop :=
  forall k l, arr !! k = Some l -> StronglySorted lt (collisions (obj s l)).

(** Every two overlapping events before index [m] are registered on each
    other. *)
Definition full (arr : list nat) (m : nat) (s : State) : Prop :=
  forall a b la lb, a < m -> b < m -> a <> b ->
    arr !! a = Some la -> arr !! b = Some lb ->
    collide (obj s la) (obj s lb) = true -> b ∈ collisions (obj s la).

(** During the turn of the event at index [m], when its scan has passed
    the candidates before index [n]: a registered collision joins two
    events before [m], or is a candidate before [n] registered on the
    event at [m], or is [m] registered on a candidate before [n]. *)
Definition scanning (arr : list nat) (m n : nat) (s : State) : Prop :=
  forall k l x, arr !! k = Some l -> x ∈ collisions (obj s l) ->
    (k < m /\ x < m) \/ (k = m /\ x < n) \/ (x = m /\ k < n).

(** The candidates before [n] that overlap the event at [m] are
    registered on it, and it on them. *)
Definition met (arr : list nat) (m n : nat) (s : State) : Prop :=
  forall j cj lm, j < n -> arr !! j = Some cj -> arr !! m = Some lm ->
    collide (obj s lm) (obj s cj) = true ->
    j ∈ collisions (obj s lm) /\ m ∈ collisions (obj s cj).

(** The indices of the events of [out] other than [i] that overlap [e],
    in ascending order. *)
Definition overlapping (out : list Event) (i : nat) (e : Event) : list nat :=
  filter (fun j => j <> i /\ collide e (out !!! j) = true) (seq 0 (length out)).

(** ** The other helpers of Calendar.js *)

(** returnEarlierEvent (lines 242-245) and returnLaterEvent (lines
    253-256).  The arguments and the result are object references. *)
Definition returnEarlierEvent (s : State) (e1 e2 : nat) : nat :=
  if (start (obj s e1) <=? start (obj s e2))%Z then e1 else e2.

Definition returnLaterEvent (s : State) (e1 e2 : nat) : nat :=
  if (start (obj s e1) >=? start (obj s e2))%Z then e1 else e2.

(** sortByStart (lines 264-269). *)
Definition sortByStart (e1 e2 : Event) : Z :=
  let x := start e1 in
  let y := start e2 in
  if (x <? y)%Z then (-1)%Z else if (x >? y)%Z then 1%Z else 0%Z.

(** ** The document *)

(** An element of the document: its tag, its attributes in the order in
    which they were first set, the markup assigned to its [innerHTML],
    and its children in the order in which they were appended. *)
#[warnings="-register-all"]
Inductive Node : Type :=
  | Element (tag : string) (attrs : list (string * string))
            (html : string) (children : list Node).

Definition tagName (n : Node) : string :=
  match n with Element tag _ _ _ => tag end.

Definition attributes (n : Node) : list (string * string) :=
  match n with Element _ attrs _ _ => attrs end.

Definition innerHTML (n : Node) : string :=
  match n with Element _ _ html _ => html end.

Definition childNodes (n : Node) : list Node :=
  match n with Element _ _ _ children => children end.

Definition createElement (tag : string) : Node := Element tag [] "" [].

Fixpoint set_attribute (name value : string) (attrs : list (string * string))
    : list (string * string) :=
  match attrs with
  | [] => [(name, value)]
  | (n, v) :: rest =>
      if String.eqb n name then (n, value) :: rest
      else (n, v) :: set_attribute name value rest
  end.

Definition setAttribute (name value : string) (n : Node) : Node :=
  Element (tagName n) (set_attribute name value (attributes n))
          (innerHTML n) (childNodes n).



Definition set_innerHTML (html : string) (n : Node) : Node :=
  Element (tagName n) (attributes n) html (childNodes n).

Definition appendChild (child parent : Node) : Node :=
  Element (tagName parent) (attributes parent) (innerHTML parent)
          (childNodes parent ++ [child]).

(** ** TimelineStop (lines 302-328) and createTimeline (lines 182-189) *)

(** [hr] is a number, [min] the string the callers pass, [milTime] a
    boolean.  The string of a number is its decimal notation.  The
    function returns the list item [this.elem]; its properties
    [timeField] and [meridian] are its first and its second child. *)
Definition TimelineStop (hr : Z) (min : string) (milTime : bool) : Node :=
  let type := if String.eqb min "00" then "major" else "minor" in
  let elem := createElement "li" in
  let elem := setAttribute "class" type elem in
  let timeField := createElement "span" in
  let timeField := setAttribute "class" type timeField in
  let timeField :=
    if negb milTime && (hr >? 12)%Z
    then set_innerHTML (pretty (hr - 12)%Z +:+ ":" +:+ min) timeField
    else set_innerHTML (pretty hr +:+ ":" +:+ min) timeField in
  let elem := appendChild timeField elem in
  if String.eqb type "major" && negb milTime
  then
    let meridian := createElement "span" in
    let meridian := setAttribute "class" "meridian" meridian in
    let meridian :=
      if (hr >=? 12)%Z then set_innerHTML " pm" meridian
      else set_innerHTML " am" meridian in
    appendChild meridian elem
  else elem.

Definition timeField (elem : Node) : option Node := childNodes elem !! 0.

Definition meridian (elem : Node) : option Node := childNodes elem !! 1.

(** The stops of the loop, in order: [h] runs from 9 to 21. *)
Definition timelineStops : list Node :=
  h ← seqZ 9 (21 - 9 + 1);
  TimelineStop h "00" false ::
    (if (h <? 21)%Z then [TimelineStop h "30" false] else []).

(** [createTimeline] appends the stops to the timeline element. *)
Definition createTimeline (timeline : Node) : Node :=
  foldl (fun timeline stop => appendChild stop timeline) timeline timelineStops.

(** ** drawEvents (lines 199-233) *)

(** A call on the 2D drawing context of the canvas, with the style in
    force when it is made. *)
Inductive Call : Type :=
  | clearRect (x y w h : Z)
  | fillRect (style : string) (x y w h : Z)
  | strokeRect (style : string) (x y w h : Z)
  | fillText (style face text : string) (x y : Z).

(** The drawing context of a canvas: its three style properties and the
    calls made on it so far.  With it go what [drawEvents] changes besides:
    the module-level variables [_left] and [_top] it assigns, and the
    number of calls of [Math.random] so far. *)
Record Screen : Type := mkScreen {
  strokeStyle : string;
  fillStyle : string;
  font : string;
  calls : list Call;
  _left : option Z;
  _top : option Z;
  randoms : nat
}.

Definition set_strokeStyle (v : string) (c : Screen) : Screen :=
  mkScreen v (fillStyle c) (font c) (calls c) (_left c) (_top c) (randoms c).

Definition set_fillStyle (v : string) (c : Screen) : Screen :=
  mkScreen (strokeStyle c) v (font c) (calls c) (_left c) (_top c) (randoms c).

Definition set_font (v : string) (c : Screen) : Screen :=
  mkScreen (strokeStyle c) (fillStyle c) v (calls c) (_left c) (_top c) (randoms c).

Definition call (k : Call) (c : Screen) : Screen :=
  mkScreen (strokeStyle c) (fillStyle c) (font c) (calls c ++ [k])
           (_left c) (_top c) (randoms c).

Definition ctx_clearRect (x y w h : Z) (c : Screen) : Screen :=
  call (clearRect x y w h) c.

Definition ctx_fillRect (x y w h : Z) (c : Screen) : Screen :=
  call (fillRect (fillStyle c) x y w h) c.

Definition ctx_strokeRect (x y w h : Z) (c : Screen) : Screen :=
  call (strokeRect (strokeStyle c) x y w h) c.

Definition ctx_fillText (text : string) (x y : Z) (c : Screen) : Screen :=
  call (fillText (fillStyle c) (font c) text x y) c.

(** The fill style of the debug mode: three calls of [Math.random];
    [randomInt k m] is the value of [parseInt(m*Math.random())] at the
    call number [k]. *)
Definition randomStyle (randomInt : nat -> Z -> Z) (c : Screen) : Screen :=
  let k := randoms c in
  let v := "rgb(" +:+ pretty (randomInt k 255%Z) +:+ "," +:+
           pretty (randomInt (S k) 150%Z) +:+ "," +:+
           pretty (randomInt (S (S k)) 100%Z) +:+ ")" in
  mkScreen (strokeStyle c) v (font c) (calls c) (_left c) (_top c) (S (S (S k))).

(** The body of the loop, for the event [_evt] at index [e]. *)
Definition drawEvent (DEBUG_MODE : bool) (randomInt : nat -> Z -> Z)
    (e : nat) (_evt : Event) (c : Screen) : Screen :=
  let c := set_strokeStyle "#aaa" c in
  let c := ctx_strokeRect (left _evt + 3) (start _evt + 1)
                          (width _evt - 3) (duration _evt - 2) c in
  let c := set_fillStyle "rgba(255,255,255,1.0)" c in
  let c := ctx_fillRect (left _evt) (start _evt + 1)
                        (width _evt) (duration _evt - 2) c in
  let c := if DEBUG_MODE then randomStyle randomInt c
           else set_fillStyle "#4b6ea9" c in
  let c := ctx_fillRect (left _evt) (start _evt) 3 (duration _evt) c in
  let c := set_fillStyle "#4b6ea9" c in
  let c := set_font "bold 12px 'Lucida Grande', Arial" c in
  let c := mkScreen (strokeStyle c) (fillStyle c) (font c) (calls c)
                    (Some (left _evt + 13)%Z) (Some (start _evt + 22)%Z)
                    (randoms c) in
  let c := if DEBUG_MODE
           then ctx_fillText ("Sample Item (" +:+ pretty e +:+ ") id " +:+
                              pretty (id _evt))
                             (left _evt + 13) (start _evt + 22) c
           else ctx_fillText "Sample Item" (left _evt + 13) (start _evt + 22) c in
  let c := set_fillStyle "#797979" c in
  let c := set_font "9px Lucida Grande" c in
  if DEBUG_MODE
  then ctx_fillText ("width " +:+ pretty (width _evt) +:+ " location " +:+
                     pretty (position _evt) +:+ " with " +:+
                     pretty (length (collisions _evt)) +:+ " collisions")
                    (left _evt + 13) (start _evt + 35) c
  else ctx_fillText "Sample Location" (left _evt + 13) (start _evt + 35) c.

(** The loop over the events, from index [e] on. *)
Fixpoint drawLoop (DEBUG_MODE : bool) (randomInt : nat -> Z -> Z)
    (events : list Event) (e : nat) (c : Screen) : Screen :=
  match events with
  | [] => c
  | _evt :: rest =>
      drawLoop DEBUG_MODE randomInt rest (S e)
               (drawEvent DEBUG_MODE randomInt e _evt c)
  end.

(** [drawEvents] reads the events and draws; [events] are the events of
    the array it is handed, by value. *)
Definition drawEvents (DEBUG_MODE : bool) (randomInt : nat -> Z -> Z)
    (events : list Event) (c : Screen) : Screen :=
  drawLoop DEBUG_MODE randomInt events 0 c.

(** ** The Calendar constructor (lines 130-137) and init (lines 148-174) *)

(** A calendar object: its container, its timeline and its canvas, which
    are elements of the document, and the drawing context of the
    canvas. *)
Record CalendarObject : Type := mkCalendarObject {
  container : Node;
  timeline : Node;
  canvas : Node;
  ctx : Screen
}.

(** [init]: [body] are the children of the body of the document, [c] the
    screen before; the drawing context of the new canvas starts with the
    default styles. *)
Definition init (body : list Node) (c : Screen) : list Node * CalendarObject :=
  let container := createElement "div" in
  let container := setAttribute "class" "calendarContainer" container in
  let container := setAttribute "className" "calendarContainer" container in
  let timeline := createElement "ul" in
  let timeline := setAttribute "class" "timeline" timeline in
  let timeline := setAttribute "className" "timeline" timeline in
  let timeline := createTimeline timeline in
  let container := appendChild timeline container in
  let canvas := createElement "canvas" in
  let canvas := setAttribute "width" "620" canvas in
  let canvas := setAttribute "height" "720" canvas in
  let canvas := setAttribute "id" "CalendarView" canvas in
  let container := appendChild canvas container in
  let body := body ++ [container] in
  let ctx := mkScreen "#000000" "#000000" "10px sans-serif" []
                      (_left c) (_top c) (randoms c) in
  let ctx := ctx_clearRect 0 0 620 720 ctx in
  let ctx := set_fillStyle "#ececec" ctx in
  let ctx := ctx_fillRect 0 0 620 720 ctx in
  (body, mkCalendarObject container timeline canvas ctx).

(** [new Calendar(defaultEvents)]: the result of [layOutDay] is bound to
    the module-level [events] once the call has returned, and drawn. *)
Definition Calendar (fuel : nat) (DEBUG_MODE : bool) (randomInt : nat -> Z -> Z)
    (s : State) (body : list Node) (c : Screen) (defaultEvents : nat)
    : outcome (State * list Node * CalendarObject) :=
  let '(body, this) := init body c in
  s' ← layOutDay fuel s defaultEvents;
  let s'' := mkState (objects s') (arrays s') (Some defaultEvents) in
  Ok (s'', body,
      mkCalendarObject (container this) (timeline this) (canvas this)
        (drawEvents DEBUG_MODE randomInt (snapshot s'' defaultEvents) (ctx this))).

(** ** Readings of what is drawn *)



(** The five calls [drawEvents] makes for an event when the debug mode is
    off. *)
Definition box_calls (_evt : Event) : list Call :=
  [ strokeRect "#aaa" (left _evt + 3) (start _evt + 1)
               (width _evt - 3) (duration _evt - 2);
    fillRect "rgba(255,255,255,1.0)" (left _evt) (start _evt + 1)
             (width _evt) (duration _evt - 2);
    fillRect "#4b6ea9" (left _evt) (start _evt) 3 (duration _evt);
    fillText "#4b6ea9" "bold 12px 'Lucida Grande', Arial" "Sample Item"
             (left _evt + 13) (start _evt + 22);
    fillText "#797979" "9px Lucida Grande" "Sample Location"
             (left _evt + 13) (start _evt + 35) ].

(** ** Scenario 2 of the specification *)


(** ** The module-level binding *)

(** C9: the layout of an input depends on the array bound to the
    module-level [events].  The same input, [{id:1,start:0,end:60}], is
    laid out as a full-width event on a page whose [events] is the array
    itself, and as the second of two columns on a page whose [events] is an
    array laid out before. *)
Theorem layOutDay_reads_module_events :
  exists s2 a2,
    earlier_page = Ok (s2, a2) /\
    raw <$> snapshot s2 a2 = raw <$> snapshot (page [(1, 0, 60)%Z]) 0 /\
    returned 2 (page [(1, 0, 60)%Z]) 0 =
      Ok [ mkEvent 1 0 60 10 0 600 60 0 0 [] 1 ] /\
    returned 2 s2 a2 =
      Ok [ mkEvent 1 0 60 310 0 300 60 0 1 [0] 2 ].
Proof.
  eexists _, _. split; [vm_compute; reflexivity|].
  repeat split; vm_compute; reflexivity.
Qed.

(** With nothing bound to the module-level [events], the first call of
    [checkLeft] throws. *)
Example layOutDay_events_unbound :
  returned 2 (mkState [rawEvent (1, 0, 60)%Z] [[0]] None) 0 = Throw ReferenceError.
Proof. reflexivity. Qed.

(** ** The store: reading after writing *)

Lemma bind_Ok {A B} (m : outcome A) (f : A -> outcome B) (b : B) :
  m ≫= f = Ok b -> exists a, m = Ok a /\ f a = Ok b.
Proof. destruct m; simpl; intros H; try discriminate. eauto. Qed.

Lemma obj_update s l f l' :
  obj (update s l f) l' =
  if decide (l = l' /\ l < length (objects s)) then f (obj s l) else obj s l'.
Proof. apply list_lookup_total_alter. Qed.

Lemma obj_update_eq s l f :
  l < length (objects s) -> obj (update s l f) l = f (obj s l).
Proof. intros. rewrite obj_update. case_decide; [done|]. tauto. Qed.

Lemma obj_update_ne s l f l' : l <> l' -> obj (update s l f) l' = obj s l'.
Proof. intros. rewrite obj_update. case_decide; [tauto|done]. Qed.

Lemma length_update s l f : length (objects (update s l f)) = length (objects s).
Proof. apply length_alter. Qed.

(** ** What the passes leave alone *)

Lemma raw_registerCollision i e : raw (registerCollision i e) = raw e.
Proof. unfold registerCollision. by destruct (newCollision _ _). Qed.

Lemma raw_slideBack e : raw (slideBack e) = raw e.
Proof. unfold slideBack. by destruct (_ && _). Qed.

Lemma same_shape_refl s : same_shape s s.
Proof. unfold same_shape. by split_and!. Qed.

Lemma same_shape_trans s1 s2 s3 :
  same_shape s1 s2 -> same_shape s2 s3 -> same_shape s1 s3.
Proof.
  intros (?&?&?&Ha) (?&?&?&Hb). split_and!; try congruence.
Qed.

Lemma same_shape_update s l f :
  (forall e, raw (f e) = raw e) -> same_shape s (update s l f).
Proof.
  intros Hf. unfold same_shape. split_and!; try done; try apply length_update.
  intros l'. rewrite obj_update.
  case_decide as Hl; [destruct Hl as [-> _]; apply Hf|done].
Qed.

Lemma same_shape_ids s s' evs : same_shape s s' -> ids s' evs = ids s evs.
Proof.
  intros (_&_&_&H). unfold ids. apply list_fmap_ext. intros _ l _.
  specialize (H l). unfold raw in H. congruence.
Qed.

Lemma same_shape_id s s' l : same_shape s s' -> id (obj s' l) = id (obj s l).
Proof. intros (_&_&_&H). specialize (H l). unfold raw in H. congruence. Qed.

Lemma same_shape_collide s s' l l' :
  same_shape s s' -> collide (obj s' l) (obj s' l') = collide (obj s l) (obj s l').
Proof.
  intros (_&_&_&H). pose proof (H l) as H1. pose proof (H l') as H2.
  unfold raw in *. unfold collide. congruence.
Qed.

Lemma scanLeft_same_shape rec event index cands :
  (forall s c i p s', rec s c i = Ok (p, s') -> same_shape s s') ->
  forall i s s', scanLeft rec event index cands i s = Ok s' -> same_shape s s'.
Proof.
  intros Hrec. induction cands as [|c rest IH]; intros i s s' H; simpl in H.
  - injection H as <-. apply same_shape_refl.
  - destruct (id (obj s c) =? id (obj s event))%Z.
    { injection H as <-. apply same_shape_refl. }
    destruct (collide (obj s event) (obj s c)); [|by eapply IH].
    apply bind_Ok in H as ([p s2] & Hr & H).
    apply Hrec in Hr. apply IH in H.
    eapply same_shape_trans; [apply same_shape_update, raw_registerCollision|].
    eapply same_shape_trans; [exact Hr|].
    eapply same_shape_trans; [|exact H].
    eapply same_shape_trans;
      [by apply (same_shape_update s2 event (set_position (p + 1)))|].
    apply same_shape_update, raw_registerCollision.
Qed.

Lemma checkLeft_same_shape fuel :
  forall s event index p s',
    checkLeft fuel s event index = Ok (p, s') -> same_shape s s'.
Proof.
  induction fuel as [|fuel IH]; intros s event index p s' H; simpl in H; [done|].
  destruct (global_events s) as [g|]; [|done].
  destruct (arrays s !! g) as [evs|]; [|done].
  apply bind_Ok in H as (s1 & H & Heq). injection Heq as _ <-.
  eapply scanLeft_same_shape; [|exact H]. exact IH.
Qed.

(** ** Termination of the recursive search *)

Lemma first_index_app x pre rest :
  x ∉ pre -> first_index x (pre ++ rest) = length pre + first_index x rest.
Proof.
  induction pre as [|y pre IH]; simpl; intros Hx; [done|].
  apply not_elem_of_cons in Hx as [Hxy Hx].
  destruct (Z.eqb_spec y x); [congruence|]. by rewrite IH.
Qed.

Lemma first_index_lookup x l i : l !! i = Some x -> first_index x l ≤ i.
Proof.
  revert i. induction l as [|y l IH]; intros i H; [done|]. simpl.
  destruct (Z.eqb_spec y x); [lia|].
  destruct i as [|i]; simpl in H; [congruence|].
  apply IH in H. lia.
Qed.

Lemma first_index_unique x l i :
  NoDup l -> l !! i = Some x -> first_index x l = i.
Proof.
  revert i. induction l as [|y l IH]; intros i Hnd H; [done|]. simpl.
  apply NoDup_cons in Hnd as [Hy Hnd].
  destruct i as [|i]; simpl in H.
  - injection H as ->. by rewrite Z.eqb_refl.
  - destruct (Z.eqb_spec y x) as [->|].
    + apply list_elem_of_lookup_2 in H. done.
    + f_equal. by apply IH.
Qed.

Section termination.
(** The array the module-level [events] is bound to, and the ids of its
    events, which no pass changes. *)
Variables (g : nat) (evs : list nat) (ids0 : list Z).

Lemma scanned_same_shape s s' : scanned g evs ids0 s -> same_shape s s' -> scanned g evs ids0 s'.
Proof.
  intros (Hg & Ha & Hi) Hs. pose proof (same_shape_ids _ _ evs Hs) as Hids.
  destruct Hs as (Ha' & Hg' & _). unfold scanned.
  rewrite Hg', Ha', Hids. done.
Qed.

Lemma scanned_id s i c : scanned g evs ids0 s -> evs !! i = Some c -> ids0 !! i = Some (id (obj s c)).
Proof.
  intros (_ & _ & <-) H. unfold ids. by rewrite list_lookup_fmap, H.
Qed.

Lemma scanLeft_returns rec event index (x : Z) :
  (forall s c j, scanned g evs ids0 s -> evs !! j = Some c -> j < first_index x ids0 ->
     exists p s', rec s c j = Ok (p, s')) ->
  (forall s c j p s', rec s c j = Ok (p, s') -> same_shape s s') ->
  forall rest pre s,
    evs = pre ++ rest -> scanned g evs ids0 s -> id (obj s event) = x ->
    x ∉ ids s pre ->
    exists s', scanLeft rec event index rest (length pre) s = Ok s'.
Proof.
  intros Hrec Hshape. induction rest as [|c rest IH]; intros pre s Hevs Hs Hx Hpre; simpl.
  { eauto. }
  rewrite Hx. destruct (Z.eqb_spec (id (obj s c)) x) as [|Hne]; [eauto|].
  assert (Hevs' : evs = (pre ++ [c]) ++ rest) by (by rewrite <- app_assoc).
  assert (Hpre' : forall s', same_shape s s' -> x ∉ ids s' (pre ++ [c])).
  { intros s' Hs'. rewrite (same_shape_ids _ _ _ Hs'). unfold ids.
    rewrite fmap_app. simpl. rewrite elem_of_app, list_elem_of_singleton.
    intros [?|?]; [by apply Hpre|congruence]. }
  assert (Hlen : S (length pre) = length (pre ++ [c])).
  { rewrite length_app. simpl. lia. }
  destruct (collide (obj s event) (obj s c)).
  - set (s1 := update s event (registerCollision (length pre))).
    assert (Hs1 : same_shape s s1) by apply same_shape_update, raw_registerCollision.
    destruct (Hrec s1 c (length pre)) as (p & s2 & Hr).
    { by eapply scanned_same_shape. }
    { rewrite Hevs. by rewrite list_lookup_middle. }
    { destruct Hs as (_ & _ & Hids). rewrite <- Hids, Hevs. unfold ids.
      rewrite fmap_app, first_index_app by done. rewrite length_fmap. simpl.
      destruct (Z.eqb_spec (id (obj s c)) x); [done|lia]. }
    rewrite Hr. simpl.
    set (s3 := update s2 event (set_position (p + 1))).
    set (s4 := update s3 c (registerCollision index)).
    assert (Hs4 : same_shape s s4).
    { eapply same_shape_trans; [exact Hs1|].
      eapply same_shape_trans; [by eapply Hshape|].
      eapply same_shape_trans; [by apply (same_shape_update s2 event (set_position (p + 1)))|].
      apply same_shape_update, raw_registerCollision. }
    rewrite Hlen. apply IH; [done|by eapply scanned_same_shape| |by apply Hpre'].
    by rewrite (same_shape_id _ _ _ Hs4).
  - rewrite Hlen. apply IH; [done..|]. apply Hpre', same_shape_refl.
Qed.

(** The depth of the recursion is bounded by the index at which the scan
    of the caller stops. *)
Lemma checkLeft_returns fuel :
  forall s event index,
    scanned g evs ids0 s -> first_index (id (obj s event)) ids0 < fuel ->
    exists p s', checkLeft fuel s event index = Ok (p, s').
Proof.
  induction fuel as [|fuel IH]; intros s event index Hs Hfuel; [lia|]. simpl.
  pose proof Hs as (-> & -> & _).
  destruct (scanLeft_returns (checkLeft fuel) event index (id (obj s event)))
    with (rest := evs) (pre := @nil nat) (s := s) as (s' & H); try done.
  - intros s1 c j Hs1 Hc Hj. apply IH; [done|].
    pose proof (first_index_lookup _ _ _ (scanned_id _ _ _ Hs1 Hc)). lia.
  - intros s1 c j p s'. apply checkLeft_same_shape.
  - apply not_elem_of_nil.
  - simpl in H. rewrite H. simpl. eauto.
Qed.

Lemma positionPass_returns fuel rest :
  forall e s,
    scanned g evs ids0 s ->
    (forall k l, rest !! k = Some l -> first_index (id (obj s l)) ids0 ≤ e + k) ->
    e + length rest ≤ fuel ->
    exists s', positionPass fuel rest e s = Ok s' /\ same_shape s s'.
Proof.
  induction rest as [|l rest IH]; intros e s Hs Hids Hfuel; simpl.
  { eauto using same_shape_refl. }
  simpl in Hfuel.
  destruct (checkLeft_returns fuel s l e) as (p & s1 & H); [done| |].
  { specialize (Hids 0 l eq_refl). lia. }
  rewrite H. simpl.
  set (s2 := update s1 l (set_position p)).
  set (s3 := update s2 l slideBack).
  assert (Hs3 : same_shape s s3).
  { eapply same_shape_trans; [by eapply checkLeft_same_shape|].
    eapply same_shape_trans; [by apply (same_shape_update s1 l (set_position p))|].
    apply same_shape_update, raw_slideBack. }
  destruct (IH (S e) s3) as (s' & H' & Hs'); [by eapply scanned_same_shape| |lia|].
  { intros k l' Hk. rewrite (same_shape_id _ _ _ Hs3).
    specialize (Hids (S k) l' Hk). lia. }
  exists s'. split; [done|]. by eapply same_shape_trans.
Qed.
End termination.

(** C10: when the id of every event of the array handed to [layOutDay]
    first occurs in the scanned array at or before the event's own index,
    each call [checkLeft(events[e], e)] of the position loop returns within
    a recursion depth of [e + 1], from whatever state the earlier calls
    left, and the position loop as a whole returns. *)
Theorem checkLeft_terminates (s : State) (g : nat) (evs events : list nat) (fuel : nat) :
  global_events s = Some g ->
  arrays s !! g = Some evs ->
  (forall e l, events !! e = Some l -> first_index (id (obj s l)) (ids s evs) ≤ e) ->
  length events ≤ fuel ->
  (forall e l s1, events !! e = Some l -> same_shape s s1 ->
     exists p s', checkLeft (S e) s1 l e = Ok (p, s')) /\
  (exists s', positionPass fuel events 0 s = Ok s').
Proof.
  intros Hg Ha Hids Hfuel.
  assert (Hs : scanned g evs (ids s evs) s) by done.
  split.
  - intros e l s1 He Hs1.
    apply (checkLeft_returns g evs (ids s evs)); [by eapply scanned_same_shape|].
    rewrite (same_shape_id _ _ _ Hs1). specialize (Hids e l He). lia.
  - destruct (positionPass_returns g evs (ids s evs) fuel events 0 s) as (s' & H & _);
      eauto.
Qed.

Lemma checkLeft_terminates_witness :
  exists s', positionPass 2 [0; 1] 0 (page [(1, 0, 60); (2, 0, 60)]%Z) = Ok s'.
Proof.
  apply (checkLeft_terminates (page [(1, 0, 60); (2, 0, 60)]%Z) 0 [0; 1] [0; 1] 2).
  - reflexivity.
  - reflexivity.
  - intros [|[|e]] l H; simpl in H; try discriminate;
      injection H as <-; vm_compute; lia.
  - simpl. lia.
Defined.

(** ** The last colliding candidate decides the column *)

Lemma colliding_same_shape s s' event cands i :
  same_shape s s' -> colliding s' event cands i = colliding s event cands i.
Proof.
  intros Hs. revert i. induction cands as [|c rest IH]; intros i; simpl; [done|].
  rewrite !(same_shape_id _ _ _ Hs), (same_shape_collide _ _ _ _ Hs).
  by rewrite !IH.
Qed.





(** On that day the fifth event collides with the events in the columns 0,
    1, 2 and, last in scan order, with one in column 0: it gets column 1,
    the column of the second event, which it overlaps. *)
Example last_candidate_not_maximum :
  layOutPage quirk_day ≫= (fun out : list Event => Ok (position <$> out))
  = Ok [0; 1; 2; 0; 1]%Z.
Proof. vm_compute. reflexivity. Qed.

(** ** The search on the array it is handed *)

Lemma newCollision_false cs i : newCollision cs i = false <-> i ∈ cs.
Proof.
  induction cs as [|c cs IH]; simpl.
  - split; [done|]. intros H. by apply elem_of_nil in H.
  - rewrite elem_of_cons. destruct (Nat.eqb_spec c i) as [->|Hne].
    + split; auto.
    + rewrite IH. split; [auto|]. intros [?|?]; [congruence|done].
Qed.

Lemma collisions_registerCollision i e x :
  x ∈ collisions (registerCollision i e) <-> x ∈ collisions e \/ x = i.
Proof.
  unfold registerCollision. destruct (newCollision (collisions e) i) eqn:Hn; simpl.
  - rewrite elem_of_app, list_elem_of_singleton. done.
  - apply newCollision_false in Hn. split; [auto|]. intros [?| ->]; done.
Qed.

Lemma prefix_registerCollision i e :
  collisions e `prefix_of` collisions (registerCollision i e).
Proof.
  unfold registerCollision. destruct (newCollision (collisions e) i); simpl.
  - by apply prefix_app_r.
  - done.
Qed.

Lemma position_registerCollision i e : position (registerCollision i e) = position e.
Proof. unfold registerCollision. by destruct (newCollision _ _). Qed.

Lemma columns_registerCollision i e : columns (registerCollision i e) = columns e.
Proof. unfold registerCollision. by destruct (newCollision _ _). Qed.

Lemma collide_sym a b : collide a b = collide b a.
Proof.
  unfold collide. rewrite !Z.gtb_ltb. apply andb_comm.
Qed.

Lemma collide_raw a a' b b' : raw a = raw a' -> raw b = raw b' -> collide a b = collide a' b'.
Proof. unfold raw, collide. intros [= _ -> ->] [= _ -> ->]. done. Qed.

Lemma two_members {A} (l : list A) x y : x <> y -> x ∈ l -> y ∈ l -> 2 ≤ length l.
Proof.
  destruct l as [|a [|b l]]; simpl; intros Hne Hx Hy; [| |lia].
  - by apply elem_of_nil in Hx.
  - apply list_elem_of_singleton in Hx, Hy. congruence.
Qed.

Lemma obj_update_in s l f l' :
  l < length (objects s) ->
  obj (update s l f) l' = if decide (l' = l) then f (obj s l') else obj s l'.
Proof.
  intros Hl. rewrite obj_update.
  repeat case_decide; try done.
  - by subst.
  - destruct H. congruence.
  - exfalso. subst. auto.
Qed.

Section search.
Variable arr : list nat.
Hypothesis arr_nodup : NoDup arr.

Lemma arr_inj k k' l : arr !! k = Some l -> arr !! k' = Some l -> k = k'.
Proof. by apply NoDup_lookup. Qed.

Lemma ranged_same_shape s s' : ranged arr s -> same_shape s s' -> ranged arr s'.
Proof. intros Hr (_ & _ & Hlen & _) k l H. rewrite Hlen. by eapply Hr. Qed.

Lemma evolves_refl s : evolves arr s s.
Proof.
  split; auto using same_shape_refl.
Qed.

Lemma evolves_trans s1 s2 s3 :
  evolves arr s1 s2 -> evolves arr s2 s3 -> evolves arr s1 s3.
Proof.
  intros [Hs1 Hc1 Hg1 Hn1 Hp1] [Hs2 Hc2 Hg2 Hn2 Hp2]. split.
  - by eapply same_shape_trans.
  - intros l. by rewrite Hc2.
  - intros l. etrans; [apply Hg1|apply Hg2].
  - intros k l x Hk Hx. destruct (Hn2 k l x Hk Hx) as [Hx'|(lx & ? & ? & Hcol & ?)].
    + destruct (Hn1 k l x Hk Hx') as [?|(lx & ? & ? & ? & Hk')]; [by left|].
      right. exists lx. split_and!; try done.
      by eapply elem_of_prefix; [|apply Hg2].
    + right. exists lx. split_and!; try done.
      by rewrite <- (same_shape_collide _ _ _ _ Hs1).
  - intros k l Hk. destruct (Hp2 k l Hk) as [->|?]; [|by right].
    destruct (Hp1 k l Hk) as [->|(j & ? & Hj)]; [by left|].
    right. exists j. split; [done|]. by eapply elem_of_prefix; [|apply Hg2].
Qed.

(** One iteration of the loop of [checkLeft] that meets a collision. *)
Lemma iteration_evolves s s2 m l i c p :
  ranged arr s -> arr !! m = Some l -> arr !! i = Some c -> i < m ->
  collide (obj s l) (obj s c) = true ->
  evolves arr (update s l (registerCollision i)) s2 ->
  keeps_settled arr i (update s l (registerCollision i)) s2 ->
  evolves arr s
    (update (update s2 l (set_position (p + 1))) c (registerCollision m)) /\
  keeps_settled arr m s
    (update (update s2 l (set_position (p + 1))) c (registerCollision m)).
Proof.
  intros Hrg Hm Hi Him Hcol [Hs12 Hc12 Hg12 Hn12 Hp12] Hq12.
  set (s1 := update s l (registerCollision i)) in *.
  set (s3 := update s2 l (set_position (p + 1))).
  set (s4 := update s3 c (registerCollision m)).
  assert (Hlc : l <> c).
  { intros ->. pose proof (arr_inj _ _ _ Hm Hi). lia. }
  assert (Hs01 : same_shape s s1) by apply same_shape_update, raw_registerCollision.
  assert (Hs02 : same_shape s s2) by by eapply same_shape_trans.
  assert (Hs24 : same_shape s2 s4).
  { eapply same_shape_trans;
      [by apply (same_shape_update s2 l (set_position (p + 1)))|].
    apply same_shape_update, raw_registerCollision. }
  assert (Hs04 : same_shape s s4) by by eapply same_shape_trans.
  assert (Hl : l < length (objects s)) by by eapply Hrg.
  assert (Hl2 : l < length (objects s2)).
  { destruct Hs02 as (_ & _ & -> & _). done. }
  assert (Hc3 : c < length (objects s3)).
  { unfold s3. rewrite length_update. destruct Hs02 as (_ & _ & -> & _).
    by eapply Hrg. }
  assert (O1 : forall l', obj s1 l' =
    if decide (l' = l) then registerCollision i (obj s l') else obj s l').
  { intros l'. unfold s1. by rewrite obj_update_in. }
  assert (O4 : forall l', obj s4 l' =
    if decide (l' = c) then registerCollision m (obj s2 l')
    else if decide (l' = l) then set_position (p + 1) (obj s2 l')
    else obj s2 l').
  { intros l'. unfold s4. rewrite obj_update_in by done.
    case_decide; subst.
    - unfold s3. rewrite obj_update_in by done. by case_decide.
    - unfold s3. by rewrite obj_update_in. }
  assert (C1 : forall l' x, x ∈ collisions (obj s1 l') <->
    x ∈ collisions (obj s l') \/ (l' = l /\ x = i)).
  { intros l' x. rewrite O1. case_decide.
    - rewrite collisions_registerCollision. tauto.
    - tauto. }
  assert (C4 : forall l' x, x ∈ collisions (obj s4 l') <->
    x ∈ collisions (obj s2 l') \/ (l' = c /\ x = m)).
  { intros l' x. rewrite O4. repeat case_decide.
    - rewrite collisions_registerCollision. tauto.
    - simpl. tauto.
    - tauto. }
  assert (G01 : forall l', collisions (obj s l') `prefix_of` collisions (obj s1 l')).
  { intros l'. rewrite O1. case_decide; [apply prefix_registerCollision|done]. }
  assert (G24 : forall l', collisions (obj s2 l') `prefix_of` collisions (obj s4 l')).
  { intros l'. rewrite O4. repeat case_decide;
      [apply prefix_registerCollision|done|done]. }
  assert (G04 : forall l', collisions (obj s l') `prefix_of` collisions (obj s4 l')).
  { intros l'. etrans; [apply G01|]. etrans; [apply Hg12|apply G24]. }
  assert (P1 : forall l', position (obj s1 l') = position (obj s l')).
  { intros l'. rewrite O1. case_decide; [apply position_registerCollision|done]. }
  assert (P4 : forall l', l' <> l -> position (obj s4 l') = position (obj s2 l')).
  { intros l' Hl'. rewrite O4. repeat case_decide;
      [apply position_registerCollision|done|done]. }
  assert (Hi4 : i ∈ collisions (obj s4 l)).
  { eapply elem_of_prefix; [|apply G24]. eapply elem_of_prefix; [|apply Hg12].
    apply C1. by right. }
  split; [split|].
  - done.
  - intros l'. rewrite O4. repeat case_decide; subst;
      rewrite ?columns_registerCollision; simpl; rewrite Hc12, O1;
      case_decide; by rewrite ?columns_registerCollision.
  - done.
  - intros k lk x Hk Hx. apply C4 in Hx as [Hx|[-> ->]].
    + destruct (Hn12 k lk x Hk Hx) as [Hx1|(lx & Hlx & Hxk & Hcl & Hin)].
      * apply C1 in Hx1 as [?|[-> ->]]; [by left|].
        right. exists c. pose proof (arr_inj _ _ _ Hk Hm) as ->.
        split_and!; [done|lia|done|]. apply C4. by right.
      * right. exists lx. split_and!; [done|done| |apply C4; by left].
        by rewrite <- (same_shape_collide _ _ _ _ Hs01).
    + right. exists l. pose proof (arr_inj _ _ _ Hk Hi) as ->.
      split_and!; [done|lia|by rewrite collide_sym|done].
  - intros k lk Hk. destruct (decide (lk = l)) as [->|Hne].
    + right. exists i. pose proof (arr_inj _ _ _ Hk Hm) as ->. done.
    + rewrite P4 by done. destruct (Hp12 k lk Hk) as [->|(j & ? & Hj)].
      * left. apply P1.
      * right. exists j. split; [done|]. by eapply elem_of_prefix; [|apply G24].
  - intros k lk Hk Hkm Hset.
    assert (Hne : lk <> l).
    { intros ->. by pose proof (arr_inj _ _ _ Hk Hm). }
    assert (Hset1 : settled (obj s1 lk)).
    { rewrite O1. by case_decide. }
    destruct (decide (k = i)) as [->|Hki].
    + assert (lk = c) as -> by congruence.
      destruct (Hp12 i c Hi) as [Hpos|(j & Hj & Hjin)].
      * destruct Hset1 as [Hle|Hlen].
        -- left. rewrite P4, Hpos by done. done.
        -- right. etrans; [exact Hlen|]. apply prefix_length.
           etrans; [apply Hg12|apply G24].
      * right. apply (two_members _ j m); [lia| |].
        -- apply C4. by left.
        -- apply C4. by right.
    + specialize (Hq12 k lk Hk Hki Hset1).
      rewrite O4. repeat case_decide; subst; try done.
      pose proof (arr_inj _ _ _ Hk Hi). done.
Qed.

Lemma aliased_same_shape g s s' :
  aliased arr g s -> same_shape s s' -> aliased arr g s'.
Proof.
  intros (Hg & Ha & Hr) Hs. pose proof Hs as (Ha' & Hg' & _).
  unfold aliased. rewrite Hg', Ha'. eauto using ranged_same_shape.
Qed.

Lemma scanLeft_evolves g rec m l :
  arr !! m = Some l ->
  (forall s i c p s', aliased arr g s -> arr !! i = Some c -> rec s c i = Ok (p, s') ->
     evolves arr s s' /\ keeps_settled arr i s s') ->
  forall rest pre s s',
    arr = pre ++ rest -> length pre ≤ m -> aliased arr g s ->
    scanLeft rec l m rest (length pre) s = Ok s' ->
    evolves arr s s' /\ keeps_settled arr m s s'.
Proof.
  intros Hm Hrec. induction rest as [|c rest IH]; intros pre s s' Harr Hpre Hal H;
    simpl in H; pose proof Hal as (_ & _ & Hrg).
  { injection H as <-. split; [apply evolves_refl|]. by intros k lk _ _ ?. }
  assert (Hc : arr !! length pre = Some c).
  { rewrite Harr. by rewrite list_lookup_middle. }
  destruct (Z.eqb_spec (id (obj s c)) (id (obj s l))) as [|Hid].
  { injection H as <-. split; [apply evolves_refl|]. by intros k lk _ _ ?. }
  assert (Hlt : length pre < m).
  { destruct (decide (length pre = m)) as [Heq|]; [|lia].
    rewrite Heq in Hc. congruence. }
  assert (Harr' : arr = (pre ++ [c]) ++ rest) by (by rewrite <- app_assoc).
  assert (Hlen : S (length pre) = length (pre ++ [c])).
  { rewrite length_app. simpl. lia. }
  rewrite Hlen in H.
  destruct (collide (obj s l) (obj s c)) eqn:Hcol.
  - apply bind_Ok in H as ([p s2] & Hr & H).
    apply Hrec in Hr as [He Hq]; [|by eapply aliased_same_shape, same_shape_update,
                                      raw_registerCollision|done].
    destruct (iteration_evolves s s2 m l (length pre) c p) as [He4 Hq4]; try done.
    apply IH in H as [He' Hq']; [|done|lia|].
    + split; [by eapply evolves_trans|].
      intros k lk Hk Hkm Hset. eapply Hq'; [done..|]. by eapply Hq4.
    + eapply aliased_same_shape; [done|]. apply He4.
  - apply IH in H; [done..|lia|done].
Qed.

Lemma checkLeft_evolves g fuel :
  forall s m l p s',
    aliased arr g s -> arr !! m = Some l ->
    checkLeft fuel s l m = Ok (p, s') ->
    evolves arr s s' /\ keeps_settled arr m s s' /\ p = position (obj s' l).
Proof.
  induction fuel as [|fuel IH]; intros s m l p s' Hal Hm H; simpl in H; [done|].
  pose proof Hal as (Hg & Ha & _).
  rewrite Hg, Ha in H. apply bind_Ok in H as (t & H & Heq).
  injection Heq as <- <-.
  assert (Hgoal : evolves arr s t /\ keeps_settled arr m s t); [|tauto].
  eapply (scanLeft_evolves g (checkLeft fuel) m l Hm) with (pre := []); try done;
    [|simpl; lia].
  intros s1 i c q s1' Hal1 Hi Hr.
  destruct (IH s1 i c q s1') as (? & ? & ?); done.
Qed.
End search.

(** ** The position loop *)

Lemma set_position_same e : set_position (position e) e = e.
Proof. by destruct e. Qed.

Lemma settled_slideBack e : settled (slideBack e).
Proof.
  unfold slideBack, settled.
  destruct (Z.gtb_spec (position e) 1); simpl; [|lia].
  destruct (Nat.ltb_spec (length (collisions e)) 2); simpl; lia.
Qed.

Lemma collisions_slideBack e : collisions (slideBack e) = collisions e.
Proof. unfold slideBack. by destruct (_ && _). Qed.

Lemma columns_slideBack e : columns (slideBack e) = columns e.
Proof. unfold slideBack. by destruct (_ && _). Qed.

Lemma position_slideBack e :
  position (slideBack e) = position e \/ position (slideBack e) = 0%Z.
Proof. unfold slideBack. destruct (_ && _); auto. Qed.

Section position.
Variables (arr : list nat) (g : nat).
Hypothesis arr_nodup : NoDup arr.

Lemma resolved_step s s1 m l :
  aliased arr g s -> arr !! m = Some l ->
  resolved arr s -> evolves arr s s1 -> keeps_settled arr m s s1 ->
  resolved arr
    (update (update s1 l (set_position (position (obj s1 l)))) l slideBack).
Proof.
  intros (_ & _ & Hrg) Hm [Hlk Hst Hal Hcl] [Hsh Hc Hg Hn Hp] Hq.
  set (s3 := update _ l slideBack).
  assert (Hl1 : l < length (objects s1)).
  { destruct Hsh as (_ & _ & -> & _). by eapply Hrg. }
  assert (O3 : forall l', obj s3 l' =
    if decide (l' = l) then slideBack (obj s1 l') else obj s1 l').
  { intros l'. unfold s3. rewrite obj_update_in by by rewrite length_update.
    case_decide; [|by rewrite obj_update_ne by done].
    subst. by rewrite obj_update_eq, set_position_same. }
  assert (C3 : forall l', collisions (obj s3 l') = collisions (obj s1 l')).
  { intros l'. rewrite O3. case_decide; [apply collisions_slideBack|done]. }
  assert (R3 : forall l', raw (obj s3 l') = raw (obj s l')).
  { intros l'. rewrite O3. destruct Hsh as (_ & _ & _ & Hraw).
    case_decide; by rewrite ?raw_slideBack, Hraw. }
  split.
  - intros k lk x Hk Hx. rewrite C3 in Hx.
    assert (exists lx, arr !! x = Some lx /\ x <> k /\
              collide (obj s lk) (obj s lx) = true /\
              k ∈ collisions (obj s1 lx)) as (lx & ? & ? & Hcol & ?).
    { destruct (Hn k lk x Hk Hx) as [Hx0|?]; [|done].
      destruct (Hlk k lk x Hk Hx0) as (lx & ? & ? & ? & ?).
      exists lx. split_and!; try done. by eapply elem_of_prefix; [|apply Hg]. }
    exists lx. split_and!; try done; [|by rewrite C3].
    rewrite <- Hcol. by apply collide_raw.
  - intros k lk Hk. rewrite O3. case_decide; [apply settled_slideBack|].
    eapply Hq; [done| |by eapply Hst].
    intros ->. congruence.
  - intros k lk Hk Hnil. rewrite C3 in Hnil.
    assert (H0 : position (obj s1 lk) = 0%Z).
    { assert (Hnil0 : collisions (obj s lk) = []).
      { specialize (Hg lk). rewrite Hnil in Hg. by apply prefix_nil_inv in Hg. }
      destruct (Hp k lk Hk) as [->|(j & _ & Hj)]; [by eapply Hal|].
      rewrite Hnil in Hj. by apply elem_of_nil in Hj. }
    rewrite O3. case_decide; [|done].
    destruct (position_slideBack (obj s1 lk)) as [-> | ->]; done.
  - intros k lk Hk. rewrite O3.
    case_decide; rewrite ?columns_slideBack, Hc; by eapply Hcl.
Qed.

Lemma positionPass_resolved fuel rest :
  forall pre s s',
    arr = pre ++ rest -> aliased arr g s -> resolved arr s ->
    positionPass fuel rest (length pre) s = Ok s' ->
    resolved arr s' /\ same_shape s s'.
Proof.
  induction rest as [|l rest IH]; intros pre s s' Harr Hal Hres H; simpl in H.
  { injection H as <-. auto using same_shape_refl. }
  apply bind_Ok in H as ([p s1] & Hr & H).
  assert (Hl : arr !! length pre = Some l).
  { rewrite Harr. by rewrite list_lookup_middle. }
  destruct (checkLeft_evolves arr arr_nodup g fuel s (length pre) l p s1)
    as (He & Hq & ->); [done..|].
  assert (Hsh : same_shape s
    (update (update s1 l (set_position (position (obj s1 l)))) l slideBack)).
  { eapply same_shape_trans; [apply He|].
    eapply same_shape_trans;
      [by apply (same_shape_update s1 l (set_position (position (obj s1 l))))|].
    apply same_shape_update, raw_slideBack. }
  replace (S (length pre)) with (length (pre ++ [l])) in H
    by (rewrite length_app; simpl; lia).
  apply IH in H as [Hres' Hsh'].
  - split; [done|]. by eapply same_shape_trans.
  - by rewrite <- app_assoc.
  - by eapply aliased_same_shape.
  - by eapply resolved_step.
Qed.
End position.

(** ** The column the search computes *)

Lemma colliding_ge s event cands :
  forall i0 i, i ∈ colliding s event cands i0 -> i0 ≤ i.
Proof.
  induction cands as [|c rest IH]; intros i0 i Hi; simpl in Hi.
  { by apply elem_of_nil in Hi. }
  destruct (id (obj s c) =? id (obj s event))%Z.
  { by apply elem_of_nil in Hi. }
  destruct (collide (obj s event) (obj s c)).
  - apply elem_of_cons in Hi as [->|Hi]; [lia|]. apply IH in Hi. lia.
  - apply IH in Hi. lia.
Qed.

(** The last colliding candidate is the one of highest index. *)
Lemma colliding_last s event cands :
  forall i0 p i, last (colliding s event cands i0) = Some p ->
    i ∈ colliding s event cands i0 -> i ≤ p.
Proof.
  induction cands as [|c rest IH]; intros i0 p i Hp Hi; simpl in *.
  { by apply elem_of_nil in Hi. }
  destruct (id (obj s c) =? id (obj s event))%Z.
  { by apply elem_of_nil in Hi. }
  destruct (collide (obj s event) (obj s c)); [|by eapply IH].
  destruct (colliding s event rest (S i0)) as [|j js] eqn:Hrest.
  - simpl in Hp. apply list_elem_of_singleton in Hi.
    injection Hp as <-. lia.
  - rewrite last_cons_cons in Hp. apply elem_of_cons in Hi as [->|Hi].
    + assert (S i0 ≤ p); [|lia]. apply (colliding_ge s event rest).
      rewrite Hrest. by apply last_Some_elem_of.
    + rewrite <- Hrest in Hp, Hi. by eapply IH.
Qed.

(** What the scan for the event at index [m] of [arr] meets. *)
Lemma colliding_elem_1 s arr m l :
  arr !! m = Some l ->
  forall rest pre i,
    arr = pre ++ rest -> length pre ≤ m ->
    i ∈ colliding s l rest (length pre) ->
    i < m /\ exists c, arr !! i = Some c /\ collide (obj s l) (obj s c) = true.
Proof.
  intros Hm. induction rest as [|c rest IH]; intros pre i Harr Hpre Hi; simpl in Hi.
  { by apply elem_of_nil in Hi. }
  assert (Hc : arr !! length pre = Some c).
  { rewrite Harr. by rewrite list_lookup_middle. }
  destruct (Z.eqb_spec (id (obj s c)) (id (obj s l))) as [|Hid].
  { by apply elem_of_nil in Hi. }
  assert (Hlt : length pre < m).
  { destruct (decide (length pre = m)) as [Heq|]; [|lia].
    rewrite Heq in Hc. congruence. }
  assert (Hnext : forall i, i ∈ colliding s l rest (S (length pre)) ->
            i < m /\ exists c, arr !! i = Some c /\ collide (obj s l) (obj s c) = true).
  { intros i' Hi'. apply (IH (pre ++ [c])).
    - by rewrite <- app_assoc.
    - rewrite length_app. simpl. lia.
    - rewrite length_app. simpl. by rewrite Nat.add_1_r. }
  destruct (collide (obj s l) (obj s c)) eqn:Hcol; [|by apply Hnext].
  apply elem_of_cons in Hi as [->|Hi]; [|by apply Hnext]. eauto.
Qed.

Lemma colliding_elem_2 s arr m l :
  NoDup (ids s arr) -> arr !! m = Some l ->
  forall rest pre i c,
    arr = pre ++ rest -> length pre ≤ i -> i < m ->
    arr !! i = Some c -> collide (obj s l) (obj s c) = true ->
    i ∈ colliding s l rest (length pre).
Proof.
  intros Hids Hm. induction rest as [|c' rest IH]; intros pre i c Harr Hpre Him Hi Hcol.
  { rewrite app_nil_r in Harr. subst pre. apply lookup_lt_Some in Hi. lia. }
  simpl.
  assert (Hc' : arr !! length pre = Some c').
  { rewrite Harr. by rewrite list_lookup_middle. }
  destruct (Z.eqb_spec (id (obj s c')) (id (obj s l))) as [Hid|Hid].
  { assert (length pre = m); [|lia].
    eapply (NoDup_lookup _ _ _ _ Hids); unfold ids; rewrite list_lookup_fmap.
    - by rewrite Hc'.
    - rewrite Hm. simpl. by rewrite Hid. }
  assert (Hnext : length pre < i -> i ∈ colliding s l rest (S (length pre))).
  { intros Hlt. replace (S (length pre)) with (length (pre ++ [c']))
      by (rewrite length_app; simpl; lia).
    apply (IH (pre ++ [c']) i c); [by rewrite <- app_assoc| |done..].
    rewrite length_app. simpl. lia. }
  destruct (decide (length pre = i)) as [Heq|Hne].
  - rewrite Heq in Hc'. assert (c' = c) as -> by congruence.
    rewrite Hcol, Heq. by left.
  - destruct (collide (obj s l) (obj s c')); [right|]; apply Hnext; lia.
Qed.

Lemma depths_same_shape s s' arr n :
  same_shape s s' -> depths s' arr n = depths s arr n.
Proof.
  intros Hs. induction n as [|n IH]; simpl; [done|].
  by rewrite IH, (colliding_same_shape _ _ _ _ _ Hs).
Qed.

Lemma depth_same_shape s s' arr k :
  same_shape s s' -> depth s' arr k = depth s arr k.
Proof. intros Hs. unfold depth. by rewrite (depths_same_shape _ _ _ _ Hs). Qed.

Lemma length_depths s arr n : length (depths s arr n) = n.
Proof. induction n as [|n IH]; simpl; [done|]. rewrite length_app, IH. simpl. lia. Qed.

Lemma depths_lookup s arr n p : p < n -> depths s arr n !!! p = depth s arr p.
Proof.
  induction n as [|n IH]; intros Hp; [lia|]. unfold depth.
  destruct (decide (p = n)) as [->|Hne]; [done|].
  simpl. rewrite lookup_total_app_l by (rewrite length_depths; lia).
  rewrite IH by lia. done.
Qed.

Lemma depth_unfold s arr k :
  depth s arr k =
  match last (colliding s (arr !!! k) arr 0) with
  | None => 0%Z
  | Some p => (1 + depths s arr k !!! p)%Z
  end.
Proof.
  unfold depth. simpl. rewrite lookup_total_app_r by (by rewrite length_depths).
  rewrite length_depths, Nat.sub_diag. done.
Qed.

Lemma depth_root s arr k l :
  arr !! k = Some l -> colliding s l arr 0 = [] -> depth s arr k = 0%Z.
Proof.
  intros Hk Hnil. rewrite depth_unfold, (list_lookup_total_correct _ _ _ Hk), Hnil. done.
Qed.

Lemma depth_last s arr k l p :
  arr !! k = Some l -> last (colliding s l arr 0) = Some p ->
  depth s arr k = (1 + depth s arr p)%Z /\ p < k.
Proof.
  intros Hk Hp. rewrite depth_unfold, (list_lookup_total_correct _ _ _ Hk), Hp.
  assert (p < k).
  { apply last_Some_elem_of in Hp.
    by destruct (colliding_elem_1 s arr k l Hk arr [] p eq_refl (Nat.le_0_l _) Hp). }
  by rewrite depths_lookup.
Qed.

Lemma depth_nonneg s arr k : (0 ≤ depth s arr k)%Z.
Proof.
  induction k as [k IH] using lt_wf_ind. rewrite depth_unfold.
  destruct (last _) as [p|] eqn:Hp; [|done].
  destruct (decide (p < k)) as [Hlt|Hge].
  - rewrite depths_lookup by done. specialize (IH p Hlt). lia.
  - rewrite list_lookup_total_alt, lookup_ge_None_2 by (rewrite length_depths; lia).
    simpl. done.
Qed.

(** ** The search returns the computed column *)

Section graded.
Variables (arr : list nat) (g : nat).
Hypothesis arr_nodup : NoDup arr.

Lemma moved_refl s : moved arr s s.
Proof. intros k l Hk. by left. Qed.

Lemma roots_zero_same s s' m :
  same_shape s s' ->
  (forall k l, k < m -> arr !! k = Some l ->
     position (obj s' l) = position (obj s l) \/
     position (obj s' l) = depth s arr k) ->
  roots_zero arr m s -> roots_zero arr m s'.
Proof.
  intros Hs Hpos Hroots k l Hk Hl Hnil.
  rewrite (colliding_same_shape _ _ _ _ _ Hs) in Hnil.
  destruct (Hpos k l Hk Hl) as [->| ->]; [by eapply Hroots|by eapply depth_root].
Qed.

Lemma roots_zero_le s m m' : m' ≤ m -> roots_zero arr m s -> roots_zero arr m' s.
Proof. intros Hle Hroots k l Hk. apply Hroots. lia. Qed.

Lemma scanLeft_depth rec m l :
  arr !! m = Some l ->
  (forall s i c p s',
     aliased arr g s -> roots_zero arr (S i) s -> arr !! i = Some c -> i < m ->
     rec s c i = Ok (p, s') ->
     same_shape s s' /\ moved arr s s' /\
     position (obj s' c) = depth s arr i /\ p = depth s arr i) ->
  forall rest pre s s',
    arr = pre ++ rest -> length pre ≤ m ->
    aliased arr g s -> roots_zero arr m s ->
    scanLeft rec l m rest (length pre) s = Ok s' ->
    same_shape s s' /\
    (forall k lk, arr !! k = Some lk -> k <> m ->
       (position (obj s' lk) = position (obj s lk) /\
        collisions (obj s' lk) = collisions (obj s lk)) \/
       position (obj s' lk) = depth s arr k) /\
    position (obj s' l) =
      match last (colliding s l rest (length pre)) with
      | None => position (obj s l)
      | Some p => (1 + depth s arr p)%Z
      end /\
    (colliding s l rest (length pre) = [] -> s' = s).
Proof.
  intros Hm Hrec.
  induction rest as [|c rest IH]; intros pre s s' Harr Hpre Hal Hroots H;
    simpl in H; simpl.
  { injection H as <-. split_and!; auto using same_shape_refl. }
  assert (Hc : arr !! length pre = Some c).
  { rewrite Harr. by rewrite list_lookup_middle. }
  destruct (Z.eqb_spec (id (obj s c)) (id (obj s l))) as [|Hid].
  { injection H as <-. split_and!; auto using same_shape_refl. }
  assert (Hlt : length pre < m).
  { destruct (decide (length pre = m)) as [Heq|]; [|lia].
    rewrite Heq in Hc. congruence. }
  assert (Harr' : arr = (pre ++ [c]) ++ rest) by (by rewrite <- app_assoc).
  assert (Hlen : S (length pre) = length (pre ++ [c])).
  { rewrite length_app. simpl. lia. }
  rewrite Hlen in H |- *.
  destruct (collide (obj s l) (obj s c)) eqn:Hcol;
    [|apply IH in H; [done..|lia|done|done]].
  apply bind_Ok in H as ([q s2] & Hr & H).
  set (i := length pre) in *.
  set (s1 := update s l (registerCollision i)) in *.
  set (s3 := update s2 l (set_position (q + 1))) in *.
  set (s4 := update s3 c (registerCollision m)) in *.
  pose proof Hal as (_ & _ & Hrg).
  assert (Hlc : l <> c).
  { intros ->. pose proof (NoDup_lookup _ _ _ _ arr_nodup Hm Hc). lia. }
  assert (Hs01 : same_shape s s1) by apply same_shape_update, raw_registerCollision.
  assert (Hl : l < length (objects s)) by by eapply Hrg.
  assert (O1 : forall l', obj s1 l' =
    if decide (l' = l) then registerCollision i (obj s l') else obj s l').
  { intros l'. unfold s1. by rewrite obj_update_in. }
  assert (Hroots1 : roots_zero arr (S i) s1).
  { apply (roots_zero_same s); [done| |by eapply roots_zero_le].
    intros k lk _ _. left. rewrite O1.
    case_decide; [apply position_registerCollision|done]. }
  destruct (Hrec s1 i c q s2) as (Hs12 & Hmv & Hposc & ->);
    [by eapply aliased_same_shape|done..|].
  rewrite (depth_same_shape _ _ _ _ Hs01) in Hposc.
  assert (Hs02 : same_shape s s2) by by eapply same_shape_trans.
  assert (Hs24 : same_shape s2 s4).
  { eapply same_shape_trans;
      [by apply (same_shape_update s2 l (set_position (depth s1 arr i + 1)))|].
    apply same_shape_update, raw_registerCollision. }
  assert (Hs04 : same_shape s s4) by by eapply same_shape_trans.
  assert (Hl2 : l < length (objects s2)).
  { destruct Hs02 as (_ & _ & -> & _). done. }
  assert (Hc3 : c < length (objects s3)).
  { unfold s3. rewrite length_update. destruct Hs02 as (_ & _ & -> & _).
    by eapply Hrg. }
  assert (O4 : forall l', obj s4 l' =
    if decide (l' = c) then registerCollision m (obj s2 l')
    else if decide (l' = l) then set_position (depth s1 arr i + 1) (obj s2 l')
    else obj s2 l').
  { intros l'. unfold s4. rewrite obj_update_in by done.
    case_decide; subst.
    - unfold s3. rewrite obj_update_in by done. by case_decide.
    - unfold s3. by rewrite obj_update_in. }
  assert (Hstep : forall k lk, arr !! k = Some lk -> k <> m ->
    (position (obj s4 lk) = position (obj s lk) /\
     collisions (obj s4 lk) = collisions (obj s lk)) \/
    position (obj s4 lk) = depth s arr k).
  { intros k lk Hk Hkm.
    assert (Hne : lk <> l).
    { intros ->. by pose proof (NoDup_lookup _ _ _ _ arr_nodup Hk Hm). }
    rewrite O4. destruct (decide (lk = c)) as [->|Hnc].
    - right. pose proof (NoDup_lookup _ _ _ _ arr_nodup Hk Hc) as ->.
      by rewrite position_registerCollision.
    - rewrite decide_False by done.
      destruct (Hmv k lk Hk) as [[Hp Hcs]| ->].
      + left. rewrite Hp, Hcs, O1. by rewrite decide_False.
      + right. apply (depth_same_shape _ _ _ _ Hs01). }
  assert (Hroots4 : roots_zero arr m s4).
  { apply (roots_zero_same s); [done| |done].
    intros k lk Hk Hlk. destruct (Hstep k lk Hlk) as [[-> _]| ->]; [lia|auto..]. }
  apply IH in H as (Hs4' & Hothers & Hpos & _);
    [|done|lia|by eapply aliased_same_shape|done].
  rewrite (colliding_same_shape _ _ _ _ _ Hs04) in Hpos.
  split_and!.
  - by eapply same_shape_trans.
  - intros k lk Hk Hkm. destruct (Hothers k lk Hk Hkm) as [[Hp Hcs]|Hd].
    + rewrite Hp, Hcs. by apply Hstep.
    + right. by rewrite Hd, (depth_same_shape _ _ _ _ Hs04).
  - rewrite Hpos. rewrite <- Hlen. fold i.
    destruct (colliding s l rest (S i)) as [|j js] eqn:Hrest.
    + simpl. rewrite O4, decide_False, decide_True by done. simpl.
      rewrite (depth_same_shape _ _ _ _ Hs01). lia.
    + rewrite last_cons_cons.
      destruct (last (j :: js)) eqn:Hlast; [|by apply last_None in Hlast].
      by rewrite (depth_same_shape _ _ _ _ Hs04).
  - done.
Qed.

Lemma checkLeft_depth fuel :
  forall s m l p s',
    aliased arr g s -> roots_zero arr (S m) s -> arr !! m = Some l ->
    checkLeft fuel s l m = Ok (p, s') ->
    same_shape s s' /\ moved arr s s' /\
    position (obj s' l) = depth s arr m /\ p = depth s arr m.
Proof.
  induction fuel as [|fuel IH]; intros s m l p s' Hal Hroots Hm H; simpl in H; [done|].
  pose proof Hal as (Hg & Ha & _).
  rewrite Hg, Ha in H. apply bind_Ok in H as (t & H & Heq).
  injection Heq as <- <-.
  destruct (scanLeft_depth (checkLeft fuel) m l Hm) with (rest := arr)
    (pre := @nil nat) (s := s) (s' := t) as (Hs & Hothers & Hpos & Hnil);
    try done; [|simpl; lia|apply (roots_zero_le s (S m)); [lia|done]|].
  { intros s1 i c q s1' Hal1 Hroots1 Hi _ Hr. by eapply IH. }
  simpl in Hpos, Hnil.
  assert (Hd : position (obj t l) = depth s arr m).
  { rewrite Hpos. destruct (last (colliding s l arr 0)) as [p0|] eqn:Hlast.
    - by destruct (depth_last s arr m l p0 Hm Hlast) as [-> _].
    - apply last_None in Hlast. rewrite (depth_root s arr m l Hm Hlast).
      apply (Hroots m l); [lia|done..]. }
  split_and!; try done.
  intros k lk Hk. destruct (decide (k = m)) as [->|Hne]; [|by apply Hothers].
  right. congruence.
Qed.
End graded.

(** ** The position loop: computed columns and registered collisions *)

Lemma turn_obj s1 l l' :
  l < length (objects s1) ->
  obj (update (update s1 l (set_position (position (obj s1 l)))) l slideBack) l' =
  if decide (l' = l) then slideBack (obj s1 l') else obj s1 l'.
Proof.
  intros Hl. rewrite obj_update_in by by rewrite length_update.
  case_decide; [|by rewrite obj_update_ne by done].
  subst. by rewrite obj_update_eq, set_position_same.
Qed.

Lemma turn_same_shape s1 l :
  same_shape s1
    (update (update s1 l (set_position (position (obj s1 l)))) l slideBack).
Proof.
  eapply same_shape_trans;
    [by apply (same_shape_update s1 l (set_position (position (obj s1 l))))|].
  apply same_shape_update, raw_slideBack.
Qed.

Section complete.
Variables (arr : list nat) (g : nat).
Hypothesis arr_nodup : NoDup arr.

Lemma graded_roots_zero s m : graded arr s -> roots_zero arr m s.
Proof.
  intros Hgr k l _ Hk Hnil.
  destruct (Hgr k l Hk) as [->|[-> _]]; [by eapply depth_root|done].
Qed.

Lemma positionPass_graded fuel rest :
  forall pre s s',
    arr = pre ++ rest -> aliased arr g s -> graded arr s ->
    positionPass fuel rest (length pre) s = Ok s' ->
    graded arr s'.
Proof.
  induction rest as [|l rest IH]; intros pre s s' Harr Hal Hgr H; simpl in H.
  { by injection H as <-. }
  apply bind_Ok in H as ([p s1] & Hr & H).
  assert (Hl : arr !! length pre = Some l).
  { rewrite Harr. by rewrite list_lookup_middle. }
  destruct (checkLeft_depth arr g arr_nodup fuel s (length pre) l p s1)
    as (Hs1 & Hmv & Hpos & ->); [done|by apply graded_roots_zero|done..|].
  rewrite <- Hpos in H.
  set (s3 := update (update s1 l (set_position (position (obj s1 l)))) l slideBack) in *.
  assert (Hl1 : l < length (objects s1)).
  { destruct Hs1 as (_ & _ & -> & _). destruct Hal as (_ & _ & Hrg). by eapply Hrg. }
  assert (Hs3 : same_shape s s3).
  { eapply same_shape_trans; [exact Hs1|apply turn_same_shape]. }
  replace (S (length pre)) with (length (pre ++ [l])) in H
    by (rewrite length_app; simpl; lia).
  apply IH in H; [done|by rewrite <- app_assoc|by eapply aliased_same_shape|].
  intros k lk Hk. rewrite (depth_same_shape _ _ _ _ Hs3).
  unfold s3. rewrite turn_obj by done. case_decide as Heq.
  - subst lk. pose proof (NoDup_lookup _ _ _ _ arr_nodup Hk Hl) as ->.
    unfold slideBack.
    destruct (Z.gtb_spec (position (obj s1 l)) 1); simpl; [|by left].
    destruct (Nat.ltb_spec (length (collisions (obj s1 l))) 2); simpl;
      [by right|by left].
  - destruct (Hmv k lk Hk) as [[-> ->]| ->]; [apply Hgr|]; auto.
Qed.

(** The scan registers every colliding candidate on the event. *)
Lemma scanLeft_registers fuel m l :
  arr !! m = Some l ->
  forall rest pre s s',
    arr = pre ++ rest -> length pre ≤ m -> aliased arr g s ->
    scanLeft (checkLeft fuel) l m rest (length pre) s = Ok s' ->
    forall i, i ∈ colliding s l rest (length pre) -> i ∈ collisions (obj s' l).
Proof.
  intros Hm.
  assert (Hrec : forall s i c p s', aliased arr g s -> arr !! i = Some c ->
            checkLeft fuel s c i = Ok (p, s') ->
            evolves arr s s' /\ keeps_settled arr i s s').
  { intros s i c p s' Hal Hi Hr.
    by destruct (checkLeft_evolves arr arr_nodup g fuel s i c p s') as (? & ? & _). }
  induction rest as [|c rest IH]; intros pre s s' Harr Hpre Hal H i Hi; simpl in *.
  { by apply elem_of_nil in Hi. }
  assert (Hc : arr !! length pre = Some c).
  { rewrite Harr. by rewrite list_lookup_middle. }
  destruct (Z.eqb_spec (id (obj s c)) (id (obj s l))) as [|Hid].
  { by apply elem_of_nil in Hi. }
  assert (Hlt : length pre < m).
  { destruct (decide (length pre = m)) as [Heq|]; [|lia].
    rewrite Heq in Hc. congruence. }
  assert (Harr' : arr = (pre ++ [c]) ++ rest) by (by rewrite <- app_assoc).
  assert (Hlen : S (length pre) = length (pre ++ [c])).
  { rewrite length_app. simpl. lia. }
  rewrite Hlen in H, Hi.
  destruct (collide (obj s l) (obj s c)) eqn:Hcol; [|by eapply IH; [| |done..]; [done|lia]].
  apply bind_Ok in H as ([q s2] & Hr & H).
  pose proof Hal as (_ & _ & Hrg).
  set (s1 := update s l (registerCollision (length pre))) in *.
  set (s4 := update (update s2 l (set_position (q + 1))) c (registerCollision m)) in *.
  assert (Hs01 : same_shape s s1) by apply same_shape_update, raw_registerCollision.
  assert (Hal1 : aliased arr g s1) by exact (aliased_same_shape arr g s s1 Hal Hs01).
  destruct (Hrec s1 (length pre) c q s2 Hal1 Hc Hr) as [He12 Hq12].
  destruct (iteration_evolves arr arr_nodup s s2 m l (length pre) c q) as [He4 _];
    try done.
  fold s4 in He4.
  assert (Hal4 : aliased arr g s4)
    by exact (aliased_same_shape arr g s s4 Hal (ev_shape _ _ _ He4)).
  apply elem_of_cons in Hi as [->|Hi].
  - destruct (scanLeft_evolves arr arr_nodup g (checkLeft fuel) m l Hm Hrec
                rest (pre ++ [c]) s4 s') as [He' _]; [done|lia|done..|].
    eapply elem_of_prefix; [|apply (ev_grow _ _ _ He')].
    assert (Hl : l < length (objects s)) by by eapply Hrg.
    assert (Hl2 : l < length (objects s2)).
    { destruct (ev_shape _ _ _ He12) as (_ & _ & -> & _).
      unfold s1. by rewrite length_update. }
    assert (Hlc : c <> l).
    { intros ->. pose proof (NoDup_lookup _ _ _ _ arr_nodup Hm Hc). lia. }
    unfold s4. rewrite obj_update_ne by done. rewrite obj_update_eq by done. simpl.
    eapply elem_of_prefix; [|apply (ev_grow _ _ _ He12)].
    unfold s1. rewrite obj_update_eq by done.
    apply collisions_registerCollision. by right.
  - eapply (IH (pre ++ [c]) s4 s'); [done|lia|done..|].
    by rewrite (colliding_same_shape _ _ _ _ _ (ev_shape _ _ _ He4)).
Qed.

Lemma checkLeft_registers fuel s m l p s' :
  aliased arr g s -> arr !! m = Some l ->
  checkLeft fuel s l m = Ok (p, s') ->
  forall i, i ∈ colliding s l arr 0 -> i ∈ collisions (obj s' l).
Proof.
  intros Hal Hm H. destruct fuel as [|fuel]; simpl in H; [done|].
  pose proof Hal as (Hg & Ha & _).
  rewrite Hg, Ha in H. apply bind_Ok in H as (t & H & Heq).
  injection Heq as <- <-.
  apply (scanLeft_registers fuel m l Hm arr [] s t); try done. simpl. lia.
Qed.

Lemma positionPass_complete fuel rest :
  forall pre s s',
    arr = pre ++ rest -> aliased arr g s -> NoDup (ids s arr) ->
    complete arr (length pre) s ->
    positionPass fuel rest (length pre) s = Ok s' ->
    complete arr (length arr) s'.
Proof.
  induction rest as [|l rest IH]; intros pre s s' Harr Hal Hids Hco H; simpl in H.
  { injection H as <-. rewrite app_nil_r in Harr. by subst pre. }
  apply bind_Ok in H as ([p s1] & Hr & H).
  assert (Hl : arr !! length pre = Some l).
  { rewrite Harr. by rewrite list_lookup_middle. }
  destruct (checkLeft_evolves arr arr_nodup g fuel s (length pre) l p s1)
    as (He & _ & ->); [done..|].
  pose proof (checkLeft_registers fuel s (length pre) l _ s1 Hal Hl Hr) as Hreg.
  set (s3 := update (update s1 l (set_position (position (obj s1 l)))) l slideBack) in *.
  assert (Hl1 : l < length (objects s1)).
  { destruct (ev_shape _ _ _ He) as (_ & _ & -> & _).
    destruct Hal as (_ & _ & Hrg). by eapply Hrg. }
  assert (Hs3 : same_shape s s3).
  { eapply same_shape_trans; [apply He|apply turn_same_shape]. }
  assert (C3 : forall l', collisions (obj s3 l') = collisions (obj s1 l')).
  { intros l'. unfold s3. rewrite turn_obj by done.
    case_decide; [apply collisions_slideBack|done]. }
  replace (S (length pre)) with (length (pre ++ [l])) in H
    by (rewrite length_app; simpl; lia).
  apply IH in H; [done|by rewrite <- app_assoc|by eapply aliased_same_shape| |].
  { by rewrite (same_shape_ids _ _ _ Hs3). }
  intros a b la lb Hab Hb Hla Hlb Hcol.
  rewrite length_app in Hb. simpl in Hb.
  rewrite (same_shape_collide _ _ _ _ Hs3) in Hcol. rewrite C3.
  destruct (decide (b = length pre)) as [->|Hne].
  - assert (lb = l) as -> by congruence.
    apply Hreg. by apply (colliding_elem_2 s arr (length pre) l Hids Hl arr [] a la);
      [|simpl; lia|..].
  - eapply elem_of_prefix; [|apply (ev_grow _ _ _ He)].
    eapply Hco; [exact Hab|lia|done..].
Qed.
End complete.

(** ** The geometry loop *)

Lemma painted_refl s : painted s s.
Proof. split; auto using same_shape_refl. Qed.

Lemma painted_trans s1 s2 s3 : painted s1 s2 -> painted s2 s3 -> painted s1 s3.
Proof.
  intros [Hs1 Hp1 Hc1] [Hs2 Hp2 Hc2]. split.
  - by eapply same_shape_trans.
  - intros l. by rewrite Hp2.
  - intros l. by rewrite Hc2.
Qed.

Lemma painted_update s l f :
  (forall e, raw (f e) = raw e /\ position (f e) = position e /\
             collisions (f e) = collisions e) ->
  painted s (update s l f).
Proof.
  intros Hf. split.
  - apply same_shape_update. intros e. apply Hf.
  - intros l'. rewrite obj_update. case_decide as H; [|done].
    destruct H as [-> _]. apply Hf.
  - intros l'. rewrite obj_update. case_decide as H; [|done].
    destruct H as [-> _]. apply Hf.
Qed.

Lemma columns_update s l f l' :
  (forall e, columns (f e) = columns e) ->
  columns (obj (update s l f) l') = columns (obj s l').
Proof.
  intros Hf. rewrite obj_update. case_decide as H; [|done].
  destruct H as [-> _]. apply Hf.
Qed.

Lemma painted_length s s' : painted s s' -> length (objects s') = length (objects s).
Proof. intros [(_ & _ & H & _) _ _]. done. Qed.

Lemma linked_painted arr s s' : linked arr s -> painted s s' -> linked arr s'.
Proof.
  intros Hlk [Hs Hp Hc] k l x Hk Hx. rewrite Hc in Hx.
  destruct (Hlk k l x Hk Hx) as (lx & ? & ? & ? & ?).
  exists lx. rewrite Hc, (same_shape_collide _ _ _ _ Hs). done.
Qed.

Lemma quiet_painted arr s s' e k : quiet arr s e k -> painted s s' -> quiet arr s' e k.
Proof.
  intros [H1 H2] [_ _ Hc]. split.
  - intros d ld Hd Hld. rewrite Hc. by eapply H1.
  - intros lk Hk Hlk. rewrite Hc. by eapply H2.
Qed.

Lemma quiet_S arr s e k : quiet arr s e k -> quiet arr s (S e) k.
Proof.
  intros [H1 H2]. split.
  - intros d ld Hd. apply H1. lia.
  - intros lk Hk. apply H2. lia.
Qed.

Lemma geometryPass_app evs pre rest s :
  geometryPass evs (pre ++ rest) s = geometryPass evs pre s ≫= geometryPass evs rest.
Proof.
  revert s. induction pre as [|l pre IH]; intros s; simpl; [done|].
  destruct (columnsLoop evs l _ s); simpl; [apply IH|done..].
Qed.

Section geometry.
Variable arr : list nat.
Hypothesis arr_nodup : NoDup arr.

(** The inner loop for [event]: it writes the [columns] of [event] and
    of the events whose indices are in [cs], and the last of these ends
    with the [columns] of [event]. *)
Lemma columnsLoop_spec event cs :
  forall s,
    ranged arr s -> event < length (objects s) ->
    (forall c, c ∈ cs -> is_Some (arr !! c)) ->
    exists s', columnsLoop arr event cs s = Ok s' /\ painted s s' /\
      (forall l, l <> event -> (forall c, c ∈ cs -> arr !! c <> Some l) ->
         columns (obj s' l) = columns (obj s l)) /\
      (cs = [] -> s' = s) /\
      (forall c lc, last cs = Some c -> arr !! c = Some lc -> lc <> event ->
         columns (obj s' lc) = columns (obj s' event)).
Proof.
  induction cs as [|c cs IH]; intros s Hrg Hev Hcs; simpl.
  { exists s. split_and!; auto using painted_refl. done. }
  destruct (Hcs c) as [other Hother]; [by left|]. rewrite Hother.
  set (s1 := update s event _).
  set (s2 := update s1 other _).
  assert (Hp1 : painted s s1) by by apply painted_update.
  assert (Hp2 : painted s1 s2) by by apply painted_update.
  assert (Hp : painted s s2) by by eapply painted_trans.
  assert (Hoth : other < length (objects s1)).
  { rewrite (painted_length _ _ Hp1). by eapply Hrg. }
  destruct (IH s2) as (s' & H & Hp' & Hun & Hnil & Hlast).
  { eapply ranged_same_shape; [done|]. apply Hp. }
  { by rewrite (painted_length _ _ Hp). }
  { intros c' Hc'. apply Hcs. by right. }
  exists s'. split_and!; [done|by eapply painted_trans| |done|].
  - intros l Hl Hno. rewrite Hun; [|done|].
    + unfold s2. rewrite obj_update_ne.
      * unfold s1. by rewrite obj_update_ne.
      * intros ->. by eapply (Hno c); [left|].
    + intros c' Hc'. apply Hno. by right.
  - intros c' lc Hc' Hlc Hne. destruct cs as [|c2 cs].
    + simpl in Hc'. injection Hc' as <-.
      assert (lc = other) as -> by congruence.
      rewrite (Hnil eq_refl). unfold s2.
      rewrite obj_update_eq by done. by rewrite obj_update_ne.
    + apply (Hlast c'); [|done..]. by rewrite last_cons_cons in Hc'.
Qed.

Lemma geometryPass_spec post rest :
  forall pre s,
    arr = pre ++ rest ++ post -> ranged arr s -> linked arr s ->
    exists s', geometryPass arr rest s = Ok s' /\ painted s s' /\
      forall k lk, arr !! k = Some lk -> quiet arr s (length pre) k ->
        columns (obj s' lk) = columns (obj s lk).
Proof.
  induction rest as [|event rest IH]; intros pre s Harr Hrg Hlk; simpl.
  { exists s. auto using painted_refl. }
  simpl in Harr.
  assert (Hev : arr !! length pre = Some event).
  { rewrite Harr. by rewrite list_lookup_middle. }
  destruct (columnsLoop_spec event (reverse (collisions (obj s event))) s)
    as (s1 & H1 & Hp1 & Hun & Hnil & _); [done|by eapply Hrg| |].
  { intros c Hc. rewrite elem_of_reverse in Hc.
    destruct (Hlk _ _ _ Hev Hc) as (lx & -> & _). eauto. }
  rewrite H1. simpl.
  set (s2 := update s1 event _).
  set (s3 := update s2 event _).
  assert (Hp2 : painted s1 s2) by by apply painted_update.
  assert (Hp3 : painted s2 s3) by by apply painted_update.
  assert (Hp : painted s s3) by eauto using painted_trans.
  assert (Hcols : forall l, columns (obj s3 l) = columns (obj s1 l)).
  { intros l. unfold s3, s2. by rewrite !columns_update. }
  destruct (IH (pre ++ [event]) s3) as (s' & H & Hp' & Hq).
  { by rewrite <- app_assoc. }
  { eapply ranged_same_shape; [done|]. apply Hp. }
  { by eapply linked_painted. }
  exists s'. split_and!; [done|by eapply painted_trans|].
  intros k lk Hk Hquiet.
  rewrite (Hq k lk); [|done|].
  - rewrite Hcols. destruct (decide (lk = event)) as [->|Hne].
    + pose proof (NoDup_lookup _ _ _ _ arr_nodup Hk Hev) as ->.
      destruct Hquiet as [_ Hq2]. rewrite Hnil; [done|].
      by rewrite (Hq2 event) by done.
    + apply Hun; [done|]. intros c Hc Hlc. rewrite elem_of_reverse in Hc.
      pose proof (NoDup_lookup _ _ _ _ arr_nodup Hk Hlc) as ->.
      destruct Hquiet as [Hq1 _]. by eapply (Hq1 (length pre)).
  - rewrite length_app. simpl. rewrite Nat.add_1_r.
    by apply quiet_S, quiet_painted with s.
Qed.
End geometry.

(** ** Array.prototype.sort with a comparator that compares keys *)

Lemma filter_fmap {A B} (f : A -> B) (P : B -> Prop) `{!forall y, Decision (P y)}
    (l : list A) :
  filter P (f <$> l) = f <$> filter (fun x => P (f x)) l.
Proof.
  induction l as [|x l IH]; [done|]. csimpl.
  rewrite !filter_cons. case_decide; csimpl; by rewrite IH.
Qed.

Section sorting.
Context {A : Type} (cmp : A -> A -> Z) (key : A -> Z).
Hypothesis cmp_key : forall x y, (cmp x y <=? 0)%Z = (key y <=? key x)%Z.

Lemma sort_insert_perm x l : sort_insert cmp x l ≡ₚ x :: l.
Proof.
  induction l as [|y l IH]; simpl; [done|].
  destruct (cmp x y <=? 0)%Z; [done|]. rewrite IH. apply Permutation_swap.
Qed.

Lemma array_sort_perm l : array_sort cmp l ≡ₚ l.
Proof.
  induction l as [|x l IH]; simpl; [done|].
  unfold array_sort in *. simpl. by rewrite sort_insert_perm, IH.
Qed.

Lemma sort_insert_sorted x l :
  StronglySorted (fun a b => (key b ≤ key a)%Z) l ->
  StronglySorted (fun a b => (key b ≤ key a)%Z) (sort_insert cmp x l).
Proof.
  induction 1 as [|y l Hl IH Hy]; simpl.
  { repeat constructor. }
  rewrite cmp_key. destruct (Z.leb_spec (key y) (key x)).
  - constructor; [by constructor|]. constructor; [done|].
    eapply Forall_impl; [exact Hy|]. simpl. intros. lia.
  - constructor; [done|]. rewrite sort_insert_perm. constructor; [lia|done].
Qed.

Lemma array_sort_sorted l :
  StronglySorted (fun a b => (key b ≤ key a)%Z) (array_sort cmp l).
Proof.
  induction l as [|x l IH]; [constructor|]. by apply sort_insert_sorted.
Qed.

(** Stability: the elements of a given key keep their order. *)
Lemma sort_insert_stable d x l :
  filter (fun a => key a = d) (sort_insert cmp x l) =
  filter (fun a => key a = d) (x :: l).
Proof.
  induction l as [|y l IH]; simpl; [done|].
  rewrite cmp_key. destruct (Z.leb_spec (key y) (key x)); [done|].
  rewrite filter_cons, IH, !filter_cons.
  repeat case_decide; try done; lia.
Qed.

Lemma array_sort_stable d l :
  filter (fun a => key a = d) (array_sort cmp l) = filter (fun a => key a = d) l.
Proof.
  induction l as [|x l IH]; [done|].
  unfold array_sort in *. simpl. rewrite sort_insert_stable, !filter_cons.
  by rewrite IH.
Qed.
End sorting.

Lemma sort_insert_ext {A} (cmp cmp' : A -> A -> Z) x l :
  (forall a b, cmp a b = cmp' a b) -> sort_insert cmp x l = sort_insert cmp' x l.
Proof. intros H. induction l as [|y l IH]; simpl; [done|]. by rewrite H, IH. Qed.

Lemma array_sort_ext {A} (cmp cmp' : A -> A -> Z) l :
  (forall a b, cmp a b = cmp' a b) -> array_sort cmp l = array_sort cmp' l.
Proof.
  intros H. induction l as [|x l IH]; [done|].
  unfold array_sort in *. simpl. rewrite IH. by apply sort_insert_ext.
Qed.

Lemma sortByDuration_key e1 e2 :
  (sortByDuration e1 e2 <=? 0)%Z = (span (raw e2) <=? span (raw e1))%Z.
Proof.
  unfold sortByDuration, span, raw. simpl.
  destruct (Z.ltb_spec (end_ e2 - start e2) (end_ e1 - start e1)).
  { symmetry. apply Z.leb_le. lia. }
  rewrite Z.gtb_ltb.
  destruct (Z.ltb_spec (end_ e1 - start e1) (end_ e2 - start e2)).
  - symmetry. apply Z.leb_gt. lia.
  - symmetry. apply Z.leb_le. lia.
Qed.

Lemma sortByDuration_raw e1 e2 e1' e2' :
  raw e1 = raw e1' -> raw e2 = raw e2' -> sortByDuration e1 e2 = sortByDuration e1' e2'.
Proof. unfold raw, sortByDuration. intros [= _ -> ->] [= _ -> ->]. done. Qed.

(** ** The initialization loop *)

Lemma initPass_same_shape evs : forall s, same_shape s (initPass s evs).
Proof.
  induction evs as [|l evs IH]; intros s; simpl; [apply same_shape_refl|].
  eapply same_shape_trans; [|apply IH]. by apply same_shape_update.
Qed.

Lemma initPass_keeps_fresh evs :
  forall s l, fresh (obj s l) -> fresh (obj (initPass s evs) l).
Proof.
  induction evs as [|x evs IH]; intros s l H; simpl; [done|].
  apply IH. rewrite obj_update. by case_decide.
Qed.

Lemma initPass_fresh evs :
  forall s l, l ∈ evs -> l < length (objects s) -> fresh (obj (initPass s evs) l).
Proof.
  induction evs as [|x evs IH]; intros s l Hl Hlen; simpl.
  { by apply elem_of_nil in Hl. }
  apply elem_of_cons in Hl as [->|Hl].
  - apply initPass_keeps_fresh. by rewrite obj_update_eq.
  - apply IH; [done|]. by rewrite length_update.
Qed.

(** ** The three loops together *)

Lemma fresh_resolved arr s :
  (forall k l, arr !! k = Some l -> fresh (obj s l)) -> resolved arr s.
Proof.
  intros Hf. split.
  - intros k l x Hk Hx. destruct (Hf k l Hk) as (_ & Hc & _).
    rewrite Hc in Hx. by apply elem_of_nil in Hx.
  - intros k l Hk. destruct (Hf k l Hk) as (Hp & _). left. lia.
  - intros k l Hk _. by destruct (Hf k l Hk).
  - intros k l Hk. by destruct (Hf k l Hk) as (_ & _ & ?).
Qed.

Lemma layOutDay_loops fuel s events evs :
  input_ok s events evs -> length evs ≤ fuel ->
  exists arr s3 s',
    layOutDay fuel s events = Ok s' /\
    arr = array_sort (fun l1 l2 => sortByDuration (obj s l1) (obj s l2)) evs /\
    arrays s' !! events = Some arr /\
    NoDup arr /\ ranged arr s3 /\
    (forall l, raw (obj s' l) = raw (obj s l)) /\
    resolved arr s3 /\ painted s3 s' /\
    geometryPass arr arr s3 = Ok s' /\
    (forall k lk, arr !! k = Some lk -> quiet arr s3 0 k ->
       columns (obj s' lk) = columns (obj s3 lk)) /\
    graded arr s3 /\ complete arr (length arr) s3 /\ NoDup (ids s3 arr).
Proof.
  intros [Hg Ha Hrg Hids Htimes] Hfuel.
  unfold layOutDay. rewrite Ha.
  set (s1 := initPass s evs).
  set (s2 := sortPass s1 events).
  pose proof (initPass_same_shape evs s) as Hs1. fold s1 in Hs1.
  pose proof Hs1 as (Ha1 & Hg1 & Hlen1 & Hraw1).
  assert (Hevs : arrays s1 !!! events = evs).
  { apply list_lookup_total_correct. by rewrite Ha1. }
  set (arr := array_sort (fun l1 l2 => sortByDuration (obj s l1) (obj s l2)) evs).
  assert (Harr2 : arrays s2 !! events = Some arr).
  { unfold s2, sortPass. simpl. rewrite Hevs.
    rewrite list_lookup_insert_eq by (rewrite Ha1; by eapply lookup_lt_Some).
    f_equal. apply array_sort_ext. intros a b. by apply sortByDuration_raw. }
  rewrite (list_lookup_total_correct _ _ _ Harr2).
  assert (Hperm : arr ≡ₚ evs) by apply array_sort_perm.
  assert (Hnd : NoDup arr).
  { rewrite Hperm. by eapply NoDup_fmap_1. }
  assert (Hobj2 : forall l, obj s2 l = obj s1 l) by done.
  assert (Hrg2 : ranged arr s2).
  { intros k l Hk. change (length (objects s2)) with (length (objects s1)).
    rewrite Hlen1. apply Hrg. rewrite <- Hperm. by eapply list_elem_of_lookup_2. }
  assert (Hal2 : aliased arr events s2).
  { split_and!; [|done..]. change (global_events s2) with (global_events s1).
    by rewrite Hg1. }
  assert (Hres2 : resolved arr s2).
  { apply fresh_resolved. intros k l Hk. rewrite Hobj2.
    assert (l ∈ evs) by (rewrite <- Hperm; by eapply list_elem_of_lookup_2).
    apply initPass_fresh; auto. }
  assert (Hids2 : NoDup (ids s2 arr)).
  { assert (ids s2 arr = ids s arr) as ->.
    { unfold ids. apply list_fmap_ext. intros _ l _. rewrite Hobj2.
      specialize (Hraw1 l). unfold raw in Hraw1. congruence. }
    unfold ids. by rewrite Hperm. }
  destruct (positionPass_returns events arr (ids s2 arr) fuel arr 0 s2)
    as (s3 & H3 & Hs23).
  { destruct Hal2 as (? & ? & _). done. }
  { intros k l Hk. rewrite (first_index_unique _ _ k); [done..|].
    unfold ids. by rewrite list_lookup_fmap, Hk. }
  { by rewrite Hperm. }
  rewrite H3. simpl.
  destruct (positionPass_resolved arr events Hnd fuel arr [] s2 s3)
    as [Hres3 _]; [done..|].
  assert (Hrg3 : ranged arr s3) by by eapply ranged_same_shape.
  destruct (geometryPass_spec arr Hnd [] arr [] s3) as (s' & H' & Hp & Hq);
    [by rewrite app_nil_r|done|apply Hres3|].
  assert (Hgr2 : graded arr s2).
  { intros k l Hk. right. rewrite Hobj2.
    assert (Hin : l ∈ evs) by (rewrite <- Hperm; by eapply list_elem_of_lookup_2).
    pose proof (initPass_fresh evs s l Hin (Hrg l Hin)) as (Hp0 & Hc0 & _).
    fold s1 in Hp0, Hc0. rewrite Hp0, Hc0. simpl. split; [done|lia]. }
  assert (Hgr3 : graded arr s3).
  { by apply (positionPass_graded arr events Hnd fuel arr [] s2 s3). }
  assert (Hco3 : complete arr (length arr) s3).
  { apply (positionPass_complete arr events Hnd fuel arr [] s2 s3); try done.
    intros a b la lb _ Hb. simpl in Hb. lia. }
  exists arr, s3, s'. split_and!; try done.
  - destruct Hp as [(-> & _) _ _]. destruct Hs23 as (-> & _). done.
  - intros l. destruct Hp as [(_ & _ & _ & ->) _ _].
    destruct Hs23 as (_ & _ & _ & ->). by rewrite Hobj2.
  - by rewrite (same_shape_ids _ _ _ Hs23).
Qed.

(** Every page built from an array literal whose events have unique ids
    and start before they end is such an input. *)
Lemma page_input_ok (input : list (Z * Z * Z)) :
  NoDup ((fun r => r.1.1) <$> input) ->
  Forall (fun r => r.1.2 < r.2)%Z input ->
  input_ok (page input) 0 (seq 0 (length input)).
Proof.
  intros Hnd Ht.
  assert (Hobj : forall l r, input !! l = Some r -> obj (page input) l = rawEvent r).
  { intros l r Hl. unfold obj, page. simpl. apply list_lookup_total_correct.
    by rewrite list_lookup_fmap, Hl. }
  split; try done.
  - intros l Hl. apply elem_of_seq in Hl. simpl. rewrite length_fmap. lia.
  - assert (ids (page input) (seq 0 (length input)) = (fun r => r.1.1) <$> input)
      as ->; [|done].
    apply list_eq. intros i. unfold ids. rewrite !list_lookup_fmap.
    destruct (input !! i) as [r|] eqn:Hi.
    + rewrite lookup_seq_lt by by eapply lookup_lt_Some. simpl.
      by rewrite (Hobj i r).
    + rewrite lookup_seq_ge by by apply lookup_ge_None. done.
  - intros l Hl. apply elem_of_seq in Hl.
    destruct (lookup_lt_is_Some_2 input l) as [r Hr]; [lia|].
    rewrite (Hobj l r Hr). simpl.
    by eapply (Forall_lookup_1 _ _ _ _ Ht).
Qed.

(** ** Groups of mutually colliding events *)


Section clique.
Variables (arr : list nat) (s : State) (K : list nat).
Hypothesis arr_nodup : NoDup arr.
Hypothesis ids_nodup : NoDup (ids s arr).
Hypothesis s_linked : linked arr s.
Hypothesis s_complete : complete arr (length arr) s.
Hypothesis s_graded : graded arr s.
Hypothesis K_mutual : mutual arr s K.

Lemma mutual_overlap a b la lb :
  a ∈ K -> b ∈ K -> a <> b -> arr !! a = Some la -> arr !! b = Some lb ->
  collide (obj s lb) (obj s la) = true.
Proof.
  intros Ha Hb Hab Hla Hlb.
  destruct (K_mutual b Hb) as (lb' & Hlb' & Hcs).
  assert (lb' = lb) as -> by congruence.
  destruct (s_linked b lb a Hlb) as (la' & Hla' & _ & Hcol & _).
  { apply Hcs. done. }
  congruence.
Qed.

Lemma mutual_closed b lb p lp :
  b ∈ K -> arr !! b = Some lb -> arr !! p = Some lp -> p <> b ->
  collide (obj s lb) (obj s lp) = true -> p ∈ K.
Proof.
  intros Hb Hlb Hlp Hpb Hcol.
  destruct (K_mutual b Hb) as (lb' & Hlb' & Hcs).
  assert (lb' = lb) as -> by congruence.
  assert (Hin : p ∈ collisions (obj s lb)); [|by apply Hcs in Hin as [? _]].
  assert (Hb_lt : b < length arr) by by eapply lookup_lt_Some.
  assert (Hp_lt : p < length arr) by by eapply lookup_lt_Some.
  destruct (decide (p < b)).
  - by eapply (s_complete p b).
  - assert (Hbp : b ∈ collisions (obj s lp)).
    { eapply (s_complete b p); [lia|done..|]. by rewrite collide_sym. }
    destruct (s_linked p lp b Hlp Hbp) as (lb' & Hlb'' & _ & _ & ?).
    congruence.
Qed.


End clique.

Lemma wide_update s l f lz :
  (forall e, position (f e) = position e /\ columns (f e) = columns e) ->
  wide s lz -> wide (update s l f) lz.
Proof.
  intros Hf. unfold wide. rewrite obj_update. case_decide as H; [|done].
  destruct H as [-> _]. destruct (Hf (obj s lz)) as [-> ->]. done.
Qed.

Section mutual.
Variable arr : list nat.
Hypothesis arr_nodup : NoDup arr.

(** A turn of the geometry loop does not take an event below its own
    column, and lifts to it the events it writes to. *)
Lemma columnsLoop_wide event lz cs :
  forall s s',
    ranged arr s -> event < length (objects s) ->
    columnsLoop arr event cs s = Ok s' ->
    wide s lz \/ (exists c, c ∈ cs /\ arr !! c = Some lz) ->
    wide s' lz.
Proof.
  induction cs as [|c cs IH]; intros s s' Hrg Hev H Hw; simpl in H.
  { injection H as <-. destruct Hw as [?|(c & Hc & _)]; [done|].
    by apply elem_of_nil in Hc. }
  destruct (arr !! c) as [other|] eqn:Hother; [|done].
  set (v := Z.max (columns (obj s event)) (position (obj s other) + 1)) in *.
  set (s1 := update s event (set_columns v)) in *.
  set (s2 := update s1 other (set_columns (columns (obj s1 event)))) in *.
  assert (Hoth : other < length (objects s1)).
  { unfold s1. rewrite length_update. by eapply Hrg. }
  assert (Hv : columns (obj s1 event) = v).
  { unfold s1. by rewrite obj_update_eq. }
  assert (Hp1 : painted s s1) by by apply painted_update.
  assert (Hp2 : painted s1 s2) by by apply painted_update.
  assert (Hp : painted s s2) by by eapply painted_trans.
  apply (IH s2 s'); [|by rewrite (painted_length _ _ Hp)|done|].
  { eapply ranged_same_shape; [done|apply Hp]. }
  destruct (decide (lz = other)) as [->|Hne].
  { left. unfold wide. rewrite (pt_position _ _ Hp).
    unfold s2. rewrite obj_update_eq by done. simpl. rewrite Hv. unfold v. lia. }
  destruct Hw as [Hw|(c' & Hc' & Hlz)].
  - left. unfold wide in *. rewrite (pt_position _ _ Hp).
    unfold s2. rewrite obj_update_ne by done.
    unfold s1. rewrite obj_update. case_decide as Heq; [|done].
    destruct Heq as [-> _]. simpl. unfold v. lia.
  - apply elem_of_cons in Hc' as [->|Hc']; [congruence|]. right. eauto.
Qed.

(** A turn for an event whose [columns] is above the columns of all the
    events it writes to gives them that [columns]. *)
Lemma columnsLoop_constant event v cs :
  forall s s',
    ranged arr s -> event < length (objects s) ->
    columnsLoop arr event cs s = Ok s' ->
    columns (obj s event) = v ->
    (forall c lc, c ∈ cs -> arr !! c = Some lc -> (position (obj s lc) + 1 ≤ v)%Z) ->
    forall l, columns (obj s l) = v \/ (exists c, c ∈ cs /\ arr !! c = Some l) ->
      columns (obj s' l) = v.
Proof.
  induction cs as [|c cs IH]; intros s s' Hrg Hev H Hv Hlow l Hl; simpl in H.
  { injection H as <-. destruct Hl as [?|(c & Hc & _)]; [done|].
    by apply elem_of_nil in Hc. }
  destruct (arr !! c) as [other|] eqn:Hother; [|done].
  assert (Hmax : Z.max (columns (obj s event)) (position (obj s other) + 1) = v).
  { specialize (Hlow c other). rewrite Hv. apply Z.max_l, Hlow; [by left|done]. }
  rewrite Hmax in H.
  set (s1 := update s event (set_columns v)) in *.
  set (s2 := update s1 other (set_columns (columns (obj s1 event)))) in *.
  assert (Hoth : other < length (objects s1)).
  { unfold s1. rewrite length_update. by eapply Hrg. }
  assert (Hv1 : columns (obj s1 event) = v).
  { unfold s1. by rewrite obj_update_eq. }
  assert (Hp1 : painted s s1) by by apply painted_update.
  assert (Hp2 : painted s1 s2) by by apply painted_update.
  assert (Hp : painted s s2) by by eapply painted_trans.
  assert (Hkeep : forall l', columns (obj s l') = v -> columns (obj s2 l') = v).
  { intros l' Hl'. unfold s2. rewrite obj_update. case_decide; [by simpl|].
    unfold s1. rewrite obj_update. by case_decide. }
  apply (IH s2 s'); [|by rewrite (painted_length _ _ Hp)|done|by apply Hkeep| |].
  { eapply ranged_same_shape; [done|apply Hp]. }
  { intros c' lc Hc' Hlc. rewrite (pt_position _ _ Hp). apply (Hlow c'); [by right|done]. }
  destruct Hl as [Hl|(c' & Hc' & Hlc)]; [left; by apply Hkeep|].
  apply elem_of_cons in Hc' as [->|Hc']; [|right; eauto].
  left. assert (l = other) as -> by congruence.
  unfold s2. rewrite obj_update_eq by done. simpl. done.
Qed.

Lemma geometryPass_wide post rest lz :
  forall pre s s',
    arr = pre ++ rest ++ post -> ranged arr s -> linked arr s ->
    geometryPass arr rest s = Ok s' ->
    wide s lz \/
      (exists ev z, ev ∈ rest /\ arr !! z = Some lz /\ z ∈ collisions (obj s ev)) ->
    wide s' lz.
Proof.
  induction rest as [|event rest IH]; intros pre s s' Harr Hrg Hlk H Hw; simpl in H.
  { injection H as <-. destruct Hw as [?|(ev & z & Hev & _)]; [done|].
    by apply elem_of_nil in Hev. }
  simpl in Harr.
  assert (Hev : arr !! length pre = Some event).
  { rewrite Harr. by rewrite list_lookup_middle. }
  apply bind_Ok in H as (s1 & H1 & H).
  destruct (columnsLoop_spec arr event (reverse (collisions (obj s event))) s)
    as (s1' & H1' & Hp1 & _); [done|by eapply Hrg| |].
  { intros c Hc. rewrite elem_of_reverse in Hc.
    destruct (Hlk _ _ _ Hev Hc) as (lx & -> & _). eauto. }
  assert (s1' = s1) as -> by congruence.
  set (s2 := update s1 event _) in H.
  set (s3 := update s2 event _) in H.
  assert (Hp2 : painted s1 s2) by by apply painted_update.
  assert (Hp3 : painted s2 s3) by by apply painted_update.
  assert (Hp : painted s s3) by eauto using painted_trans.
  apply (IH (pre ++ [event]) s3 s'); [by rewrite <- app_assoc| | |done|].
  { eapply ranged_same_shape; [done|apply Hp]. }
  { by eapply linked_painted. }
  assert (Hstep : wide s1 lz -> wide s3 lz).
  { intros Hw1. unfold s3. apply (wide_update s2 event _ lz); [done|].
    unfold s2. by apply (wide_update s1 event _ lz). }
  destruct Hw as [Hw|(ev & z & Hin & Hz & Hzin)].
  - left. apply Hstep.
    apply (columnsLoop_wide event lz (reverse (collisions (obj s event))) s s1); [done|by eapply Hrg|done|by left].
  - apply elem_of_cons in Hin as [->|Hin].
    + left. apply Hstep.
      apply (columnsLoop_wide event lz (reverse (collisions (obj s event))) s s1); [done|by eapply Hrg|done|].
      right. exists z. by rewrite elem_of_reverse.
    + right. exists ev, z. by rewrite (pt_collisions _ _ Hp).
Qed.

(** The events of a group of mutually colliding events end with the
    [columns] that the event of highest index has when its turn comes. *)
Lemma geometryPass_mutual s s' K z lz :
  ranged arr s -> linked arr s -> mutual arr s K ->
  z ∈ K -> (forall x, x ∈ K -> x ≤ z) -> arr !! z = Some lz ->
  (forall y ly, y ∈ K -> arr !! y = Some ly ->
     (position (obj s ly) ≤ position (obj s lz))%Z) ->
  geometryPass arr arr s = Ok s' ->
  forall x lx, x ∈ K -> arr !! x = Some lx ->
    columns (obj s' lx) = columns (obj s' lz).
Proof.
  intros Hrg Hlk HK Hz Hmax Hlz Hpos H.
  pose proof (take_drop_middle _ _ _ Hlz) as Harr.
  rewrite <- Harr in H at 2. rewrite geometryPass_app in H.
  destruct (geometryPass_spec arr arr_nodup (lz :: drop (S z) arr) (take z arr) [] s)
    as (sa & Ha & Hpa & _); [done..|].
  rewrite Ha in H. simpl in H.
  apply bind_Ok in H as (sb & Hb & H).
  set (sc := update (update sb lz _) lz _) in H.
  assert (Hrga : ranged arr sa) by exact (ranged_same_shape arr s sa Hrg (pt_shape _ _ Hpa)).
  assert (Hlz_in : lz < length (objects sa)) by by eapply Hrga.
  destruct (HK z Hz) as (lz' & Hlz' & Hcs).
  assert (lz' = lz) as -> by congruence.
  set (v := columns (obj sa lz)).
  assert (Hb_all : forall l, columns (obj sa l) = v \/
            (exists c, c ∈ reverse (collisions (obj sa lz)) /\ arr !! c = Some l) ->
            columns (obj sb l) = v).
  { apply (columnsLoop_constant lz v (reverse (collisions (obj sa lz))) sa sb); try done.
    intros c lc Hc Hlc. rewrite elem_of_reverse, (pt_collisions _ _ Hpa) in Hc.
    apply Hcs in Hc as [HcK Hcz].
    assert (Hcz' : c < z) by (specialize (Hmax c HcK); lia).
    assert (Hw : wide sa lz).
    { apply (geometryPass_wide (lz :: drop (S z) arr) (take z arr) lz [] s sa);
        try done.
      right. exists lc, z. split_and!; [|done|].
      - apply list_elem_of_lookup. exists c. by rewrite lookup_take_lt.
      - destruct (HK c HcK) as (lc' & Hlc' & Hcs').
        assert (lc' = lc) as -> by congruence. apply Hcs'. split; [done|lia]. }
    unfold wide in Hw. fold v in Hw.
    rewrite !(pt_position _ _ Hpa) in *. specialize (Hpos c lc HcK Hlc). lia. }
  assert (Hpb : painted sa sb).
  { destruct (columnsLoop_spec arr lz (reverse (collisions (obj sa lz))) sa)
      as (sb' & Hb' & Hpb & _); [done..| |congruence].
    intros c Hc. rewrite elem_of_reverse, (pt_collisions _ _ Hpa) in Hc.
    destruct (Hlk _ _ _ Hlz Hc) as (lx & -> & _). eauto. }
  assert (Hpc : painted sb sc).
  { eapply painted_trans; by apply painted_update. }
  assert (Hcc : forall l, columns (obj sc l) = columns (obj sb l)).
  { intros l. unfold sc. by rewrite !columns_update. }
  assert (Hp : painted s sc) by eauto using painted_trans.
  assert (Hlkc : linked arr sc) by exact (linked_painted _ _ _ Hlk Hp).
  destruct (geometryPass_spec arr arr_nodup [] (drop (S z) arr) (take z arr ++ [lz]) sc)
    as (s'' & H'' & _ & Hq).
  { rewrite app_nil_r, <- app_assoc. done. }
  { exact (ranged_same_shape arr s sc Hrg (pt_shape _ _ Hp)). }
  { done. }
  rewrite H'' in H. injection H as <-.
  assert (Hlen : length (take z arr ++ [lz]) = S z).
  { rewrite length_app, length_take. simpl.
    apply lookup_lt_Some in Hlz. lia. }
  rewrite Hlen in Hq.
  assert (Hfinal : forall x lx, x ∈ K -> arr !! x = Some lx ->
            columns (obj s'' lx) = v).
  { intros x lx Hx Hlx. rewrite (Hq x lx Hlx).
    - rewrite Hcc. apply Hb_all.
      destruct (decide (x = z)) as [->|Hxz].
      + left. assert (lx = lz) as -> by congruence. done.
      + right. exists x. rewrite elem_of_reverse, (pt_collisions _ _ Hpa).
        split; [by apply Hcs|done].
    - split; [|intros lk Hk; specialize (Hmax x Hx); lia].
      intros d ld Hd Hld Hin.
      destruct (Hlkc d ld x Hld Hin) as (lx' & Hlx' & _ & _ & Hdin).
      assert (lx' = lx) as -> by congruence.
      rewrite (pt_collisions _ _ Hp) in Hdin.
      destruct (HK x Hx) as (lx' & Hlx'' & Hcs').
      assert (lx' = lx) as -> by congruence.
      apply Hcs' in Hdin as [HdK _]. specialize (Hmax d HdK). lia. }
  intros x lx Hx Hlx. rewrite (Hfinal x lx Hx Hlx). symmetry.
  by apply (Hfinal z lz).
Qed.
End mutual.

(** ** Properties of the returned layout *)

Section returned.
Variables (fuel : nat) (s : State) (events : nat) (evs : list nat).
Hypothesis input : input_ok s events evs.
Hypothesis enough : length evs ≤ fuel.

Lemma returned_loops :
  exists arr s3 s',
    returned fuel s events = Ok (obj s' <$> arr) /\
    arr = array_sort (fun l1 l2 => sortByDuration (obj s l1) (obj s l2)) evs /\
    NoDup arr /\ ranged arr s3 /\
    (forall l, raw (obj s' l) = raw (obj s l)) /\
    resolved arr s3 /\ painted s3 s' /\
    geometryPass arr arr s3 = Ok s' /\
    (forall k lk, arr !! k = Some lk -> quiet arr s3 0 k ->
       columns (obj s' lk) = columns (obj s3 lk)) /\
    graded arr s3 /\ complete arr (length arr) s3 /\ NoDup (ids s3 arr).
Proof.
  destruct (layOutDay_loops fuel s events evs input enough)
    as (arr & s3 & s' & H & Harr & Ha & Hrest).
  exists arr, s3, s'. split; [|done].
  unfold returned. rewrite H. simpl. unfold snapshot.
  by rewrite (list_lookup_total_correct _ _ _ Ha).
Qed.
End returned.

Lemma lookup_objects {s : State} {arr : list nat} {i : nat} {e : Event} :
  (obj s <$> arr) !! i = Some e -> exists l, arr !! i = Some l /\ e = obj s l.
Proof.
  rewrite list_lookup_fmap. destruct (arr !! i) as [l|]; simpl; [|done].
  intros [= <-]. eauto.
Qed.






(** The returned list holds the events of the input, by decreasing
    duration, the events of a same duration in the order of the input. *)
Lemma returned_sorted (fuel : nat) (s : State) (events : nat) (evs : list nat) :
  input_ok s events evs -> length evs ≤ fuel ->
  exists out, returned fuel s events = Ok out /\
    raw <$> out ≡ₚ raw <$> snapshot s events /\
    StronglySorted (fun e1 e2 => (end_ e2 - start e2 ≤ end_ e1 - start e1)%Z) out /\
    forall d, filter (fun r => span r = d) (raw <$> out) =
              filter (fun r => span r = d) (raw <$> snapshot s events).
Proof.
  intros Hin Hfuel.
  destruct (returned_loops fuel s events evs Hin Hfuel)
    as (arr & s3 & s' & H & Harr & _ & _ & Hraw & _).
  eexists. split; [exact H|].
  assert (Hsnap : snapshot s events = obj s <$> evs).
  { unfold snapshot. by rewrite (list_lookup_total_correct _ _ _ (in_array _ _ _ Hin)). }
  assert (Hout : raw <$> (obj s' <$> arr) = (fun l => raw (obj s l)) <$> arr).
  { rewrite <- list_fmap_compose. apply list_fmap_ext. intros _ l _. apply Hraw. }
  assert (Hkey : forall x y,
    (sortByDuration (obj s x) (obj s y) <=? 0)%Z =
    (span (raw (obj s y)) <=? span (raw (obj s x)))%Z).
  { intros x y. apply sortByDuration_key. }
  rewrite Hsnap, Hout, <- (list_fmap_compose (obj s) raw evs). split_and!.
  - apply fmap_Permutation. rewrite Harr. apply array_sort_perm.
  - eapply (StronglySorted_fmap (obj s')); [|rewrite Harr; by apply (array_sort_sorted _ _ Hkey)].
    intros x y. simpl. pose proof (Hraw x) as Hx. pose proof (Hraw y) as Hy.
    unfold span, raw in *. simpl. congruence.
  - intros d. rewrite !filter_fmap. f_equal. rewrite Harr.
    apply (array_sort_stable _ (fun l => span (raw (obj s l))) Hkey d evs).
Qed.

(** ** The layout of a day

    The statements for a page that hands [layOutDay] the array bound to
    its module-level [events]. *)

Lemma snapshot_page (input : list (Z * Z * Z)) :
  raw <$> snapshot (page input) 0 = input.
Proof.
  unfold snapshot, page. simpl. apply list_eq. intros i.
  rewrite !list_lookup_fmap. destruct (input !! i) as [r|] eqn:Hi.
  - rewrite lookup_seq_lt by by eapply lookup_lt_Some. simpl. f_equal.
    unfold obj. simpl.
    rewrite (list_lookup_total_correct (rawEvent <$> input) i (rawEvent r))
      by by rewrite list_lookup_fmap, Hi.
    by destruct r as [[??]?].
  - rewrite lookup_seq_ge by by apply lookup_ge_None. done.
Qed.

Lemma page_fuel (input : list (Z * Z * Z)) :
  length (seq 0 (length input)) ≤ S (length input).
Proof. rewrite length_seq. lia. Qed.







(** C7: for every input list of events with unique ids and start < end,
    the returned list holds the events of the input by decreasing duration,
    the events of a same duration in the order they have in the input. *)
Theorem returned_by_duration (input : list (Z * Z * Z)) :
  NoDup ((fun r => r.1.1) <$> input) ->
  Forall (fun r => r.1.2 < r.2)%Z input ->
  exists out, layOutPage input = Ok out /\
    raw <$> out ≡ₚ input /\
    StronglySorted (fun e1 e2 => (end_ e2 - start e2 ≤ end_ e1 - start e1)%Z) out /\
    forall d, filter (fun r => span r = d) (raw <$> out) =
              filter (fun r => span r = d) input.
Proof.
  intros Hid Ht.
  destruct (returned_sorted (S (length input)) (page input) 0 (seq 0 (length input)))
    as (out & H & Hperm & Hsorted & Hstable); auto using page_input_ok, page_fuel.
  rewrite snapshot_page in Hperm. exists out. split_and!; try done.
  intros d. rewrite Hstable. by rewrite snapshot_page.
Qed.

(** ** The statements on concrete days *)

Ltac by_computation := apply (bool_decide_unpack _); vm_compute; exact I.



(** Scenario 4 of the specification: three mutually overlapping events of
    equal duration are the group [0; 1; 2] and end with [columns = 3]. *)
Example three_mutual_events :
  exists out, layOutPage trio_day = Ok out /\
    mutually_colliding out [0; 1; 2] /\
    columns <$> out = [3; 3; 3]%Z /\ position <$> out = [0; 1; 2]%Z.
Proof.
  eexists. split; [vm_compute; reflexivity|]. split; [|done].
  intros i Hi. repeat (apply elem_of_cons in Hi as [->|Hi]);
    [| | |by apply elem_of_nil in Hi];
    (eexists; split; [reflexivity|]); simpl; intros j;
    rewrite !elem_of_cons, !elem_of_nil; lia.
Qed.




Lemma returned_by_duration_witness :
  exists out, layOutPage split_day = Ok out /\
    raw <$> out ≡ₚ split_day /\
    StronglySorted (fun e1 e2 => (end_ e2 - start e2 ≤ end_ e1 - start e1)%Z) out /\
    forall d, filter (fun r => span r = d) (raw <$> out) =
              filter (fun r => span r = d) split_day.
Proof. apply (returned_by_duration split_day); by_computation. Defined.

(** ** The passes of [layOutDay], one after the other *)

Lemma initialize_idem e : initialize (initialize e) = initialize e.
Proof. done. Qed.

Lemma initPass_keeps_initialized evs :
  forall s l e0, obj s l = initialize e0 -> obj (initPass s evs) l = initialize e0.
Proof.
  induction evs as [|x evs IH]; intros s l e0 H; simpl; [done|].
  apply IH. rewrite obj_update. case_decide as Hx; [|done].
  destruct Hx as [-> _]. by rewrite H.
Qed.

Lemma initPass_initialize evs :
  forall s l, l ∈ evs -> l < length (objects s) ->
    obj (initPass s evs) l = initialize (obj s l).
Proof.
  induction evs as [|x evs IH]; intros s l Hl Hlen; simpl.
  { by apply elem_of_nil in Hl. }
  apply elem_of_cons in Hl as [->|Hl].
  - apply initPass_keeps_initialized. by rewrite obj_update_eq.
  - rewrite IH by (by rewrite ?length_update). rewrite obj_update.
    case_decide as Hx; [|done]. destruct Hx as [-> _]. done.
Qed.

Lemma untouched_refl arr s : untouched arr s s.
Proof. done. Qed.

Lemma untouched_trans arr s1 s2 s3 :
  untouched arr s1 s2 -> untouched arr s2 s3 -> untouched arr s1 s3.
Proof. intros H1 H2 l Hl. by rewrite (H2 l Hl), (H1 l Hl). Qed.

Lemma untouched_update arr s l f : l ∈ arr -> untouched arr s (update s l f).
Proof.
  intros Hl l' Hl'. rewrite obj_update. case_decide as H; [|done].
  destruct H as [-> _]. done.
Qed.

Lemma initPass_untouched evs : forall s, untouched evs s (initPass s evs).
Proof.
  induction evs as [|x evs IH]; intros s l Hl; simpl; [done|].
  apply not_elem_of_cons in Hl as [Hne Hl].
  rewrite (IH _ l Hl). by rewrite obj_update_ne.
Qed.

Lemma layOutDay_passes fuel s events evs :
  input_ok s events evs -> length evs ≤ fuel ->
  exists arr s2 s3 s',
    layOutDay fuel s events = Ok s' /\
    arr = array_sort (fun l1 l2 => sortByDuration (obj s l1) (obj s l2)) evs /\
    arrays s' !! events = Some arr /\
    NoDup arr /\ aliased arr events s2 /\ NoDup (ids s2 arr) /\
    (forall k l, arr !! k = Some l -> obj s2 l = initialize (obj s l)) /\
    (forall l, raw (obj s2 l) = raw (obj s l)) /\
    positionPass fuel arr 0 s2 = Ok s3 /\
    geometryPass arr arr s3 = Ok s' /\
    same_shape s2 s3 /\ painted s3 s' /\
    (forall l, l ∉ evs -> obj s2 l = obj s l) /\
    (forall a, a <> events -> arrays s2 !! a = arrays s !! a) /\
    global_events s2 = global_events s /\
    length (objects s2) = length (objects s).
Proof.
  intros [Hg Ha Hrg Hids Htimes] Hfuel.
  unfold layOutDay. rewrite Ha.
  set (s1 := initPass s evs).
  set (s2 := sortPass s1 events).
  pose proof (initPass_same_shape evs s) as Hs1. fold s1 in Hs1.
  pose proof Hs1 as (Ha1 & Hg1 & Hlen1 & Hraw1).
  assert (Hevs : arrays s1 !!! events = evs).
  { apply list_lookup_total_correct. by rewrite Ha1. }
  set (arr := array_sort (fun l1 l2 => sortByDuration (obj s l1) (obj s l2)) evs).
  assert (Harr2 : arrays s2 !! events = Some arr).
  { unfold s2, sortPass. simpl. rewrite Hevs.
    rewrite list_lookup_insert_eq by (rewrite Ha1; by eapply lookup_lt_Some).
    f_equal. apply array_sort_ext. intros a b. by apply sortByDuration_raw. }
  rewrite (list_lookup_total_correct _ _ _ Harr2).
  assert (Hperm : arr ≡ₚ evs) by apply array_sort_perm.
  assert (Hnd : NoDup arr).
  { rewrite Hperm. by eapply NoDup_fmap_1. }
  assert (Hobj2 : forall l, obj s2 l = obj s1 l) by done.
  assert (Hrg2 : ranged arr s2).
  { intros k l Hk. change (length (objects s2)) with (length (objects s1)).
    rewrite Hlen1. apply Hrg. rewrite <- Hperm. by eapply list_elem_of_lookup_2. }
  assert (Hal2 : aliased arr events s2).
  { split_and!; [|done..]. change (global_events s2) with (global_events s1).
    by rewrite Hg1. }
  assert (Hids2 : NoDup (ids s2 arr)).
  { assert (ids s2 arr = ids s arr) as ->.
    { unfold ids. apply list_fmap_ext. intros _ l _. rewrite Hobj2.
      specialize (Hraw1 l). unfold raw in Hraw1. congruence. }
    unfold ids. by rewrite Hperm. }
  destruct (positionPass_returns events arr (ids s2 arr) fuel arr 0 s2)
    as (s3 & H3 & Hs23).
  { destruct Hal2 as (? & ? & _). done. }
  { intros k l Hk. rewrite (first_index_unique _ _ k); [done..|].
    unfold ids. by rewrite list_lookup_fmap, Hk. }
  { by rewrite Hperm. }
  rewrite H3. simpl.
  assert (Hfresh : forall k l, arr !! k = Some l -> fresh (obj s2 l)).
  { intros k l Hk. rewrite Hobj2.
    assert (l ∈ evs) by (rewrite <- Hperm; by eapply list_elem_of_lookup_2).
    apply initPass_fresh; auto. }
  destruct (positionPass_resolved arr events Hnd fuel arr [] s2 s3)
    as [Hres3 _]; [done|done|by apply fresh_resolved|done|].
  assert (Hrg3 : ranged arr s3) by by eapply ranged_same_shape.
  destruct (geometryPass_spec arr Hnd [] arr [] s3) as (s' & H' & Hp & Hq);
    [by rewrite app_nil_r|done|apply Hres3|].
  exists arr, s2, s3, s'. split_and!; try done.
  - destruct Hp as [(-> & _) _ _]. destruct Hs23 as (-> & _). done.
  - intros k l Hk. rewrite Hobj2.
    assert (Hin : l ∈ evs) by (rewrite <- Hperm; by eapply list_elem_of_lookup_2).
    by apply initPass_initialize; auto.
  - intros l Hl. rewrite Hobj2. by apply initPass_untouched.
  - intros a Hne. unfold s2, sortPass. simpl.
    rewrite list_lookup_insert_ne by done. by rewrite Ha1.
Qed.

(** ** More on the position loop *)

Lemma NoDup_registerCollision i e :
  NoDup (collisions e) -> NoDup (collisions (registerCollision i e)).
Proof.
  unfold registerCollision.
  destruct (newCollision (collisions e) i) eqn:Hn; [|done]. simpl. intros H.
  apply NoDup_app. split_and!; [done| |apply NoDup_singleton].
  intros x Hx Hx'. apply list_elem_of_singleton in Hx' as ->.
  apply newCollision_false in Hx. congruence.
Qed.

Lemma tidy_update arr s l f :
  (forall e, NoDup (collisions e) -> NoDup (collisions (f e))) ->
  tidy arr s -> tidy arr (update s l f).
Proof.
  intros Hf Ht k l0 Hk. rewrite obj_update. case_decide as H; [|by eapply Ht].
  destruct H as [-> _]. apply Hf. by eapply Ht.
Qed.

Lemma scanLeft_tidy arr rec event index cands :
  (forall s c i p s', rec s c i = Ok (p, s') -> tidy arr s -> tidy arr s') ->
  forall i s s', scanLeft rec event index cands i s = Ok s' -> tidy arr s -> tidy arr s'.
Proof.
  intros Hrec. induction cands as [|c rest IH]; intros i s s' H Ht; simpl in H.
  - by injection H as <-.
  - destruct (id (obj s c) =? id (obj s event))%Z.
    { by injection H as <-. }
    destruct (collide (obj s event) (obj s c)); [|by eapply IH].
    apply bind_Ok in H as ([p s2] & Hr & H).
    eapply IH; [exact H|].
    apply tidy_update; [intros e; apply NoDup_registerCollision|].
    apply tidy_update; [done|].
    eapply Hrec; [exact Hr|].
    apply tidy_update; [intros e; apply NoDup_registerCollision|done].
Qed.

Lemma checkLeft_tidy arr fuel :
  forall s event index p s',
    checkLeft fuel s event index = Ok (p, s') -> tidy arr s -> tidy arr s'.
Proof.
  induction fuel as [|fuel IH]; intros s event index p s' H; simpl in H; [done|].
  destruct (global_events s) as [g|]; [|done].
  destruct (arrays s !! g) as [evs|]; [|done].
  apply bind_Ok in H as (s1 & H & Heq). injection Heq as _ <-.
  eapply scanLeft_tidy; [|exact H]. exact IH.
Qed.

Lemma positionPass_tidy arr fuel rest :
  forall e s s', positionPass fuel rest e s = Ok s' -> tidy arr s -> tidy arr s'.
Proof.
  induction rest as [|l rest IH]; intros e s s' H Ht; simpl in H.
  { by injection H as <-. }
  apply bind_Ok in H as ([p s1] & Hr & H).
  eapply IH; [exact H|].
  apply tidy_update; [intros ev; by rewrite collisions_slideBack|].
  apply tidy_update; [done|].
  by eapply checkLeft_tidy.
Qed.

(** The column the search computes for an event is at most its index. *)
Lemma depth_le_index s arr :
  forall k l, arr !! k = Some l -> (depth s arr k ≤ Z.of_nat k)%Z.
Proof.
  intros k. induction k as [k IH] using lt_wf_ind. intros l Hk.
  destruct (last (colliding s l arr 0)) as [p|] eqn:Hlast.
  - destruct (depth_last s arr k l p Hk Hlast) as [-> Hp].
    pose proof (last_Some_elem_of _ _ Hlast) as Hin.
    destruct (colliding_elem_1 s arr k l Hk arr [] p eq_refl (Nat.le_0_l _) Hin)
      as (_ & c & Hc & _).
    specialize (IH p Hp c Hc). lia.
  - apply last_None in Hlast. rewrite (depth_root s arr k l Hk Hlast). lia.
Qed.

Section ranked.
Variables (arr : list nat) (g : nat).
Hypothesis arr_nodup : NoDup arr.

Lemma positionPass_ranked fuel rest :
  forall pre s s',
    arr = pre ++ rest -> aliased arr g s -> graded arr s ->
    ranked arr (length pre) s ->
    positionPass fuel rest (length pre) s = Ok s' ->
    ranked arr (length arr) s'.
Proof.
  induction rest as [|l rest IH]; intros pre s s' Harr Hal Hgr Hrk H; simpl in H.
  { injection H as <-. rewrite app_nil_r in Harr. by subst pre. }
  apply bind_Ok in H as ([p s1] & Hr & H).
  assert (Hl : arr !! length pre = Some l).
  { rewrite Harr. by rewrite list_lookup_middle. }
  destruct (checkLeft_depth arr g arr_nodup fuel s (length pre) l p s1)
    as (Hs1 & Hmv & Hpos & ->);
    [done|by apply graded_roots_zero|done..|].
  rewrite <- Hpos in H.
  set (s3 := update (update s1 l (set_position (position (obj s1 l)))) l slideBack) in *.
  assert (Hl1 : l < length (objects s1)).
  { destruct Hs1 as (_ & _ & -> & _). destruct Hal as (_ & _ & Hrg). by eapply Hrg. }
  assert (Hs3 : same_shape s s3).
  { eapply same_shape_trans; [exact Hs1|apply turn_same_shape]. }
  assert (Hlen : S (length pre) = length (pre ++ [l])).
  { rewrite length_app. simpl. lia. }
  rewrite Hlen in H.
  apply IH in H; [done|by rewrite <- app_assoc|by eapply aliased_same_shape| |].
  - intros k lk Hk. rewrite (depth_same_shape _ _ _ _ Hs3).
    unfold s3. rewrite turn_obj by done. case_decide as Heq.
    + subst lk. pose proof (NoDup_lookup _ _ _ _ arr_nodup Hk Hl) as ->.
      unfold slideBack.
      destruct (Z.gtb_spec (position (obj s1 l)) 1); simpl; [|by left].
      destruct (Nat.ltb_spec (length (collisions (obj s1 l))) 2); simpl;
        [by right|by left].
    + destruct (Hmv k lk Hk) as [[-> ->]| ->]; [apply Hgr|]; auto.
  - intros k lk Hlt Hk. rewrite (depth_same_shape _ _ _ _ Hs3).
    unfold s3. rewrite turn_obj by done. case_decide as Heq.
    + subst lk. pose proof (NoDup_lookup _ _ _ _ arr_nodup Hk Hl) as ->.
      unfold slideBack.
      destruct (Z.gtb_spec (position (obj s1 l)) 1); simpl; [|by left].
      destruct (Nat.ltb_spec (length (collisions (obj s1 l))) 2); simpl;
        [right; split_and!; [done|done|lia]|by left].
    + assert (Hne : k <> length pre) by (intros ->; congruence).
      destruct (Hmv k lk Hk) as [[-> ->]| ->]; [apply Hrk; [lia|done]|by left].
Qed.
End ranked.

(** ** More on the geometry loop *)

(** What a loop that leaves a field alone does to the objects. *)
Section field.
Context {A : Type} (field : Event -> A).

Lemma field_update s l f l' :
  (forall e, field (f e) = field e) ->
  field (obj (update s l f) l') = field (obj s l').
Proof.
  intros Hf. rewrite obj_update. case_decide as H; [|done].
  destruct H as [-> _]. apply Hf.
Qed.

Hypothesis field_columns : forall v e, field (set_columns v e) = field e.

Lemma columnsLoop_keeps evs event cs :
  forall s s', columnsLoop evs event cs s = Ok s' ->
    forall l, field (obj s' l) = field (obj s l).
Proof.
  induction cs as [|c cs IH]; intros s s' H l; simpl in H.
  { by injection H as <-. }
  destruct (evs !! c) as [other|]; [|done].
  rewrite (IH _ _ H). by rewrite !field_update.
Qed.

(** A turn of the geometry loop writes [width] and [left] of its own
    event only. *)
Lemma geometryPass_keeps evs rest :
  forall s s', geometryPass evs rest s = Ok s' ->
    forall l, l ∉ rest -> field (obj s' l) = field (obj s l).
Proof.
  induction rest as [|event rest IH]; intros s s' H l Hl; simpl in H.
  { by injection H as <-. }
  apply not_elem_of_cons in Hl as [Hne Hl].
  apply bind_Ok in H as (s1 & H1 & H).
  rewrite (IH _ _ H l Hl). rewrite !obj_update_ne by done.
  by eapply columnsLoop_keeps.
Qed.

Hypothesis field_width : forall v e, field (set_width v e) = field e.
Hypothesis field_left : forall v e, field (set_left v e) = field e.

Lemma geometryPass_keeps_all evs rest :
  forall s s', geometryPass evs rest s = Ok s' ->
    forall l, field (obj s' l) = field (obj s l).
Proof.
  induction rest as [|event rest IH]; intros s s' H l; simpl in H.
  { by injection H as <-. }
  apply bind_Ok in H as (s1 & H1 & H).
  rewrite (IH _ _ H l). rewrite !field_update by done.
  by eapply columnsLoop_keeps.
Qed.
End field.

Section field_position.
Context {A : Type} (field : Event -> A).
Hypothesis field_register : forall i e, field (registerCollision i e) = field e.
Hypothesis field_position : forall v e, field (set_position v e) = field e.

Lemma scanLeft_keeps rec event index cands :
  (forall s c i p s', rec s c i = Ok (p, s') ->
     forall l, field (obj s' l) = field (obj s l)) ->
  forall i s s', scanLeft rec event index cands i s = Ok s' ->
    forall l, field (obj s' l) = field (obj s l).
Proof.
  intros Hrec. induction cands as [|c rest IH]; intros i s s' H l; simpl in H.
  - by injection H as <-.
  - destruct (id (obj s c) =? id (obj s event))%Z.
    { by injection H as <-. }
    destruct (collide (obj s event) (obj s c)); [|by eapply IH].
    apply bind_Ok in H as ([p s2] & Hr & H).
    rewrite (IH _ _ _ H l). rewrite !field_update by done.
    rewrite (Hrec _ _ _ _ _ Hr l). by rewrite field_update.
Qed.

Lemma checkLeft_keeps fuel :
  forall s event index p s',
    checkLeft fuel s event index = Ok (p, s') ->
    forall l, field (obj s' l) = field (obj s l).
Proof.
  induction fuel as [|fuel IH]; intros s event index p s' H; simpl in H; [done|].
  destruct (global_events s) as [g|]; [|done].
  destruct (arrays s !! g) as [evs|]; [|done].
  apply bind_Ok in H as (s1 & H & Heq). injection Heq as _ <-.
  eapply scanLeft_keeps; [|exact H]. exact IH.
Qed.

Hypothesis field_slide : forall e, field (slideBack e) = field e.

Lemma positionPass_keeps fuel rest :
  forall e s s', positionPass fuel rest e s = Ok s' ->
    forall l, field (obj s' l) = field (obj s l).
Proof.
  induction rest as [|l0 rest IH]; intros e s s' H l; simpl in H.
  { by injection H as <-. }
  apply bind_Ok in H as ([p s1] & Hr & H).
  rewrite (IH _ _ _ H l). rewrite !field_update by done.
  by eapply checkLeft_keeps.
Qed.
End field_position.

Lemma field_registerCollision {A} (field : Event -> A) :
  (forall v e, field (set_collisions v e) = field e) ->
  forall i e, field (registerCollision i e) = field e.
Proof.
  intros H i e. unfold registerCollision.
  by destruct (newCollision (collisions e) i).
Qed.

Lemma field_slideBack {A} (field : Event -> A) :
  (forall v e, field (set_position v e) = field e) ->
  forall e, field (slideBack e) = field e.
Proof.
  intros H e. unfold slideBack.
  by destruct ((position e >? 1)%Z && (length (collisions e) <? 2)%nat).
Qed.

Lemma columnsLoop_painted evs event cs :
  forall s s', columnsLoop evs event cs s = Ok s' -> painted s s'.
Proof.
  induction cs as [|c cs IH]; intros s s' H; simpl in H.
  { injection H as <-. apply painted_refl. }
  destruct (evs !! c) as [other|]; [|done].
  eapply painted_trans; [|by eapply IH].
  eapply painted_trans; by apply painted_update.
Qed.

Lemma geometryPass_painted evs rest :
  forall s s', geometryPass evs rest s = Ok s' -> painted s s'.
Proof.
  induction rest as [|event rest IH]; intros s s' H; simpl in H.
  { injection H as <-. apply painted_refl. }
  apply bind_Ok in H as (s1 & H1 & H).
  eapply painted_trans; [by eapply columnsLoop_painted|].
  eapply painted_trans; [|by eapply IH].
  eapply painted_trans; by apply painted_update.
Qed.

Lemma positionPass_same_shape fuel rest :
  forall e s s', positionPass fuel rest e s = Ok s' -> same_shape s s'.
Proof.
  induction rest as [|l rest IH]; intros e s s' H; simpl in H.
  { injection H as <-. apply same_shape_refl. }
  apply bind_Ok in H as ([p s1] & Hr & H).
  eapply same_shape_trans; [by eapply checkLeft_same_shape|].
  eapply same_shape_trans; [|by eapply IH].
  eapply same_shape_trans; [by apply (same_shape_update s1 l (set_position p))|].
  apply same_shape_update, raw_slideBack.
Qed.

Section boxes.
Variable arr : list nat.
Hypothesis arr_nodup : NoDup arr.

Lemma columnsLoop_narrow event n cs :
  forall s s',
    ranged arr s -> event < length (objects s) ->
    columnsLoop arr event cs s = Ok s' ->
    (forall k l, arr !! k = Some l -> (position (obj s l) + 1 ≤ n)%Z) ->
    (columns (obj s event) ≤ n)%Z ->
    narrow arr n s -> narrow arr n s' /\ (columns (obj s' event) ≤ n)%Z.
Proof.
  induction cs as [|c cs IH]; intros s s' Hrg Hev H Hpos Hcol Hn; simpl in H.
  { by injection H as <-. }
  destruct (arr !! c) as [other|] eqn:Hother; [|done].
  set (v := Z.max (columns (obj s event)) (position (obj s other) + 1)) in *.
  set (s1 := update s event (set_columns v)) in *.
  set (s2 := update s1 other (set_columns (columns (obj s1 event)))) in *.
  assert (Hoth : other < length (objects s1)).
  { unfold s1. rewrite length_update. by eapply Hrg. }
  assert (Hv : columns (obj s1 event) = v).
  { unfold s1. by rewrite obj_update_eq. }
  assert (Hvn : (v ≤ n)%Z).
  { unfold v. specialize (Hpos c other Hother). lia. }
  assert (Hp1 : painted s s1) by by apply painted_update.
  assert (Hp2 : painted s1 s2) by by apply painted_update.
  assert (Hp : painted s s2) by by eapply painted_trans.
  assert (Hall : forall l, (columns (obj s l) ≤ n)%Z -> (columns (obj s2 l) ≤ n)%Z).
  { intros l Hl. unfold s2. rewrite obj_update. case_decide; [simpl; lia|].
    unfold s1. rewrite obj_update. case_decide; [simpl; lia|done]. }
  apply (IH s2 s'); [|by rewrite (painted_length _ _ Hp)|done| | |].
  - eapply ranged_same_shape; [done|apply Hp].
  - intros k l Hk. rewrite (pt_position _ _ Hp). by eapply Hpos.
  - by apply Hall.
  - intros k l Hk. apply Hall. by eapply Hn.
Qed.

(** No turn takes the [columns] of an event beyond a bound on the
    columns the events are in. *)
Lemma geometryPass_narrow n rest :
  forall s s',
    ranged arr s -> rest ⊆ arr ->
    geometryPass arr rest s = Ok s' ->
    (forall k l, arr !! k = Some l -> (position (obj s l) + 1 ≤ n)%Z) ->
    narrow arr n s -> narrow arr n s'.
Proof.
  induction rest as [|event rest IH]; intros s s' Hrg Hsub H Hpos Hn; simpl in H.
  { by injection H as <-. }
  apply bind_Ok in H as (s1 & H1 & H).
  assert (Hin : event ∈ arr) by (apply Hsub; by left).
  apply list_elem_of_lookup in Hin as [ke Hke].
  assert (Hev : event < length (objects s)) by by eapply Hrg.
  destruct (columnsLoop_narrow event n _ s s1 Hrg Hev H1 Hpos) as [Hn1 _];
    [by eapply Hn|done|].
  assert (Hp1 : painted s s1) by by eapply columnsLoop_painted.
  set (s2 := update s1 event _) in H.
  set (s3 := update s2 event _) in H.
  assert (Hp2 : painted s1 s2) by by apply painted_update.
  assert (Hp3 : painted s2 s3) by by apply painted_update.
  assert (Hp : painted s s3) by eauto using painted_trans.
  apply (IH s3 s'); [| |done| |].
  - eapply ranged_same_shape; [done|apply Hp].
  - intros x Hx. apply Hsub. by right.
  - intros k l Hk. rewrite (pt_position _ _ Hp). by eapply Hpos.
  - intros k l Hk. unfold s3, s2. rewrite !columns_update by done. by eapply Hn1.
Qed.

(** The box of an event is computed at its turn, from the [columns] it
    has then, which is above its column if the event is in column 0 or
    an earlier turn has written to it. *)
Lemma geometryPass_boxed s s' k l :
  ranged arr s -> linked arr s ->
  geometryPass arr arr s = Ok s' -> arr !! k = Some l ->
  wide s l \/ (exists j, j < k /\ j ∈ collisions (obj s l)) ->
  boxed (obj s' l).
Proof.
  intros Hrg Hlk H Hl Hw.
  pose proof (take_drop_middle _ _ _ Hl) as Harr.
  rewrite <- Harr in H at 2. rewrite geometryPass_app in H.
  apply bind_Ok in H as (sa & Ha & H). simpl in H.
  apply bind_Ok in H as (sb & Hb & H).
  set (sc := update (update sb l _) l _) in H.
  assert (Hpa : painted s sa) by by eapply geometryPass_painted.
  assert (Hrga : ranged arr sa) by exact (ranged_same_shape arr s sa Hrg (pt_shape _ _ Hpa)).
  assert (Hla : l < length (objects sa)) by by eapply Hrga.
  assert (Hwa : wide sa l).
  { apply (geometryPass_wide arr (l :: drop (S k) arr) (take k arr) l [] s sa);
      try done.
    destruct Hw as [?|(j & Hj & Hin)]; [by left|right].
    destruct (Hlk k l j Hl Hin) as (lj & Hlj & _ & _ & Hk).
    exists lj, k. split_and!; [|done..].
    apply list_elem_of_lookup. exists j. by rewrite lookup_take_lt. }
  assert (Hwb : wide sb l).
  { apply (columnsLoop_wide arr l l (reverse (collisions (obj sa l))) sa sb); auto. }
  assert (Hpb : painted sa sb) by by eapply columnsLoop_painted.
  assert (Hlb : l < length (objects sb)) by by rewrite (painted_length _ _ Hpb).
  assert (Hnotin : l ∉ drop (S k) arr).
  { intros Hin. apply list_elem_of_lookup in Hin as [i Hi].
    rewrite lookup_drop in Hi.
    pose proof (NoDup_lookup _ _ _ _ arr_nodup Hi Hl). lia. }
  assert (Hpc : painted sc s') by by eapply geometryPass_painted.
  exists (columns (obj sb l)). unfold wide in Hwb.
  rewrite (pt_position _ _ Hpc).
  rewrite (geometryPass_keeps width (fun _ _ => eq_refl) _ _ _ _ H l Hnotin).
  rewrite (geometryPass_keeps left (fun _ _ => eq_refl) _ _ _ _ H l Hnotin).
  unfold sc. rewrite obj_update_eq by by rewrite length_update.
  rewrite obj_update_eq by done. simpl. split_and!; [lia|done..].
Qed.
End boxes.

(** A box computed for a column at or right of column 0 is within the
    600 pixels that start at pixel 10. *)
Lemma boxed_within e :
  (0 ≤ position e)%Z -> boxed e ->
  (10 ≤ left e)%Z /\ (0 ≤ width e)%Z /\ (left e + width e ≤ 610)%Z.
Proof.
  intros Hp (c & Hc & Hw & Hl).
  assert (Hc0 : (0 < c)%Z) by lia.
  pose proof (Z.mul_div_le 600 c Hc0).
  assert (0 ≤ 600 / c)%Z by (apply Z.div_pos; lia).
  rewrite Hl, Hw. nia.
Qed.

(** ** What checkLeft changes *)

Lemma grows_refl s : grows s s.
Proof. by intros l. Qed.

Lemma grows_trans s1 s2 s3 : grows s1 s2 -> grows s2 s3 -> grows s1 s3.
Proof. intros H1 H2 l. etrans; [apply H1|apply H2]. Qed.

Lemma grows_update s l f :
  (forall e, collisions e `prefix_of` collisions (f e)) -> grows s (update s l f).
Proof.
  intros Hf l'. rewrite obj_update. case_decide as H; [|done].
  destruct H as [-> _]. apply Hf.
Qed.

Lemma scanLeft_grows rec event index cands :
  (forall s c i p s', rec s c i = Ok (p, s') -> grows s s') ->
  forall i s s', scanLeft rec event index cands i s = Ok s' -> grows s s'.
Proof.
  intros Hrec. induction cands as [|c rest IH]; intros i s s' H; simpl in H.
  - injection H as <-. apply grows_refl.
  - destruct (id (obj s c) =? id (obj s event))%Z.
    { injection H as <-. apply grows_refl. }
    destruct (collide (obj s event) (obj s c)); [|by eapply IH].
    apply bind_Ok in H as ([p s2] & Hr & H).
    eapply grows_trans; [apply grows_update, prefix_registerCollision|].
    eapply grows_trans; [by eapply Hrec|].
    eapply grows_trans; [|by eapply IH].
    eapply grows_trans;
      [apply (grows_update s2 event (set_position (p + 1))); by intros e|].
    apply grows_update, prefix_registerCollision.
Qed.

Lemma checkLeft_grows fuel :
  forall s event index p s',
    checkLeft fuel s event index = Ok (p, s') -> grows s s'.
Proof.
  induction fuel as [|fuel IH]; intros s event index p s' H; simpl in H; [done|].
  destruct (global_events s) as [g|]; [|done].
  destruct (arrays s !! g) as [evs|]; [|done].
  apply bind_Ok in H as (s1 & H & Heq). injection Heq as _ <-.
  eapply scanLeft_grows; [|exact H]. exact IH.
Qed.

Lemma checkLeft_result fuel s event index p s' :
  checkLeft fuel s event index = Ok (p, s') -> p = position (obj s' event).
Proof.
  destruct fuel as [|fuel]; simpl; [done|].
  destruct (global_events s) as [g|]; [|done].
  destruct (arrays s !! g) as [evs|]; [|done].
  intros H. apply bind_Ok in H as (s1 & H & Heq). by injection Heq as <- <-.
Qed.

(** X1: whatever the store of event objects, a call of [checkLeft] that
    returns has changed nothing but [position] and [collisions] fields:
    the arrays and the binding of [events] are as they were, every object
    has its other fields as before, and the collisions of every object
    have only been appended to.  The value returned is the [position] the
    event is left with. *)
Theorem checkLeft_writes_position_and_collisions (fuel : nat) (s : State)
    (event index : nat) (p : Z) (s' : State) :
  checkLeft fuel s event index = Ok (p, s') ->
  arrays s' = arrays s /\ global_events s' = global_events s /\
  length (objects s') = length (objects s) /\
  (forall l, fixed (obj s' l) = fixed (obj s l)) /\
  grows s s' /\
  p = position (obj s' event).
Proof.
  intros H.
  destruct (checkLeft_same_shape fuel s event index p s' H) as (Ha & Hg & Hlen & _).
  split_and!; try done.
  - intros l.
    apply (checkLeft_keeps fixed (field_registerCollision fixed (fun _ _ => eq_refl))
             (fun _ _ => eq_refl) fuel s event index p s' H).
  - by eapply checkLeft_grows.
  - by eapply checkLeft_result.
Qed.

(** ** The order in which collisions are registered *)

Lemma registerCollision_present i e :
  i ∈ collisions e -> registerCollision i e = e.
Proof.
  intros H. apply newCollision_false in H. unfold registerCollision. by rewrite H.
Qed.

Lemma registerCollision_absent i e :
  i ∉ collisions e -> collisions (registerCollision i e) = collisions e ++ [i].
Proof.
  intros H. unfold registerCollision.
  destruct (newCollision (collisions e) i) eqn:Hn; [done|].
  by apply newCollision_false in Hn.
Qed.

Lemma sorted_snoc (l : list nat) x :
  StronglySorted lt l -> (forall y, y ∈ l -> y < x) -> StronglySorted lt (l ++ [x]).
Proof.
  intros Hl Hx. apply StronglySorted_app_2; [|done|repeat constructor].
  intros y z Hy Hz. apply list_elem_of_singleton in Hz as ->. by apply Hx.
Qed.

Lemma update_same s l f :
  f (obj s l) = obj s l -> forall l', obj (update s l f) l' = obj s l'.
Proof.
  intros Hf l'. rewrite obj_update. case_decide as H; [|done].
  destruct H as [-> _]. done.
Qed.

Section ascending.
Variables (arr : list nat) (g m : nat).

Lemma full_same s s' :
  full arr m s -> same_shape s s' ->
  (forall l, collisions (obj s' l) = collisions (obj s l)) ->
  full arr m s'.
Proof.
  intros Hf Hs Hc a b la lb Ha Hb Hab Hla Hlb Hcol.
  rewrite Hc. rewrite (same_shape_collide _ _ _ _ Hs) in Hcol.
  by eapply (Hf a b).
Qed.

Lemma ids_index s j i cj ci :
  NoDup (ids s arr) -> arr !! j = Some cj -> arr !! i = Some ci ->
  id (obj s cj) = id (obj s ci) -> j = i.
Proof.
  intros Hids Hj Hi Heq.
  apply (NoDup_lookup (ids s arr) j i (id (obj s cj))); [done|..];
    unfold ids; rewrite list_lookup_fmap.
  - by rewrite Hj.
  - rewrite Hi. simpl. by rewrite Heq.
Qed.

(** Below [m], where every overlap is registered, a scan registers
    nothing new. *)
Lemma scanLeft_silent rec i c :
  arr !! i = Some c -> i < m ->
  (forall s j cj q s',
     aliased arr g s -> NoDup (ids s arr) -> full arr m s ->
     arr !! j = Some cj -> j < m -> rec s cj j = Ok (q, s') ->
     same_shape s s' /\ forall l, collisions (obj s' l) = collisions (obj s l)) ->
  forall rest pre s s',
    arr = pre ++ rest -> length pre ≤ i ->
    aliased arr g s -> NoDup (ids s arr) -> full arr m s ->
    scanLeft rec c i rest (length pre) s = Ok s' ->
    same_shape s s' /\ forall l, collisions (obj s' l) = collisions (obj s l).
Proof.
  intros Hi Him Hrec.
  induction rest as [|d rest IH]; intros pre s s' Harr Hpre Hal Hids Hf H; simpl in H.
  { injection H as <-. split; [apply same_shape_refl|done]. }
  assert (Hd : arr !! length pre = Some d).
  { rewrite Harr. by rewrite list_lookup_middle. }
  destruct (Z.eqb_spec (id (obj s d)) (id (obj s c))) as [|Hid].
  { injection H as <-. split; [apply same_shape_refl|done]. }
  assert (Hlt : length pre < i).
  { destruct (decide (length pre = i)) as [Heq|]; [|lia].
    rewrite Heq in Hd. congruence. }
  assert (Harr' : arr = (pre ++ [d]) ++ rest) by (by rewrite <- app_assoc).
  assert (Hlen : S (length pre) = length (pre ++ [d])).
  { rewrite length_app. simpl. lia. }
  rewrite Hlen in H.
  destruct (collide (obj s c) (obj s d)) eqn:Hcol;
    [|by eapply (IH (pre ++ [d])); [|lia|..]].
  apply bind_Ok in H as ([q s2] & Hr & H).
  set (j := length pre) in *.
  assert (Hj_in : j ∈ collisions (obj s c)) by (eapply (Hf i j); try done; lia).
  assert (Hi_in : i ∈ collisions (obj s d)).
  { eapply (Hf j i); try done; [lia..|]. by rewrite collide_sym. }
  set (s1 := update s c (registerCollision j)) in *.
  assert (Hobj1 : forall l, obj s1 l = obj s l).
  { apply update_same. by apply registerCollision_present. }
  assert (Hs1 : same_shape s s1) by apply same_shape_update, raw_registerCollision.
  assert (Hc1 : forall l, collisions (obj s1 l) = collisions (obj s l)).
  { intros l. by rewrite Hobj1. }
  destruct (Hrec s1 j d q s2) as [Hs12 Hc12]; try done.
  { by eapply aliased_same_shape. }
  { by rewrite (same_shape_ids _ _ _ Hs1). }
  { by eapply full_same. }
  { lia. }
  set (s3 := update s2 c (set_position (q + 1))) in *.
  set (s4 := update s3 d (registerCollision i)) in *.
  assert (Hc3 : forall l, collisions (obj s3 l) = collisions (obj s l)).
  { intros l. unfold s3. rewrite (field_update collisions) by done.
    by rewrite Hc12, Hc1. }
  assert (Hobj4 : forall l, obj s4 l = obj s3 l).
  { apply update_same. apply registerCollision_present. by rewrite Hc3. }
  assert (Hc4 : forall l, collisions (obj s4 l) = collisions (obj s l)).
  { intros l. by rewrite Hobj4. }
  assert (Hs4 : same_shape s s4).
  { eapply same_shape_trans; [exact Hs1|].
    eapply same_shape_trans; [exact Hs12|].
    eapply same_shape_trans;
      [by apply (same_shape_update s2 c (set_position (q + 1)))|].
    apply same_shape_update, raw_registerCollision. }
  destruct (IH (pre ++ [d]) s4 s') as [Hs' Hc']; try done.
  { lia. }
  { by eapply aliased_same_shape. }
  { by rewrite (same_shape_ids _ _ _ Hs4). }
  { by eapply full_same. }
  split; [by eapply same_shape_trans|]. intros l. by rewrite Hc', Hc4.
Qed.

Lemma checkLeft_silent fuel :
  forall s i c q s',
    aliased arr g s -> NoDup (ids s arr) -> full arr m s ->
    arr !! i = Some c -> i < m -> checkLeft fuel s c i = Ok (q, s') ->
    same_shape s s' /\ forall l, collisions (obj s' l) = collisions (obj s l).
Proof.
  induction fuel as [|fuel IH]; intros s i c q s' Hal Hids Hf Hi Him H; [done|].
  simpl in H. pose proof Hal as (Hg & Ha & _). rewrite Hg, Ha in H.
  apply bind_Ok in H as (t & H & Heq). injection Heq as _ <-.
  apply (scanLeft_silent (checkLeft fuel) i c Hi Him IH arr [] s t); try done.
  simpl. lia.
Qed.
End ascending.

Section turn.
Variables (arr : list nat) (g m : nat).
Hypothesis arr_nodup : NoDup arr.

(** The scan of the event at index [m] registers the candidates it
    overlaps in ascending order, and [m] at the end of their
    collisions. *)
Lemma scanLeft_ascending fuel lm :
  arr !! m = Some lm ->
  forall rest pre s s',
    arr = pre ++ rest -> length pre ≤ m ->
    aliased arr g s -> NoDup (ids s arr) ->
    ascending arr s -> scanning arr m (length pre) s ->
    full arr m s -> met arr m (length pre) s ->
    scanLeft (checkLeft fuel) lm m rest (length pre) s = Ok s' ->
    same_shape s s' /\ ascending arr s' /\ scanning arr m m s' /\
    full arr m s' /\ met arr m m s'.
Proof.
  intros Hm.
  assert (Hm_lt : m < length arr) by by eapply lookup_lt_Some.
  induction rest as [|d rest IH];
    intros pre s s' Harr Hpre Hal Hids Hasc Hscan Hf Hmet H; simpl in H.
  { rewrite app_nil_r in Harr. subst pre. lia. }
  assert (Hd : arr !! length pre = Some d).
  { rewrite Harr. by rewrite list_lookup_middle. }
  set (j := length pre) in *.
  destruct (Z.eqb_spec (id (obj s d)) (id (obj s lm))) as [Hid|Hid].
  { injection H as <-.
    assert (j = m) as -> by exact (ids_index arr s j m d lm Hids Hd Hm Hid).
    split; [apply same_shape_refl|done]. }
  assert (Hlt : j < m).
  { destruct (decide (j = m)) as [Heq|]; [|lia].
    rewrite Heq in Hd. congruence. }
  assert (Hne : d <> lm).
  { intros ->. pose proof (NoDup_lookup _ _ _ _ arr_nodup Hm Hd). lia. }
  assert (Harr' : arr = (pre ++ [d]) ++ rest) by (by rewrite <- app_assoc).
  assert (Hlen : S j = length (pre ++ [d])).
  { rewrite length_app. simpl. unfold j. lia. }
  rewrite Hlen in H.
  destruct (collide (obj s lm) (obj s d)) eqn:Hcol.
  2: { apply (IH (pre ++ [d]) s s'); try done; rewrite <- Hlen; [lia| |].
       - intros k l x Hk Hx. destruct (Hscan k l x Hk Hx) as [?|[[? ?]|[? ?]]];
           [by left|right; left; split; [done|lia]|right; right; split; [done|lia]].
       - intros j' cj lm' Hj' Hcj Hlm' Hc.
         assert (lm' = lm) as -> by congruence.
         destruct (decide (j' = j)) as [->|].
         + assert (cj = d) as -> by congruence. congruence.
         + apply (Hmet j' cj lm); [lia|done..]. }
  apply bind_Ok in H as ([q s2] & Hr & H).
  pose proof Hal as (_ & _ & Hrg).
  assert (Hlm_len : lm < length (objects s)) by by eapply Hrg.
  assert (Hd_len : d < length (objects s)) by by eapply Hrg.
  assert (Hj_new : j ∉ collisions (obj s lm)).
  { intros Hin. destruct (Hscan m lm j Hm Hin) as [[? _]|[[_ ?]|[? _]]]; lia. }
  assert (Hlm_old : forall x, x ∈ collisions (obj s lm) -> x < j).
  { intros x Hx. destruct (Hscan m lm x Hm Hx) as [[? _]|[[_ ?]|[_ ?]]]; lia. }
  set (s1 := update s lm (registerCollision j)) in *.
  assert (Hs1 : same_shape s s1) by apply same_shape_update, raw_registerCollision.
  assert (Hc1 : forall l, collisions (obj s1 l) =
            if decide (l = lm) then collisions (obj s lm) ++ [j]
            else collisions (obj s l)).
  { intros l. unfold s1. rewrite obj_update_in by done.
    case_decide as Hl; [subst l; by apply registerCollision_absent|done]. }
  assert (Hf1 : full arr m s1).
  { intros a b la lb Ha Hb Hab Hla Hlb Hc. rewrite Hc1.
    rewrite (same_shape_collide _ _ _ _ Hs1) in Hc.
    case_decide as Hl; [|by eapply (Hf a b)].
    subst la. pose proof (NoDup_lookup _ _ _ _ arr_nodup Hm Hla). lia. }
  destruct (checkLeft_silent arr g m fuel s1 j d q s2) as [Hs12 Hc12];
    try done.
  { by eapply aliased_same_shape. }
  { by rewrite (same_shape_ids _ _ _ Hs1). }
  set (s3 := update s2 lm (set_position (q + 1))) in *.
  set (s4 := update s3 d (registerCollision m)) in *.
  assert (Hc3 : forall l, collisions (obj s3 l) = collisions (obj s1 l)).
  { intros l. unfold s3. rewrite (field_update collisions) by done. apply Hc12. }
  assert (Hs3 : same_shape s s3).
  { eapply same_shape_trans; [exact Hs1|].
    eapply same_shape_trans; [exact Hs12|].
    by apply (same_shape_update s2 lm (set_position (q + 1))). }
  assert (Hd_old : forall x, x ∈ collisions (obj s d) -> x < m).
  { intros x Hx. destruct (Hscan j d x Hd Hx) as [[_ ?]|[[? _]|[_ ?]]]; lia. }
  assert (Hm_new : m ∉ collisions (obj s3 d)).
  { rewrite Hc3, Hc1. case_decide; [done|]. intros Hin.
    specialize (Hd_old m Hin). lia. }
  assert (Hd_len3 : d < length (objects s3)).
  { destruct Hs3 as (_ & _ & -> & _). done. }
  assert (Hc4 : forall l, collisions (obj s4 l) =
            if decide (l = d) then collisions (obj s d) ++ [m]
            else if decide (l = lm) then collisions (obj s lm) ++ [j]
            else collisions (obj s l)).
  { intros l. unfold s4. rewrite obj_update_in by done.
    case_decide as Hl.
    - subst l. rewrite (registerCollision_absent m _ Hm_new), Hc3, Hc1.
      by case_decide.
    - by rewrite Hc3, Hc1. }
  assert (Hs4 : same_shape s s4).
  { eapply same_shape_trans; [exact Hs3|].
    apply same_shape_update, raw_registerCollision. }
  assert (Hgrow : forall l x, x ∈ collisions (obj s l) -> x ∈ collisions (obj s4 l)).
  { intros l x Hx. rewrite Hc4. repeat case_decide; subst;
      rewrite ?elem_of_app; auto. }
  apply (IH (pre ++ [d]) s4 s') in H; try done.
  - destruct H as (Hs' & Hrest). split; [by eapply same_shape_trans|done].
  - rewrite <- Hlen. lia.
  - by eapply aliased_same_shape.
  - by rewrite (same_shape_ids _ _ _ Hs4).
  - intros k l Hk. rewrite Hc4. repeat case_decide; subst.
    + apply sorted_snoc; [by eapply Hasc|done].
    + apply sorted_snoc; [by eapply Hasc|done].
    + by eapply Hasc.
  - rewrite <- Hlen. intros k l x Hk Hx. rewrite Hc4 in Hx.
    assert (Hold : x ∈ collisions (obj s l) ->
              (k < m /\ x < m) \/ (k = m /\ x < S j) \/ (x = m /\ k < S j)).
    { intros Hx'. destruct (Hscan k l x Hk Hx') as [?|[[? ?]|[? ?]]];
        [by left|right; left; split; [done|lia]|right; right; split; [done|lia]]. }
    repeat case_decide; subst; [| |by apply Hold];
      apply elem_of_app in Hx as [Hx|Hx]; try (by apply Hold);
      apply list_elem_of_singleton in Hx as ->.
    + pose proof (NoDup_lookup _ _ _ _ arr_nodup Hk Hd) as ->.
      right; right. split; [done|lia].
    + pose proof (NoDup_lookup _ _ _ _ arr_nodup Hk Hm) as ->.
      right; left. split; [done|lia].
  - intros a b la lb Ha Hb Hab Hla Hlb Hc.
    rewrite (same_shape_collide _ _ _ _ Hs4) in Hc.
    apply Hgrow. by eapply (Hf a b).
  - rewrite <- Hlen. intros j' cj lm' Hj' Hcj Hlm' Hc.
    assert (lm' = lm) as -> by congruence.
    rewrite (same_shape_collide _ _ _ _ Hs4) in Hc.
    destruct (decide (j' = j)) as [->|].
    + assert (cj = d) as -> by congruence. rewrite !Hc4.
      repeat case_decide; try congruence.
      rewrite !elem_of_app, !list_elem_of_singleton. auto.
    + destruct (Hmet j' cj lm) as [? ?]; [lia|done..|]. split; by apply Hgrow.
Qed.
End turn.

(** The position loop keeps the collisions in ascending order. *)
Lemma positionPass_ascending arr g fuel rest :
  NoDup arr ->
  forall pre s s',
    arr = pre ++ rest -> aliased arr g s -> NoDup (ids s arr) ->
    ascending arr s -> scanning arr (length pre) 0 s -> full arr (length pre) s ->
    positionPass fuel rest (length pre) s = Ok s' ->
    ascending arr s'.
Proof.
  intros Hnd.
  induction rest as [|l rest IH]; intros pre s s' Harr Hal Hids Hasc Hscan Hf H;
    simpl in H.
  { by injection H as <-. }
  apply bind_Ok in H as ([p t] & Hr & H).
  set (m := length pre) in *.
  assert (Hm : arr !! m = Some l).
  { rewrite Harr. by rewrite list_lookup_middle. }
  pose proof (checkLeft_result _ _ _ _ _ _ Hr) as ->.
  destruct fuel as [|fuel]; [done|]. simpl in Hr.
  pose proof Hal as (Hg & Ha & Hrg). rewrite Hg, Ha in Hr.
  apply bind_Ok in Hr as (t' & Hr & Heq). injection Heq as _ <-.
  destruct (scanLeft_ascending arr g m Hnd fuel l Hm arr [] s t')
    as (Hst & Hasc' & Hscan' & Hf' & Hmet'); try done.
  { simpl. lia. }
  { intros j cj lm Hj. simpl in Hj. lia. }
  set (s3 := update (update t' l (set_position (position (obj t' l)))) l slideBack) in *.
  assert (Hl1 : l < length (objects t')).
  { destruct Hst as (_ & _ & -> & _). by eapply Hrg. }
  assert (Hs3 : same_shape s s3).
  { eapply same_shape_trans; [exact Hst|apply turn_same_shape]. }
  assert (C3 : forall l', collisions (obj s3 l') = collisions (obj t' l')).
  { intros l'. unfold s3. rewrite turn_obj by done.
    case_decide; [apply collisions_slideBack|done]. }
  assert (Hst3 : same_shape t' s3) by apply turn_same_shape.
  replace (S m) with (length (pre ++ [l])) in H
    by (rewrite length_app; simpl; unfold m; lia).
  apply IH in H; [done|by rewrite <- app_assoc|by eapply aliased_same_shape| | | |].
  - by rewrite (same_shape_ids _ _ _ Hs3).
  - intros k lk Hk. rewrite C3. by eapply Hasc'.
  - assert (Hlen : length (pre ++ [l]) = S m) by (rewrite length_app; simpl; unfold m; lia).
    rewrite Hlen. intros k lk x Hk Hx. rewrite C3 in Hx.
    destruct (Hscan' k lk x Hk Hx) as [[? ?]|[[? ?]|[? ?]]]; left; lia.
  - assert (Hlen : length (pre ++ [l]) = S m) by (rewrite length_app; simpl; unfold m; lia).
    rewrite Hlen. intros a b la lb Ha' Hb Hab Hla Hlb Hc. rewrite C3.
    rewrite (same_shape_collide _ _ _ _ Hst3) in Hc.
    destruct (decide (a = m)) as [->|Han].
    + assert (la = l) as -> by congruence.
      apply (Hmet' b lb l); [lia|done..].
    + destruct (decide (b = m)) as [->|Hbn].
      * assert (lb = l) as -> by congruence.
        apply (Hmet' a la l); [lia|done..|]. by rewrite collide_sym.
      * apply (Hf' a b la lb); try done; lia.
Qed.

(** ** What the passes establish *)

Lemma layout_facts fuel s events evs :
  input_ok s events evs -> length evs ≤ fuel ->
  exists arr s3 s',
    returned fuel s events = Ok (obj s' <$> arr) /\
    arr ≡ₚ evs /\ NoDup arr /\ NoDup (ids s3 arr) /\ ranged arr s3 /\
    (forall l, raw (obj s' l) = raw (obj s l)) /\
    resolved arr s3 /\ ranked arr (length arr) s3 /\
    complete arr (length arr) s3 /\ tidy arr s3 /\
    (forall k l, arr !! k = Some l ->
       top (obj s' l) = start (obj s' l) /\
       duration (obj s' l) = (end_ (obj s' l) - start (obj s' l))%Z) /\
    painted s3 s' /\ geometryPass arr arr s3 = Ok s' /\ ascending arr s3.
Proof.
  intros Hin Hfuel.
  destruct (layOutDay_passes fuel s events evs Hin Hfuel)
    as (arr & s2 & s3 & s' & H & Harr & Ha & Hnd & Hal & Hids & Hinit & Hraw2 & H3 & Hgeo & Hs23 & Hp & _).
  assert (Hfresh : forall k l, arr !! k = Some l -> fresh (obj s2 l)).
  { intros k l Hk. by rewrite (Hinit k l Hk). }
  assert (Hgr2 : graded arr s2).
  { intros k l Hk. right. destruct (Hfresh k l Hk) as (-> & -> & _).
    simpl. split; [done|lia]. }
  assert (Hres3 : resolved arr s3).
  { by destruct (positionPass_resolved arr events Hnd fuel arr [] s2 s3)
      as [? _]; [done|done|by apply fresh_resolved|done|]. }
  assert (Hraw : forall l, raw (obj s' l) = raw (obj s2 l)).
  { intros l. destruct Hp as [(_ & _ & _ & ->) _ _].
    by destruct Hs23 as (_ & _ & _ & ->). }
  exists arr, s3, s'. split_and!; try done.
  - unfold returned. rewrite H. simpl. unfold snapshot.
    by rewrite (list_lookup_total_correct _ _ _ Ha).
  - rewrite Harr. apply array_sort_perm.
  - by rewrite (same_shape_ids _ _ _ Hs23).
  - destruct Hal as (_ & _ & Hrg). by eapply ranged_same_shape.
  - intros l. rewrite Hraw. apply Hraw2.
  - apply (positionPass_ranked arr events Hnd fuel arr [] s2 s3); try done.
    intros k l Hk. simpl in Hk. lia.
  - apply (positionPass_complete arr events Hnd fuel arr [] s2 s3); try done.
    intros a b la lb _ Hb. simpl in Hb. lia.
  - apply (positionPass_tidy arr fuel arr 0 s2 s3); [done|].
    intros k l Hk. destruct (Hfresh k l Hk) as (_ & -> & _). apply NoDup_nil_2.
  - intros k l Hk.
    assert (Htop : top (obj s' l) = top (obj s2 l)).
    { rewrite (geometryPass_keeps_all top (fun _ _ => eq_refl) (fun _ _ => eq_refl)
                 (fun _ _ => eq_refl) _ _ _ _ Hgeo).
      apply (positionPass_keeps top (field_registerCollision top (fun _ _ => eq_refl))
               (fun _ _ => eq_refl) (field_slideBack top (fun _ _ => eq_refl))
               _ _ _ _ _ H3). }
    assert (Hdur : duration (obj s' l) = duration (obj s2 l)).
    { rewrite (geometryPass_keeps_all duration (fun _ _ => eq_refl) (fun _ _ => eq_refl)
                 (fun _ _ => eq_refl) _ _ _ _ Hgeo).
      apply (positionPass_keeps duration
               (field_registerCollision duration (fun _ _ => eq_refl))
               (fun _ _ => eq_refl) (field_slideBack duration (fun _ _ => eq_refl))
               _ _ _ _ _ H3). }
    rewrite Htop, Hdur. specialize (Hraw l). unfold raw in Hraw.
    injection Hraw as _ -> ->. rewrite (Hinit k l Hk). simpl.
    specialize (Hraw2 l). rewrite (Hinit k l Hk) in Hraw2. done.
  - apply (positionPass_ascending arr events fuel arr Hnd [] s2 s3); try done.
    + intros k l Hk. destruct (Hfresh k l Hk) as (_ & -> & _). constructor.
    + intros k l x Hk Hx. destruct (Hfresh k l Hk) as (_ & Hc & _).
      rewrite Hc in Hx. by apply elem_of_nil in Hx.
    + intros a b la lb Ha'. simpl in Ha'. lia.
Qed.

(** When the geometry loop starts, every event is in column 0 with
    [columns = 1], or has a collision with an event before it. *)
Lemma turn_ready arr s :
  resolved arr s -> ranked arr (length arr) s -> complete arr (length arr) s ->
  forall k l, arr !! k = Some l ->
    wide s l \/ (exists j, j < k /\ j ∈ collisions (obj s l)).
Proof.
  intros Hres Hrk Hco k l Hk.
  assert (Hlt : k < length arr) by by eapply lookup_lt_Some.
  assert (Hzero : position (obj s l) = 0%Z -> wide s l).
  { intros H0. unfold wide. rewrite H0, (rs_columns _ _ Hres k l Hk). lia. }
  destruct (Hrk k l Hlt Hk) as [Hpos|(H0 & _)]; [|left; auto].
  destruct (last (colliding s l arr 0)) as [p|] eqn:Hlast.
  - right. pose proof (last_Some_elem_of _ _ Hlast) as Hin.
    destruct (colliding_elem_1 s arr k l Hk arr [] p eq_refl (Nat.le_0_l _) Hin)
      as (Hpk & c & Hc & Hcol).
    exists p. split; [done|]. by eapply (Hco p k).
  - left. apply Hzero. apply last_None in Hlast.
    by rewrite Hpos, (depth_root s arr k l Hk Hlast).
Qed.

Lemma position_bounds arr s :
  ranked arr (length arr) s ->
  forall k l, arr !! k = Some l -> (0 ≤ position (obj s l) ≤ Z.of_nat k)%Z.
Proof.
  intros Hrk k l Hk.
  assert (Hlt : k < length arr) by by eapply lookup_lt_Some.
  pose proof (depth_nonneg s arr k). pose proof (depth_le_index s arr k l Hk).
  destruct (Hrk k l Hlt Hk) as [->|(-> & _)]; lia.
Qed.

(** ** What layOutDay leaves alone *)

Section frame.
Variables (arr : list nat) (g : nat).

Lemma scanLeft_untouched rec event index :
  event ∈ arr ->
  (forall s c i p s', c ∈ arr ->
     global_events s = Some g -> arrays s !! g = Some arr ->
     rec s c i = Ok (p, s') -> same_shape s s' /\ untouched arr s s') ->
  forall cands i s s',
    cands ⊆ arr -> global_events s = Some g -> arrays s !! g = Some arr ->
    scanLeft rec event index cands i s = Ok s' ->
    untouched arr s s'.
Proof.
  intros Hev Hrec. induction cands as [|c rest IH]; intros i s s' Hsub Hg Ha H;
    simpl in H.
  { by injection H as <-. }
  assert (Hc : c ∈ arr) by (apply Hsub; by left).
  assert (Hrest : rest ⊆ arr) by (intros x Hx; apply Hsub; by right).
  destruct (id (obj s c) =? id (obj s event))%Z.
  { by injection H as <-. }
  destruct (collide (obj s event) (obj s c)); [|by eapply IH].
  apply bind_Ok in H as ([p s2] & Hr & H).
  destruct (Hrec (update s event (registerCollision i)) c i p s2 Hc Hg Ha Hr)
    as [(Ha2 & Hg2 & _) Hu2].
  simpl in Ha2, Hg2.
  set (s4 := update (update s2 event (set_position (p + 1))) c
               (registerCollision index)) in H.
  assert (Hg4 : global_events s4 = Some g) by (simpl; congruence).
  assert (Ha4 : arrays s4 !! g = Some arr) by (simpl; congruence).
  intros l Hl. rewrite (IH (S i) s4 s' Hrest Hg4 Ha4 H l Hl). unfold s4.
  rewrite (untouched_update arr _ c _ Hc l Hl).
  rewrite (untouched_update arr _ event _ Hev l Hl).
  rewrite (Hu2 l Hl). by rewrite (untouched_update arr _ event _ Hev l Hl).
Qed.

Lemma checkLeft_untouched fuel :
  forall s event index p s',
    event ∈ arr -> global_events s = Some g -> arrays s !! g = Some arr ->
    checkLeft fuel s event index = Ok (p, s') ->
    same_shape s s' /\ untouched arr s s'.
Proof.
  induction fuel as [|fuel IH]; intros s event index p s' Hev Hg Ha H; [done|].
  split; [by eapply checkLeft_same_shape|].
  simpl in H. rewrite Hg, Ha in H.
  apply bind_Ok in H as (s1 & H & Heq). injection Heq as _ <-.
  eapply (scanLeft_untouched (checkLeft fuel) event index Hev); [|done..|exact H].
  intros s0 c i p0 s0' Hc Hg0 Ha0 Hr. by eapply IH.
Qed.

Lemma positionPass_untouched fuel rest :
  forall e s s',
    rest ⊆ arr -> global_events s = Some g -> arrays s !! g = Some arr ->
    positionPass fuel rest e s = Ok s' ->
    untouched arr s s'.
Proof.
  induction rest as [|l rest IH]; intros e s s' Hsub Hg Ha H; simpl in H.
  { by injection H as <-. }
  assert (Hl : l ∈ arr) by (apply Hsub; by left).
  assert (Hrest : rest ⊆ arr) by (intros x Hx; apply Hsub; by right).
  apply bind_Ok in H as ([p s1] & Hr & H).
  destruct (checkLeft_untouched fuel s l e p s1 Hl Hg Ha Hr) as [(Ha1 & Hg1 & _) Hu1].
  set (s3 := update (update s1 l (set_position p)) l slideBack) in H.
  assert (Hg3 : global_events s3 = Some g) by (simpl; congruence).
  assert (Ha3 : arrays s3 !! g = Some arr) by (simpl; congruence).
  intros l0 Hl0. rewrite (IH (S e) s3 s' Hrest Hg3 Ha3 H l0 Hl0). unfold s3.
  rewrite (untouched_update arr _ l _ Hl l0 Hl0).
  rewrite (untouched_update arr _ l _ Hl l0 Hl0).
  apply (Hu1 l0 Hl0).
Qed.

Lemma columnsLoop_untouched event cs :
  forall s s',
    event ∈ arr -> columnsLoop arr event cs s = Ok s' -> untouched arr s s'.
Proof.
  induction cs as [|c cs IH]; intros s s' Hev H; simpl in H.
  { by injection H as <-. }
  destruct (arr !! c) as [other|] eqn:Hother; [|done].
  eapply untouched_trans; [|by eapply IH].
  eapply untouched_trans; apply untouched_update; [done|].
  by eapply list_elem_of_lookup_2.
Qed.

Lemma geometryPass_untouched rest :
  forall s s',
    rest ⊆ arr -> geometryPass arr rest s = Ok s' -> untouched arr s s'.
Proof.
  induction rest as [|event rest IH]; intros s s' Hsub H; simpl in H.
  { by injection H as <-. }
  assert (Hev : event ∈ arr) by (apply Hsub; by left).
  assert (Hrest : rest ⊆ arr) by (intros x Hx; apply Hsub; by right).
  apply bind_Ok in H as (s1 & H1 & H).
  eapply untouched_trans; [by eapply columnsLoop_untouched|].
  eapply untouched_trans; [|by eapply IH].
  eapply untouched_trans; by apply untouched_update.
Qed.
End frame.

(** X2: handed an array whose events have unique ids and start < end,
    on a page that has bound that array to the module-level [events],
    [layOutDay] returns and leaves the rest of the page alone: the
    objects that are not in the array are as they were, the other arrays
    hold what they held, [events] is bound as it was, and no event
    object has another [id], [start] or [end] than before. *)
Theorem layOutDay_touches_its_array_only (fuel : nat) (s : State) (events : nat)
    (evs : list nat) :
  input_ok s events evs -> length evs ≤ fuel ->
  exists s',
    layOutDay fuel s events = Ok s' /\
    (forall l, l ∉ evs -> obj s' l = obj s l) /\
    (forall a, a <> events -> arrays s' !! a = arrays s !! a) /\
    global_events s' = global_events s /\
    length (objects s') = length (objects s) /\
    (forall l, raw (obj s' l) = raw (obj s l)).
Proof.
  intros Hin Hfuel.
  destruct (layOutDay_passes fuel s events evs Hin Hfuel)
    as (arr & s2 & s3 & s' & H & Harr & Ha & Hnd & Hal & Hids & Hinit & Hraw2 & H3
        & Hgeo & Hs23 & Hp & Hun2 & Harr2 & Hg2 & Hlen2).
  assert (Hperm : arr ≡ₚ evs) by (rewrite Harr; apply array_sort_perm).
  destruct Hal as (Hg & Hga & Hrg).
  destruct Hs23 as (Ha3 & Hg3 & Hlen3 & Hraw3).
  destruct (pt_shape _ _ Hp) as (Ha' & Hg' & Hlen' & Hraw').
  exists s'. split_and!; try done.
  - intros l Hl. rewrite <- Hperm in Hl.
    rewrite (geometryPass_untouched arr arr s3 s' (reflexivity _) Hgeo l Hl).
    rewrite (positionPass_untouched arr events fuel arr 0 s2 s3
               (reflexivity _) Hg Hga H3 l Hl).
    apply Hun2. by rewrite <- Hperm.
  - intros a Hne. by rewrite Ha', Ha3, Harr2.
  - by rewrite Hg', Hg3.
  - by rewrite Hlen', Hlen3.
  - intros l. by rewrite Hraw', Hraw3.
Qed.

(** ** Further properties of the layout of a day *)

Lemma page_facts (input : list (Z * Z * Z)) :
  NoDup ((fun r => r.1.1) <$> input) ->
  Forall (fun r => r.1.2 < r.2)%Z input ->
  exists arr s3 s',
    layOutPage input = Ok (obj s' <$> arr) /\
    raw <$> (obj s' <$> arr) ≡ₚ input /\
    length arr = length input /\ NoDup arr /\ NoDup (ids s3 arr) /\ ranged arr s3 /\
    resolved arr s3 /\ ranked arr (length arr) s3 /\
    complete arr (length arr) s3 /\ tidy arr s3 /\
    (forall k l, arr !! k = Some l ->
       top (obj s' l) = start (obj s' l) /\
       duration (obj s' l) = (end_ (obj s' l) - start (obj s' l))%Z) /\
    painted s3 s' /\ geometryPass arr arr s3 = Ok s' /\ ascending arr s3.
Proof.
  intros Hid Ht.
  destruct (layout_facts (S (length input)) (page input) 0 (seq 0 (length input)))
    as (arr & s3 & s' & H & Hperm & Hnd & Hids & Hrg & Hraw & Hrest);
    auto using page_input_ok, page_fuel.
  exists arr, s3, s'. split; [exact H|]. split_and!; try tauto.
  - transitivity (raw <$> snapshot (page input) 0); [|by rewrite snapshot_page].
    unfold snapshot. simpl.
    rewrite <- !list_fmap_compose, Hperm.
    assert (Heq : forall l, (raw ∘ obj s') l = (raw ∘ obj (page input)) l)
      by (intros l; apply Hraw).
    by rewrite (list_fmap_ext _ _ _ (fun _ l _ => Heq l)).
  - by rewrite Hperm, length_seq.
Qed.

(** X3: for every input list of events with unique ids and start < end,
    the collisions of an event of the returned list are exactly the
    indices of the other events of the list that overlap it in time. *)
Theorem collisions_exactly_overlapping (input : list (Z * Z * Z)) :
  NoDup ((fun r => r.1.1) <$> input) ->
  Forall (fun r => r.1.2 < r.2)%Z input ->
  exists out, layOutPage input = Ok out /\
    forall i j ei ej, out !! i = Some ei -> out !! j = Some ej ->
      (j ∈ collisions ei <->
       i <> j /\ (start ei < end_ ej)%Z /\ (end_ ei > start ej)%Z).
Proof.
  intros Hid Ht.
  destruct (page_facts input Hid Ht)
    as (arr & s3 & s' & H & _ & _ & Hnd & _ & _ & Hres & _ & Hco & _ & _ & Hp & _).
  eexists. split; [exact H|]. intros i j ei ej Hi Hj.
  apply lookup_objects in Hi as (li & Hi & ->).
  apply lookup_objects in Hj as (lj & Hj & ->).
  rewrite (pt_collisions _ _ Hp).
  assert (Hcol : collide (obj s3 li) (obj s3 lj) = true <->
            (start (obj s' li) < end_ (obj s' lj))%Z /\
            (end_ (obj s' li) > start (obj s' lj))%Z).
  { rewrite <- (same_shape_collide _ _ _ _ (pt_shape _ _ Hp)).
    unfold collide. rewrite andb_true_iff, Z.ltb_lt, Z.gtb_lt. lia. }
  split.
  - intros Hin.
    destruct (rs_linked _ _ Hres i li j Hi Hin) as (lj' & Hlj' & Hne & Hc & _).
    assert (lj' = lj) as -> by congruence.
    split; [done|]. by apply Hcol.
  - intros (Hne & Hov). apply Hcol in Hov.
    assert (Hi_lt : i < length arr) by by eapply lookup_lt_Some.
    assert (Hj_lt : j < length arr) by by eapply lookup_lt_Some.
    destruct (decide (j < i)).
    + by eapply (Hco j i).
    + assert (Hin : i ∈ collisions (obj s3 lj)).
      { eapply (Hco i j); [lia|done..|]. by rewrite collide_sym. }
      destruct (rs_linked _ _ Hres j lj i Hj Hin) as (li' & Hli' & _ & _ & ?).
      congruence.
Qed.

(** X4: for every input list of events with unique ids and start < end,
    the collisions of an event of the returned list hold no index twice,
    do not hold the index of the event itself, and hold indices of events
    of the list only. *)
Theorem collisions_without_repeats (input : list (Z * Z * Z)) :
  NoDup ((fun r => r.1.1) <$> input) ->
  Forall (fun r => r.1.2 < r.2)%Z input ->
  exists out, layOutPage input = Ok out /\
    forall i e, out !! i = Some e ->
      NoDup (collisions e) /\ (i ∉ collisions e) /\
      forall j, j ∈ collisions e -> j < length out.
Proof.
  intros Hid Ht.
  destruct (page_facts input Hid Ht)
    as (arr & s3 & s' & H & _ & _ & Hnd & _ & _ & Hres & _ & _ & Htidy & _ & Hp & _).
  eexists. split; [exact H|]. intros i e He.
  apply lookup_objects in He as (l & Hl & ->).
  rewrite (pt_collisions _ _ Hp). split_and!.
  - exact (Htidy i l Hl).
  - intros Hin. by destruct (rs_linked _ _ Hres i l i Hl Hin) as (_ & _ & ? & _).
  - intros j Hin. destruct (rs_linked _ _ Hres i l j Hl Hin) as (lj & Hlj & _).
    rewrite length_fmap. by eapply lookup_lt_Some.
Qed.

(** X5: for every input list of events with unique ids and start < end,
    the column of the event at index [i] of the returned list is between
    0 and [i], and below the [columns] of the event, which is at most the
    number of events. *)
Theorem column_within_columns (input : list (Z * Z * Z)) :
  NoDup ((fun r => r.1.1) <$> input) ->
  Forall (fun r => r.1.2 < r.2)%Z input ->
  exists out, layOutPage input = Ok out /\
    forall i e, out !! i = Some e ->
      (0 ≤ position e ≤ Z.of_nat i)%Z /\
      (position e < columns e)%Z /\ (columns e ≤ Z.of_nat (length out))%Z.
Proof.
  intros Hid Ht.
  destruct (page_facts input Hid Ht)
    as (arr & s3 & s' & H & _ & _ & Hnd & _ & Hrg & Hres & Hrk & Hco & _ & _ & Hp & Hgeo & _).
  eexists. split; [exact H|]. intros i e He.
  apply lookup_objects in He as (l & Hl & ->).
  rewrite (pt_position _ _ Hp), length_fmap.
  pose proof (position_bounds arr s3 Hrk) as Hpos.
  split; [by apply Hpos|]. split.
  - assert (Hw : wide s' l); [|unfold wide in Hw; rewrite (pt_position _ _ Hp) in Hw; lia].
    apply (geometryPass_wide arr [] arr l [] s3 s'); try done.
    { by rewrite app_nil_r. }
    { apply Hres. }
    destruct (turn_ready arr s3 Hres Hrk Hco i l Hl) as [?|(j & _ & Hin)]; [by left|right].
    destruct (rs_linked _ _ Hres i l j Hl Hin) as (lj & Hlj & _ & _ & Hi).
    exists lj, i. split_and!; [|done..]. by eapply list_elem_of_lookup_2.
  - apply (geometryPass_narrow arr (Z.of_nat (length arr)) arr s3 s' Hrg) with i;
      try done.
    + intros k lk Hk. specialize (Hpos k lk Hk).
      apply lookup_lt_Some in Hk. lia.
    + intros k lk Hk. rewrite (rs_columns _ _ Hres k lk Hk).
      apply lookup_lt_Some in Hk. lia.
Qed.

(** The boxes of the returned events, and the events they are the boxes
    of. *)
Lemma page_boxes (input : list (Z * Z * Z)) :
  NoDup ((fun r => r.1.1) <$> input) ->
  Forall (fun r => r.1.2 < r.2)%Z input ->
  exists out, layOutPage input = Ok out /\ raw <$> out ≡ₚ input /\
    forall i e, out !! i = Some e ->
      top e = start e /\ duration e = (end_ e - start e)%Z /\
      left e = (position e * width e + 10)%Z /\
      (10 ≤ left e)%Z /\ (0 ≤ width e)%Z /\ (left e + width e ≤ 610)%Z.
Proof.
  intros Hid Ht.
  destruct (page_facts input Hid Ht)
    as (arr & s3 & s' & H & Hperm & _ & Hnd & _ & Hrg & Hres & Hrk & Hco & _ & Hbox & Hp & Hgeo & _).
  eexists. split; [exact H|]. split; [exact Hperm|]. intros i e He.
  apply lookup_objects in He as (l & Hl & ->).
  destruct (Hbox i l Hl) as [Htop Hdur].
  assert (Hb : boxed (obj s' l)).
  { apply (geometryPass_boxed arr Hnd s3 s' i l); try done; [apply Hres|].
    exact (turn_ready arr s3 Hres Hrk Hco i l Hl). }
  assert (Hpos : (0 ≤ position (obj s' l))%Z).
  { rewrite (pt_position _ _ Hp). by apply (position_bounds arr s3 Hrk i l). }
  destruct (boxed_within _ Hpos Hb) as (? & ? & ?).
  destruct Hb as (c & _ & _ & Hleft). done.
Qed.

(** X6: for every input list of events with unique ids and start < end,
    the box of every event of the returned list starts at the top at the
    start of the event, is as high as the event lasts, and lies between
    pixel 10 and pixel 610: [left = position * width + 10], [10 <= left],
    [0 <= width] and [left + width <= 610]. *)
Theorem boxes_within_canvas (input : list (Z * Z * Z)) :
  NoDup ((fun r => r.1.1) <$> input) ->
  Forall (fun r => r.1.2 < r.2)%Z input ->
  exists out, layOutPage input = Ok out /\
    forall i e, out !! i = Some e ->
      top e = start e /\ duration e = (end_ e - start e)%Z /\
      left e = (position e * width e + 10)%Z /\
      (10 ≤ left e)%Z /\ (0 ≤ width e)%Z /\ (left e + width e ≤ 610)%Z.
Proof.
  intros Hid Ht. destruct (page_boxes input Hid Ht) as (out & H & _ & Hb).
  by exists out.
Qed.

(** ** The column of an event, from the events before it *)



Section column.
Variables (arr : list nat) (s : State).
Hypothesis ids_nodup : NoDup (ids s arr).
Hypothesis s_resolved : resolved arr s.
Hypothesis s_ranked : ranked arr (length arr) s.
Hypothesis s_complete : complete arr (length arr) s.



End column.


(** ** registerCollision *)

(** X8: [registerCollision] adds an index to the collisions of an event,
    at the end, if it is not among them, and leaves the event as it is
    if it is: registering an index twice is registering it once. *)
Theorem registerCollision_once (id : nat) (this : Event) :
  id ∈ collisions (registerCollision id this) /\
  registerCollision id (registerCollision id this) = registerCollision id this /\
  (id ∈ collisions this -> registerCollision id this = this) /\
  (id ∉ collisions this ->
     collisions (registerCollision id this) = collisions this ++ [id]).
Proof.
  assert (Hin : id ∈ collisions this -> registerCollision id this = this).
  { intros H. apply newCollision_false in H. unfold registerCollision. by rewrite H. }
  assert (Hnew : id ∉ collisions this ->
            collisions (registerCollision id this) = collisions this ++ [id]).
  { intros H. unfold registerCollision.
    destruct (newCollision (collisions this) id) eqn:Hn; [done|].
    by apply newCollision_false in Hn. }
  assert (Hmem : id ∈ collisions (registerCollision id this)).
  { apply collisions_registerCollision. by right. }
  split_and!; try done.
  unfold registerCollision at 1. apply newCollision_false in Hmem. by rewrite Hmem.
Qed.

(** The collisions are kept in ascending order of index. *)

Lemma sorted_lt_ext (l1 l2 : list nat) :
  StronglySorted lt l1 -> StronglySorted lt l2 ->
  (forall x, x ∈ l1 <-> x ∈ l2) -> l1 = l2.
Proof.
  intros H1. revert l2. induction H1 as [|a l1 H1 IH Ha]; intros l2 H2 Hx.
  - destruct l2 as [|b l2]; [done|].
    exfalso. eapply (not_elem_of_nil b). apply Hx. left.
  - destruct H2 as [|b l2 H2 Hb].
    + exfalso. eapply (not_elem_of_nil a). apply Hx. left.
    + rewrite Forall_forall in Ha, Hb.
      assert (a = b) as <-.
      { assert (Ha2 : a ∈ b :: l2) by (apply Hx; left).
        assert (Hb1 : b ∈ a :: l1) by (apply Hx; left).
        apply elem_of_cons in Ha2 as [?|Ha2]; [done|].
        apply elem_of_cons in Hb1 as [?|Hb1]; [done|].
        specialize (Ha _ Hb1). specialize (Hb _ Ha2). lia. }
      f_equal. apply IH; [done|]. intros x. split; intros Hin.
      * assert (Hin' : x ∈ a :: l2) by (apply Hx; by right).
        apply elem_of_cons in Hin' as [->|?]; [|done].
        specialize (Ha _ Hin). lia.
      * assert (Hin' : x ∈ a :: l1) by (apply Hx; by right).
        apply elem_of_cons in Hin' as [->|?]; [|done].
        specialize (Hb _ Hin). lia.
Qed.

Lemma sorted_seq (a n : nat) : StronglySorted lt (seq a n).
Proof.
  revert a. induction n as [|n IH]; intros a; simpl; constructor; [apply IH|].
  apply Forall_forall. intros x Hx. apply elem_of_seq in Hx. lia.
Qed.

Lemma sorted_filter (P : nat -> Prop) `{!forall x, Decision (P x)} (l : list nat) :
  StronglySorted lt l -> StronglySorted lt (filter P l).
Proof.
  induction 1 as [|a l Hl IH Ha]; [constructor|].
  rewrite filter_cons. destruct (decide (P a)); [|done].
  constructor; [done|].
  rewrite Forall_forall in Ha. apply Forall_forall.
  intros x Hx. apply list_elem_of_filter in Hx as [_ Hx]. by apply Ha.
Qed.

(** X9: for every input list of events with unique ids and start < end,
    the collisions of each event of the returned list are the indices of
    the other events of the list that overlap it in time, listed once each
    in ascending order. *)
Theorem collisions_in_ascending_order (input : list (Z * Z * Z)) :
  NoDup ((fun r => r.1.1) <$> input) ->
  Forall (fun r => r.1.2 < r.2)%Z input ->
  exists out, layOutPage input = Ok out /\
    forall i e, out !! i = Some e -> collisions e = overlapping out i e.
Proof.
  intros Hid Ht.
  destruct (page_facts input Hid Ht)
    as (arr & s3 & s' & H & _ & _ & Hnd & _ & _ & Hres & _ & Hco & _ & _ & Hp & _ & Hasc).
  eexists. split; [exact H|]. intros i e Hi.
  apply lookup_objects in Hi as (li & Hi & ->).
  apply sorted_lt_ext.
  { rewrite (pt_collisions _ _ Hp). by apply (Hasc i). }
  { apply sorted_filter, sorted_seq. }
  intros j. unfold overlapping.
  rewrite list_elem_of_filter, elem_of_seq, length_fmap.
  rewrite (pt_collisions _ _ Hp).
  assert (Hcol : forall lj, collide (obj s' li) (obj s' lj) =
                            collide (obj s3 li) (obj s3 lj)).
  { intros lj. apply (same_shape_collide _ _ _ _ (pt_shape _ _ Hp)). }
  assert (Hi_lt : i < length arr) by by eapply lookup_lt_Some.
  split.
  - intros Hin.
    destruct (rs_linked _ _ Hres i li j Hi Hin) as (lj & Hj & Hne & Hc & _).
    assert (Hj_lt : j < length arr) by by eapply lookup_lt_Some.
    split; [|lia]. split; [done|].
    rewrite (list_lookup_total_correct _ _ (obj s' lj)); [by rewrite Hcol|].
    by rewrite list_lookup_fmap, Hj.
  - intros ((Hne & Hc) & _ & Hj_lt). simpl in Hj_lt.
    destruct (lookup_lt_is_Some_2 arr j Hj_lt) as (lj & Hj).
    rewrite (list_lookup_total_correct _ _ (obj s' lj)) in Hc
      by by rewrite list_lookup_fmap, Hj.
    rewrite Hcol in Hc.
    destruct (decide (j < i)).
    + by eapply (Hco j i).
    + assert (Hin : i ∈ collisions (obj s3 lj)).
      { eapply (Hco i j); [lia|done..|]. by rewrite collide_sym. }
      destruct (rs_linked _ _ Hres j lj i Hj Hin) as (li' & Hli' & _ & _ & ?).
      congruence.
Qed.

(** ** Laying out the returned array again *)

Lemma initialize_raw e e' : raw e = raw e' -> initialize e = initialize e'.
Proof. unfold raw, initialize. by intros [= -> -> ->]. Qed.

Section sorted_input.
Context {A : Type} (cmp : A -> A -> Z) (key : A -> Z).
Hypothesis cmp_key : forall x y, (cmp x y <=? 0)%Z = (key y <=? key x)%Z.

(** Sorting leaves a sorted array as it is. *)
Lemma array_sort_sorted_id l :
  StronglySorted (fun a b => (key b ≤ key a)%Z) l -> array_sort cmp l = l.
Proof.
  induction 1 as [|x l Hl IH Hx]; [done|].
  unfold array_sort in *. simpl. rewrite IH.
  destruct l as [|y l']; [done|]. simpl.
  rewrite cmp_key. apply Forall_cons in Hx as [Hy _].
  by apply Z.leb_le in Hy as ->.
Qed.
End sorted_input.

Lemma layOutDay_again (input : list (Z * Z * Z)) (fuel : nat) (s' : State) :
  layOutDay fuel (page input) 0 = Ok s' -> layOutDay fuel s' 0 = Ok s'.
Proof.
  intros H. pose proof H as H0. unfold layOutDay in H.
  change (arrays (page input) !! 0) with (Some (seq 0 (length input))) in H.
  cbv beta iota zeta in H.
  set (s1 := initPass (page input) (seq 0 (length input))) in *.
  set (s2 := sortPass s1 0) in *.
  pose proof (initPass_same_shape (seq 0 (length input)) (page input)) as Hs1.
  fold s1 in Hs1. destruct Hs1 as (Ha1 & Hg1 & Hlen1 & Hraw1).
  simpl in Ha1, Hg1, Hlen1. rewrite length_fmap in Hlen1.
  set (cmp1 := fun l1 l2 => sortByDuration (obj s1 l1) (obj s1 l2)).
  set (arr := array_sort cmp1 (seq 0 (length input))).
  assert (Ha2 : arrays s2 = [arr]).
  { unfold s2, sortPass. simpl. by rewrite Ha1. }
  rewrite Ha2 in H. change ([arr] !!! 0) with arr in H.
  apply bind_Ok in H as (s3 & H3 & Hgeo).
  assert (Hs2' : same_shape s2 s').
  { eapply same_shape_trans; [by eapply positionPass_same_shape|].
    eapply pt_shape. by eapply geometryPass_painted. }
  destruct Hs2' as (Ha' & Hg' & Hlen' & Hraw').
  assert (Hperm : arr ≡ₚ seq 0 (length input)) by apply array_sort_perm.
  assert (Hsorted : array_sort cmp1 arr = arr).
  { apply (array_sort_sorted_id cmp1 (fun l => span (raw (obj s1 l)))).
    - intros x y. apply sortByDuration_key.
    - apply array_sort_sorted. intros x y. apply sortByDuration_key. }
  unfold layOutDay. rewrite Ha', Ha2.
  change ([arr] !! 0) with (Some arr). cbv beta iota zeta.
  set (t1 := initPass s' arr).
  pose proof (initPass_same_shape arr s') as Ht1.
  fold t1 in Ht1. destruct Ht1 as (Hb1 & Hh1 & Hlenb & Hrawb).
  assert (Hobj : forall l, l < length input -> obj t1 l = obj s1 l).
  { intros l Hl. unfold t1, s1.
    rewrite !initPass_initialize.
    - apply initialize_raw. rewrite Hraw'. apply Hraw1.
    - apply elem_of_seq. lia.
    - simpl. rewrite length_fmap. lia.
    - rewrite Hperm. apply elem_of_seq. lia.
    - rewrite Hlen'. change (length (objects s2)) with (length (objects s1)). lia. }
  assert (Hobjs : objects t1 = objects s1).
  { apply list_eq_same_length with (length input); [exact Hlen1| |].
    - rewrite Hlenb, Hlen'. exact Hlen1.
    - intros i x y Hi Hx Hy.
      apply list_lookup_total_correct in Hx, Hy.
      fold (obj t1 i) in Hx. fold (obj s1 i) in Hy. rewrite <- Hx, <- Hy. auto. }
  assert (Hcmp : array_sort (fun l1 l2 => sortByDuration (obj t1 l1) (obj t1 l2)) arr
                 = arr).
  { rewrite <- Hsorted at 2. apply array_sort_ext. intros a b.
    unfold cmp1, obj. by rewrite Hobjs. }
  assert (Ht2 : sortPass t1 0 = s2).
  { unfold s2, sortPass, set_array. rewrite Hb1, Ha', Ha2, Ha1.
    change ([arr] !!! 0) with arr.
    change ([seq 0 (length input)] !!! 0) with (seq 0 (length input)).
    fold cmp1. fold arr. rewrite Hcmp, Hobjs, Hh1, Hg'. done. }
  rewrite Ht2, Ha2. change ([arr] !!! 0) with arr.
  rewrite H3. exact Hgeo.
Qed.

(** ** The module-level [events] unbound, or bound to an empty array *)

Lemma sortPass_array s events evs :
  arrays s !! events = Some evs ->
  arrays (sortPass s events) !! events =
    Some (array_sort (fun l1 l2 => sortByDuration (obj s l1) (obj s l2)) evs).
Proof.
  intros Ha. unfold sortPass. simpl.
  rewrite (list_lookup_total_correct _ _ _ Ha).
  apply list_lookup_insert_eq. by eapply lookup_lt_Some.
Qed.

Lemma checkLeft_nothing_to_scan fuel s g event index :
  global_events s = Some g -> arrays s !! g = Some [] ->
  checkLeft (S fuel) s event index = Ok (position (obj s event), s).
Proof. intros Hg Ha. simpl. by rewrite Hg, Ha. Qed.

Lemma fresh_turn s l l' :
  fresh (obj s l') ->
  fresh (obj (update (update s l (set_position (position (obj s l)))) l slideBack) l').
Proof.
  intros Hf. rewrite obj_update. case_decide as H; [|].
  - destruct H as [-> H]. rewrite length_update in H.
    rewrite obj_update_eq, set_position_same by done.
    destruct Hf as (Hp & Hc & Hk). unfold slideBack. rewrite Hp. simpl. done.
  - rewrite obj_update. case_decide as H'; [|done].
    destruct H' as [-> _]. by rewrite set_position_same.
Qed.

Lemma positionPass_nothing_to_scan fuel g rest :
  forall e s,
    global_events s = Some g -> arrays s !! g = Some [] ->
    exists s', positionPass (S fuel) rest e s = Ok s' /\ same_shape s s' /\
      forall l, fresh (obj s l) -> fresh (obj s' l).
Proof.
  induction rest as [|l rest IH]; intros e s Hg Ha.
  { exists s. split_and!; [done|apply same_shape_refl|done]. }
  cbn [positionPass]. rewrite (checkLeft_nothing_to_scan fuel s g l e Hg Ha).
  cbn [mbind outcome_bind].
  set (s3 := update (update s l _) l slideBack).
  assert (Hs3 : same_shape s s3) by apply turn_same_shape.
  destruct (IH (S e) s3) as (s' & H & Hs' & Hf).
  { destruct Hs3 as (_ & -> & _). done. }
  { destruct Hs3 as (-> & _). done. }
  exists s'. split_and!; [done|by eapply same_shape_trans|].
  intros l' Hl'. apply Hf. by apply fresh_turn.
Qed.

Lemma plain_fresh e : plain e -> fresh e.
Proof. intros (? & ? & ? & _). done. Qed.

Lemma geometryPass_plain evs rest :
  forall s,
    (forall l, l ∈ rest -> l < length (objects s) /\ fresh (obj s l)) ->
    exists s', geometryPass evs rest s = Ok s' /\ same_shape s s' /\
      forall l, l ∈ rest \/ plain (obj s l) -> plain (obj s' l).
Proof.
  induction rest as [|event rest IH]; intros s Hs.
  { exists s. split_and!; [done|apply same_shape_refl|].
    intros l [Hl|?]; [by apply elem_of_nil in Hl|done]. }
  destruct (Hs event) as (Hlen & Hp & Hc & Hk); [by left|].
  cbn [geometryPass]. rewrite Hc. cbn [reverse rev_append columnsLoop mbind outcome_bind].
  set (s3 := update (update s event _) event _).
  assert (Hev : plain (obj s3 event)).
  { unfold s3. rewrite obj_update_eq by by rewrite length_update.
    rewrite obj_update_eq by done. unfold plain. simpl. rewrite Hp, Hc, Hk. done. }
  assert (Hother : forall l, l <> event -> obj s3 l = obj s l).
  { intros l Hne. unfold s3. by rewrite !obj_update_ne. }
  assert (Hs3 : same_shape s s3).
  { eapply same_shape_trans; by apply same_shape_update. }
  destruct (IH s3) as (s' & H & Hs' & Hplain).
  { intros l Hl. unfold s3 at 1. rewrite !length_update.
    destruct (decide (l = event)) as [->|Hne]; [by split; [|apply plain_fresh]|].
    rewrite (Hother l Hne). apply Hs. by right. }
  exists s'. split_and!; [done|by eapply same_shape_trans|]. intros l Hl. apply Hplain.
  destruct (decide (l = event)) as [->|Hne]; [by right|].
  destruct Hl as [Hl|Hl].
  - apply elem_of_cons in Hl as [?|?]; [done|by left].
  - right. by rewrite (Hother l Hne).
Qed.

(** ** Properties of [layOutDay] as the page binds [events] *)

(** X10: for every input list of events with unique ids and start < end,
    handing the returned array to [layOutDay] a second time returns the
    same layout. *)
Theorem relayout_returns_same (input : list (Z * Z * Z)) :
  NoDup ((fun r => r.1.1) <$> input) ->
  Forall (fun r => r.1.2 < r.2)%Z input ->
  exists out, layOutPage input = Ok out /\ layOutTwice input = Ok out.
Proof.
  intros Hid Ht.
  destruct (page_facts input Hid Ht) as (arr & s3 & s' & H & _).
  eexists. split; [exact H|].
  unfold layOutPage, returned in H. apply bind_Ok in H as (t & Ht' & Heq).
  unfold layOutTwice, returned. rewrite Ht'. simpl.
  rewrite (layOutDay_again _ _ _ Ht'). exact Heq.
Qed.

Lemma layOutDay_unbound fuel s events evs :
  global_events s = None ->
  arrays s !! events = Some evs ->
  layOutDay (S fuel) s events =
    match evs with [] => Ok s | _ :: _ => Throw ReferenceError end.
Proof.
  intros Hg Ha. unfold layOutDay. rewrite Ha.
  destruct evs as [|x evs'].
  - assert (Hs2 : sortPass s events = s).
    { unfold sortPass, set_array. rewrite (list_lookup_total_correct _ _ _ Ha).
      change (array_sort _ []) with (@nil nat).
      rewrite list_insert_id by done. by destruct s. }
    cbn [initPass foldl]. cbv zeta.
    rewrite Hs2, (list_lookup_total_correct _ _ _ Ha). done.
  - set (s1 := initPass s (x :: evs')).
    pose proof (initPass_same_shape (x :: evs') s) as Hs1. fold s1 in Hs1.
    destruct Hs1 as (Ha1 & Hg1 & _).
    assert (Ha2 : arrays s1 !! events = Some (x :: evs')) by by rewrite Ha1.
    pose proof (sortPass_array s1 events _ Ha2) as Hsort.
    rewrite (list_lookup_total_correct _ _ _ Hsort).
    set (arr := array_sort _ (x :: evs')) in *.
    assert (Hperm : arr ≡ₚ x :: evs') by apply array_sort_perm.
    destruct arr as [|y arr'].
    { by apply Permutation_nil_cons in Hperm. }
    simpl. change (global_events s1) with (global_events s1).
    rewrite Hg1, Hg. done.
Qed.

(** X11: when nothing is bound to the module-level [events], [layOutDay]
    throws a ReferenceError on every array that holds an event, and
    returns an empty array as it is. *)
Theorem unbound_events_throw (s : State) (events : nat) (evs : list nat) (fuel : nat) :
  global_events s = None ->
  arrays s !! events = Some evs ->
  returned (S fuel) s events =
    match evs with [] => Ok [] | _ :: _ => Throw ReferenceError end.
Proof.
  intros Hg Ha. unfold returned.
  rewrite (layOutDay_unbound fuel s events evs Hg Ha).
  destruct evs as [|x evs']; [|done].
  simpl. unfold snapshot. by rewrite (list_lookup_total_correct _ _ _ Ha).
Qed.

(** X12: when the module-level [events] is bound to an empty array,
    [layOutDay] registers no collision: every event of the array it is
    handed is returned in column 0 with [columns = 1], [width = 600] and
    [left = 10], whether the events overlap or not. *)
Theorem nothing_scanned_nothing_collides (s : State) (g events : nat)
    (evs : list nat) (fuel : nat) :
  global_events s = Some g ->
  arrays s !! g = Some [] ->
  arrays s !! events = Some evs ->
  (forall l, l ∈ evs -> l < length (objects s)) ->
  exists out, returned (S fuel) s events = Ok out /\
    length out = length evs /\ Forall plain out.
Proof.
  intros Hg Hempty Ha Hrg. unfold returned, layOutDay. rewrite Ha.
  set (s1 := initPass s evs).
  pose proof (initPass_same_shape evs s) as Hs1. fold s1 in Hs1.
  destruct Hs1 as (Ha1 & Hg1 & Hlen1 & _).
  assert (Ha2 : arrays s1 !! events = Some evs) by by rewrite Ha1.
  pose proof (sortPass_array s1 events evs Ha2) as Hsort.
  rewrite (list_lookup_total_correct _ _ _ Hsort).
  set (arr := array_sort _ evs) in *.
  set (s2 := sortPass s1 events) in *.
  assert (Hperm : arr ≡ₚ evs) by apply array_sort_perm.
  assert (Hg2 : global_events s2 = Some g) by (by rewrite <- Hg, <- Hg1).
  assert (He2 : arrays s2 !! g = Some []).
  { destruct (decide (g = events)) as [->|Hne].
    - rewrite Hsort. f_equal. apply Permutation_nil_r.
      assert (Hnil : evs = []) by congruence.
      by rewrite Hperm, Hnil.
    - unfold s2, sortPass. simpl. rewrite list_lookup_insert_ne by done.
      by rewrite Ha1. }
  destruct (positionPass_nothing_to_scan fuel g arr 0 s2 Hg2 He2)
    as (s3 & H3 & Hs3 & Hf3).
  rewrite H3. simpl.
  destruct (geometryPass_plain arr arr s3) as (s' & H' & Hs' & Hplain).
  { intros l Hl. rewrite Hperm in Hl. split.
    - destruct Hs3 as (_ & _ & -> & _).
      change (length (objects s2)) with (length (objects s1)).
      rewrite Hlen1. by apply Hrg.
    - apply Hf3. change (obj s2 l) with (obj s1 l).
      apply initPass_fresh; auto. }
  rewrite H'. simpl. eexists. split; [done|].
  unfold snapshot.
  assert (Harr' : arrays s' !! events = Some arr).
  { destruct Hs' as (-> & _). destruct Hs3 as (-> & _). done. }
  rewrite (list_lookup_total_correct _ _ _ Harr').
  split; [by rewrite length_fmap, Hperm|].
  apply Forall_fmap, Forall_forall. intros l Hl. apply Hplain. by left.
Qed.

(** ** The layout of a group of mutually colliding events *)

Lemma sorted_lookup_lt (K : list nat) a b x y :
  StronglySorted lt K -> K !! a = Some x -> K !! b = Some y -> a < b -> x < y.
Proof.
  intros HK. revert a b. induction HK as [|k K HK IH Hall]; intros a b Ha Hb Hab.
  { done. }
  destruct b as [|b]; [lia|]. simpl in Hb.
  destruct a as [|a]; simpl in Ha.
  - injection Ha as ->. rewrite Forall_forall in Hall. apply Hall.
    by eapply list_elem_of_lookup_2.
  - apply (IH a b); [done..|lia].
Qed.

Lemma sorted_lookup_le (K : list nat) a b x y :
  StronglySorted lt K -> K !! a = Some x -> K !! b = Some y -> x ≤ y -> a ≤ b.
Proof.
  intros HK Ha Hb Hxy. destruct (decide (a ≤ b)) as [|Hab]; [done|].
  assert (y < x) by (apply (sorted_lookup_lt K b a); [done..|lia]). lia.
Qed.

Section group.
Variables (arr : list nat) (s : State) (K : list nat).
Hypothesis arr_nodup : NoDup arr.
Hypothesis ids_nodup : NoDup (ids s arr).
Hypothesis s_linked : linked arr s.
Hypothesis s_complete : complete arr (length arr) s.
Hypothesis s_ranked : ranked arr (length arr) s.
Hypothesis K_mutual : mutual arr s K.
Hypothesis K_sorted : StronglySorted lt K.

(** The scan for a member of the group meets the members before it, and
    the one just before it last. *)
Lemma group_last r i l :
  K !! r = Some i -> arr !! i = Some l ->
  last (colliding s l arr 0) = match r with O => None | S r' => K !! r' end.
Proof.
  intros Hr Hi.
  assert (HiK : i ∈ K) by by eapply list_elem_of_lookup_2.
  assert (Hmem : forall p, p ∈ colliding s l arr 0 ->
            exists q, K !! q = Some p /\ q < r).
  { intros p Hp.
    destruct (colliding_elem_1 s arr i l Hi arr [] p eq_refl (Nat.le_0_l _) Hp)
      as (Hpi & lp & Hlp & Hcol).
    assert (HpK : p ∈ K).
    { apply (mutual_closed arr s K s_linked s_complete K_mutual i l p lp);
        try done. lia. }
    apply list_elem_of_lookup in HpK as [q Hq]. exists q. split; [done|].
    destruct (decide (q < r)) as [|Hge]; [done|].
    assert (r ≤ q) by lia.
    assert (i ≤ p); [|lia].
    destruct (decide (r = q)) as [->|]; [by assert (i = p) as -> by congruence|].
    assert (i < p) by (apply (sorted_lookup_lt K r q); [done..|lia]). lia. }
  destruct r as [|r'].
  - destruct (colliding s l arr 0) as [|p ps] eqn:Hc; [done|].
    destruct (Hmem p) as (q & _ & ?); [by left|lia].
  - destruct (lookup_lt_is_Some_2 K r') as [j Hj].
    { apply lookup_lt_Some in Hr. lia. }
    rewrite Hj.
    assert (Hji : j < i) by (apply (sorted_lookup_lt K r' (S r')); [done..|lia]).
    assert (HjK : j ∈ K) by by eapply list_elem_of_lookup_2.
    destruct (K_mutual j HjK) as (lj & Hlj & _).
    assert (Hin : j ∈ colliding s l arr 0).
    { apply (colliding_elem_2 s arr i l ids_nodup Hi arr [] j lj); try done;
        [simpl; lia|].
      apply (mutual_overlap arr s K s_linked K_mutual j i lj l); try done. lia. }
    destruct (last (colliding s l arr 0)) as [p|] eqn:Hlast.
    + pose proof (colliding_last _ _ _ _ _ _ Hlast Hin) as Hjp.
      destruct (Hmem p (last_Some_elem_of _ _ Hlast)) as (q & Hq & Hqr).
      assert (q ≤ r') by lia.
      assert (r' ≤ q) by (apply (sorted_lookup_le K r' q j p); done).
      assert (q = r') as -> by lia. congruence.
    + apply last_None in Hlast. rewrite Hlast in Hin. by apply elem_of_nil in Hin.
Qed.

(** The search computes for a member the number of members before it. *)
Lemma group_depth :
  forall r i l, K !! r = Some i -> arr !! i = Some l ->
    depth s arr i = Z.of_nat r.
Proof.
  induction r as [|r IH]; intros i l Hr Hi.
  - apply (depth_root s arr i l Hi).
    pose proof (group_last 0 i l Hr Hi) as Hl. cbv beta iota in Hl.
    by apply last_None in Hl.
  - pose proof (group_last (S r) i l Hr Hi) as Hl.
    destruct (lookup_lt_is_Some_2 K r) as [j Hj].
    { apply lookup_lt_Some in Hr. lia. }
    cbv beta iota in Hl. rewrite Hj in Hl.
    destruct (depth_last s arr i l j Hi Hl) as [-> _].
    assert (HjK : j ∈ K) by by eapply list_elem_of_lookup_2.
    destruct (K_mutual j HjK) as (lj & Hlj & _).
    rewrite (IH j lj Hj Hlj). lia.
Qed.

(** A member of the group is in the column of its rank in the group. *)
Lemma group_position r i l :
  K !! r = Some i -> arr !! i = Some l ->
  position (obj s l) = Z.of_nat r.
Proof.
  intros Hr Hi.
  assert (Hlt : i < length arr) by by eapply lookup_lt_Some.
  pose proof (group_depth r i l Hr Hi) as Hd.
  destruct (s_ranked i l Hlt Hi) as [->|(_ & Hlen & Hdeep)]; [done|].
  rewrite Hd in Hdeep.
  destruct (lookup_lt_is_Some_2 K 0) as [a Ha].
  { apply lookup_lt_Some in Hr. lia. }
  destruct (lookup_lt_is_Some_2 K 1) as [b Hb].
  { apply lookup_lt_Some in Hr. lia. }
  assert (Hab : a < b) by (apply (sorted_lookup_lt K 0 1); [done..|lia]).
  assert (Hbi : b < i) by (apply (sorted_lookup_lt K 1 r); [done..|lia]).
  assert (HiK : i ∈ K) by by eapply list_elem_of_lookup_2.
  destruct (K_mutual i HiK) as (l' & Hl' & Hcs).
  assert (l' = l) as -> by congruence.
  assert (Hain : a ∈ collisions (obj s l)).
  { apply Hcs. split; [by eapply list_elem_of_lookup_2|lia]. }
  assert (Hbin : b ∈ collisions (obj s l)).
  { apply Hcs. split; [by eapply list_elem_of_lookup_2|lia]. }
  assert (Hne : a <> b) by lia.
  pose proof (two_members _ a b Hne Hain Hbin). lia.
Qed.
End group.

Lemma mutual_painted arr s s' K : mutual arr s K -> painted s s' -> mutual arr s' K.
Proof.
  intros HK Hp i Hi. destruct (HK i Hi) as (l & Hl & Hcs).
  exists l. split; [done|]. intros j. by rewrite (pt_collisions _ _ Hp).
Qed.

Section group_geometry.
Variable arr : list nat.
Hypothesis arr_nodup : NoDup arr.

(** A turn does not take [columns] beyond a bound on the columns of the
    events it reads. *)
Lemma columnsLoop_le event n cs :
  forall s s',
    ranged arr s -> event < length (objects s) ->
    columnsLoop arr event cs s = Ok s' ->
    (forall c lc, c ∈ cs -> arr !! c = Some lc -> (position (obj s lc) + 1 ≤ n)%Z) ->
    (columns (obj s event) ≤ n)%Z ->
    (columns (obj s' event) ≤ n)%Z /\
    forall l, (columns (obj s l) ≤ n)%Z \/ (exists c, c ∈ cs /\ arr !! c = Some l) ->
      (columns (obj s' l) ≤ n)%Z.
Proof.
  induction cs as [|c cs IH]; intros s s' Hrg Hev H Hlow Hcol; simpl in H.
  { injection H as <-. split; [done|]. intros l [?|(c & Hc & _)]; [done|].
    by apply elem_of_nil in Hc. }
  destruct (arr !! c) as [other|] eqn:Hother; [|done].
  set (v := Z.max (columns (obj s event)) (position (obj s other) + 1)) in *.
  set (s1 := update s event (set_columns v)) in *.
  set (s2 := update s1 other (set_columns (columns (obj s1 event)))) in *.
  assert (Hoth : other < length (objects s1)).
  { unfold s1. rewrite length_update. by eapply Hrg. }
  assert (Hv : columns (obj s1 event) = v).
  { unfold s1. by rewrite obj_update_eq. }
  assert (Hvn : (v ≤ n)%Z).
  { unfold v. specialize (Hlow c other). apply Z.max_lub; [done|].
    apply Hlow; [by left|done]. }
  assert (Hp1 : painted s s1) by by apply painted_update.
  assert (Hp2 : painted s1 s2) by by apply painted_update.
  assert (Hp : painted s s2) by by eapply painted_trans.
  assert (Hkeep : forall l, (columns (obj s l) ≤ n)%Z -> (columns (obj s2 l) ≤ n)%Z).
  { intros l Hl. unfold s2. rewrite obj_update. case_decide; [simpl; lia|].
    unfold s1. rewrite obj_update. case_decide; [simpl; lia|done]. }
  destruct (IH s2 s') as [Hev' Hall]; [|by rewrite (painted_length _ _ Hp)|done| | |].
  { eapply ranged_same_shape; [done|apply Hp]. }
  { intros c' lc Hc' Hlc. rewrite (pt_position _ _ Hp). apply (Hlow c'); [by right|done]. }
  { by apply Hkeep. }
  split; [done|]. intros l Hl. apply Hall.
  destruct Hl as [Hl|(c' & Hc' & Hlc)]; [left; by apply Hkeep|].
  apply elem_of_cons in Hc' as [->|Hc']; [|right; eauto].
  left. assert (l = other) as -> by congruence.
  unfold s2. rewrite obj_update_eq by done. simpl. lia.
Qed.

(** A turn takes the [columns] of its event above the column of every
    event it reads. *)
Lemma columnsLoop_ge event cs :
  forall s s',
    ranged arr s -> event < length (objects s) ->
    columnsLoop arr event cs s = Ok s' ->
    (columns (obj s event) ≤ columns (obj s' event))%Z /\
    forall c lc, c ∈ cs -> arr !! c = Some lc ->
      (position (obj s lc) + 1 ≤ columns (obj s' event))%Z.
Proof.
  induction cs as [|c cs IH]; intros s s' Hrg Hev H; simpl in H.
  { injection H as <-. split; [done|]. intros c lc Hc. by apply elem_of_nil in Hc. }
  destruct (arr !! c) as [other|] eqn:Hother; [|done].
  set (v := Z.max (columns (obj s event)) (position (obj s other) + 1)) in *.
  set (s1 := update s event (set_columns v)) in *.
  set (s2 := update s1 other (set_columns (columns (obj s1 event)))) in *.
  assert (Hoth : other < length (objects s1)).
  { unfold s1. rewrite length_update. by eapply Hrg. }
  assert (Hv : columns (obj s1 event) = v).
  { unfold s1. by rewrite obj_update_eq. }
  assert (Hv2 : columns (obj s2 event) = v).
  { unfold s2. rewrite obj_update. by case_decide. }
  assert (Hp1 : painted s s1) by by apply painted_update.
  assert (Hp2 : painted s1 s2) by by apply painted_update.
  assert (Hp : painted s s2) by by eapply painted_trans.
  destruct (IH s2 s') as [Hev' Hall]; [|by rewrite (painted_length _ _ Hp)|done|].
  { eapply ranged_same_shape; [done|apply Hp]. }
  rewrite Hv2 in Hev'. split; [unfold v in Hev'; lia|].
  intros c' lc Hc' Hlc. apply elem_of_cons in Hc' as [->|Hc'].
  - assert (lc = other) as -> by congruence. unfold v in Hev'. lia.
  - rewrite <- (pt_position _ _ Hp). by apply (Hall c').
Qed.

Variables (K : list nat) (n : Z).

(** The turns keep the [columns] of the members of a group within a
    bound on their columns. *)
Lemma geometryPass_group_le rest :
  forall s s',
    ranged arr s -> linked arr s -> mutual arr s K -> rest ⊆ arr ->
    (forall x lx, x ∈ K -> arr !! x = Some lx -> (position (obj s lx) + 1 ≤ n)%Z) ->
    (forall x lx, x ∈ K -> arr !! x = Some lx -> (columns (obj s lx) ≤ n)%Z) ->
    geometryPass arr rest s = Ok s' ->
    forall x lx, x ∈ K -> arr !! x = Some lx -> (columns (obj s' lx) ≤ n)%Z.
Proof.
  induction rest as [|event rest IH]; intros s s' Hrg Hlk HK Hsub Hpos Hcol H;
    simpl in H.
  { by injection H as <-. }
  apply bind_Ok in H as (s1 & H1 & H).
  assert (Hin : event ∈ arr) by (apply Hsub; by left).
  apply list_elem_of_lookup in Hin as [ke Hke].
  assert (Hev : event < length (objects s)) by by eapply Hrg.
  assert (Hp1 : painted s s1) by by eapply columnsLoop_painted.
  set (s2 := update s1 event _) in H.
  set (s3 := update s2 event _) in H.
  assert (Hp2 : painted s1 s2) by by apply painted_update.
  assert (Hp3 : painted s2 s3) by by apply painted_update.
  assert (Hp : painted s s3) by eauto using painted_trans.
  assert (Hcol1 : forall x lx, x ∈ K -> arr !! x = Some lx ->
            (columns (obj s1 lx) ≤ n)%Z).
  { intros x lx Hx Hlx. destruct (decide (ke ∈ K)) as [HkK|HkK].
    - destruct (HK ke HkK) as (le & Hle & Hcs).
      assert (le = event) as -> by congruence.
      destruct (columnsLoop_le event n _ s s1 Hrg Hev H1) as [_ Hall].
      + intros c lc Hc Hlc. rewrite elem_of_reverse in Hc.
        apply Hcs in Hc as [HcK _]. by apply (Hpos c).
      + by apply (Hcol ke).
      + apply Hall. left. by apply (Hcol x).
    - destruct (columnsLoop_spec arr event (reverse (collisions (obj s event))) s)
        as (s1' & H1' & _ & Hun & _); [done|done| |].
      { intros c Hc. rewrite elem_of_reverse in Hc.
        destruct (Hlk _ _ _ Hke Hc) as (lc & -> & _). eauto. }
      assert (s1' = s1) as -> by congruence.
      rewrite Hun; [by apply (Hcol x)| |].
      + intros ->. pose proof (NoDup_lookup _ _ _ _ arr_nodup Hke Hlx). congruence.
      + intros c Hc Hlc. rewrite elem_of_reverse in Hc.
        pose proof (NoDup_lookup _ _ _ _ arr_nodup Hlx Hlc) as <-.
        destruct (Hlk ke event x Hke Hc) as (lx' & Hlx' & _ & _ & Hback).
        assert (lx' = lx) as -> by congruence.
        destruct (HK x Hx) as (lx' & Hlx'' & Hcs).
        assert (lx' = lx) as -> by congruence.
        apply Hcs in Hback as [? _]. done. }
  apply (IH s3 s'); try done.
  - eapply ranged_same_shape; [done|apply Hp].
  - by eapply linked_painted.
  - by eapply mutual_painted.
  - intros y Hy. apply Hsub. by right.
  - intros x lx Hx Hlx. rewrite (pt_position _ _ Hp). by apply (Hpos x).
  - intros x lx Hx Hlx. unfold s3, s2. rewrite !columns_update by done.
    by apply (Hcol1 x).
Qed.
End group_geometry.

Section group_boxes.
Variables (arr : list nat) (K : list nat).
Hypothesis arr_nodup : NoDup arr.
Hypothesis K_sorted : StronglySorted lt K.

Variables (s s' : State).
Hypothesis s_ranged : ranged arr s.
Hypothesis s_linked : linked arr s.
Hypothesis K_mutual : mutual arr s K.
Hypothesis K_position : forall q x lx,
  K !! q = Some x -> arr !! x = Some lx -> position (obj s lx) = Z.of_nat q.
Hypothesis K_columns : forall x lx,
  x ∈ K -> arr !! x = Some lx -> columns (obj s lx) = 1%Z.
Hypothesis s_geometry : geometryPass arr arr s = Ok s'.

(** At its turn a member of the group has as many [columns] as the
    group has members, and gets its box from that. *)
Lemma group_turn r i l :
  K !! r = Some i -> arr !! i = Some l ->
  width (obj s' l) = (600 / Z.of_nat (length K))%Z /\
  left (obj s' l) = (Z.of_nat r * (600 / Z.of_nat (length K)) + 10)%Z /\
  ((forall d ld, i < d -> arr !! d = Some ld -> i ∉ collisions (obj s ld)) ->
   columns (obj s' l) = Z.of_nat (length K)).
Proof.
  intros Hr Hl. set (n := Z.of_nat (length K)).
  assert (Hrn : r < length K) by by eapply lookup_lt_Some.
  assert (HiK : i ∈ K) by by eapply list_elem_of_lookup_2.
  assert (Hposn : forall x lx, x ∈ K -> arr !! x = Some lx ->
            (position (obj s lx) + 1 ≤ n)%Z).
  { intros x lx Hx Hlx. apply list_elem_of_lookup in Hx as [q Hq].
    rewrite (K_position q x lx Hq Hlx). apply lookup_lt_Some in Hq. lia. }
  assert (Hcoln : forall x lx, x ∈ K -> arr !! x = Some lx ->
            (columns (obj s lx) ≤ n)%Z).
  { intros x lx Hx Hlx. rewrite (K_columns x lx Hx Hlx). lia. }
  pose proof s_geometry as H.
  pose proof (take_drop_middle _ _ _ Hl) as Harr.
  rewrite <- Harr in H at 2. rewrite geometryPass_app in H.
  apply bind_Ok in H as (sa & Ha & H). simpl in H.
  apply bind_Ok in H as (sb & Hb & H).
  set (sc := update (update sb l _) l _) in H.
  assert (Hpa : painted s sa) by by eapply geometryPass_painted.
  assert (Hrga : ranged arr sa)
    by exact (ranged_same_shape arr s sa s_ranged (pt_shape _ _ Hpa)).
  assert (Hla : l < length (objects sa)) by by eapply Hrga.
  assert (Hpb : painted sa sb) by by eapply columnsLoop_painted.
  assert (Hlb : l < length (objects sb)) by by rewrite (painted_length _ _ Hpb).
  destruct (K_mutual i HiK) as (l' & Hl' & Hcs).
  assert (l' = l) as -> by congruence.
  assert (Hle_a : (columns (obj sa l) ≤ n)%Z).
  { apply (geometryPass_group_le arr arr_nodup K n (take i arr) s sa) with i;
      try done.
    intros x Hx. apply elem_of_take in Hx as (j & Hj & _).
    by eapply list_elem_of_lookup_2. }
  assert (Hle_b : (columns (obj sb l) ≤ n)%Z).
  { destruct (columnsLoop_le arr l n (reverse (collisions (obj sa l))) sa sb)
      as [? _]; try done.
    intros c lc Hc Hlc. rewrite elem_of_reverse, (pt_collisions _ _ Hpa) in Hc.
    apply Hcs in Hc as [HcK _]. rewrite (pt_position _ _ Hpa). by apply (Hposn c). }
  destruct (columnsLoop_ge arr l (reverse (collisions (obj sa l))) sa sb)
    as [Hge_own Hge]; try done.
  assert (Hge_b : (n ≤ columns (obj sb l))%Z).
  { destruct (decide (S r = length K)) as [Hlast|Hnot].
    - assert (Hw : wide sa l).
      { apply (geometryPass_wide arr (l :: drop (S i) arr) (take i arr) l [] s sa);
          try done.
        destruct r as [|r'].
        - left. unfold wide.
          rewrite (K_position 0 i l Hr Hl), (K_columns i l HiK Hl). lia.
        - right. destruct (lookup_lt_is_Some_2 K 0) as [y Hy]; [lia|].
          assert (Hyi : y < i) by (apply (sorted_lookup_lt K 0 (S r')); [done..|lia]).
          assert (HyK : y ∈ K) by by eapply list_elem_of_lookup_2.
          destruct (K_mutual y HyK) as (ly & Hly & Hcsy).
          exists ly, i. split_and!; [|done|].
          + apply list_elem_of_lookup. exists y. by rewrite lookup_take_lt.
          + apply Hcsy. split; [done|lia]. }
      unfold wide in Hw. rewrite (pt_position _ _ Hpa) in Hw.
      rewrite (K_position r i l Hr Hl) in Hw. unfold n. lia.
    - destruct (lookup_lt_is_Some_2 K (length K - 1)) as [z Hz]; [lia|].
      assert (Hiz : i < z) by (apply (sorted_lookup_lt K r (length K - 1)); [done..|lia]).
      assert (HzK : z ∈ K) by by eapply list_elem_of_lookup_2.
      destruct (K_mutual z HzK) as (lz & Hlz & _).
      assert (Hzin : z ∈ reverse (collisions (obj sa l))).
      { rewrite elem_of_reverse, (pt_collisions _ _ Hpa). apply Hcs.
        split; [done|lia]. }
      specialize (Hge z lz Hzin Hlz). rewrite (pt_position _ _ Hpa) in Hge.
      rewrite (K_position _ z lz Hz Hlz) in Hge. unfold n. lia. }
  assert (Hcol_b : columns (obj sb l) = n) by lia.
  assert (Hnotin : l ∉ drop (S i) arr).
  { intros Hin. apply list_elem_of_lookup in Hin as [j Hj].
    rewrite lookup_drop in Hj.
    pose proof (NoDup_lookup _ _ _ _ arr_nodup Hj Hl). lia. }
  assert (Hobj_c : obj sc l =
            set_left (position (obj sb l) * (600 / n) + 10)
              (set_width (600 / n) (obj sb l))).
  { unfold sc. rewrite obj_update_eq by by rewrite length_update.
    rewrite obj_update_eq by done. simpl. by rewrite Hcol_b. }
  assert (Hpos_b : position (obj sb l) = Z.of_nat r).
  { by rewrite (pt_position _ _ Hpb), (pt_position _ _ Hpa), (K_position r i l). }
  split_and!.
  - rewrite (geometryPass_keeps width (fun _ _ => eq_refl) _ _ _ _ H l Hnotin).
    by rewrite Hobj_c.
  - rewrite (geometryPass_keeps left (fun _ _ => eq_refl) _ _ _ _ H l Hnotin).
    rewrite Hobj_c. simpl. by rewrite Hpos_b.
  - intros Hquiet.
    assert (Hpc : painted sb sc).
    { eapply painted_trans; by apply painted_update. }
    assert (Hp : painted s sc) by eauto using painted_trans.
    destruct (geometryPass_spec arr arr_nodup [] (drop (S i) arr) (take i arr ++ [l]) sc)
      as (s'' & H'' & _ & Hq).
    { rewrite app_nil_r, <- app_assoc. done. }
    { exact (ranged_same_shape arr s sc s_ranged (pt_shape _ _ Hp)). }
    { exact (linked_painted _ _ _ s_linked Hp). }
    assert (s'' = s') as -> by congruence.
    rewrite (Hq i l Hl).
    + rewrite Hobj_c. simpl. done.
    + assert (Hlen : length (take i arr ++ [l]) = S i).
      { rewrite length_app, length_take. simpl. apply lookup_lt_Some in Hl. lia. }
      rewrite Hlen. split; [|intros lk ?; lia].
      intros d ld Hd Hld. rewrite (pt_collisions _ _ Hp). apply (Hquiet d); [lia|done].
Qed.

(** The members of a group end with as many [columns] as the group has
    members, in boxes of the same width, side by side. *)
Lemma geometryPass_group r i l :
  K !! r = Some i -> arr !! i = Some l ->
  columns (obj s' l) = Z.of_nat (length K) /\
  width (obj s' l) = (600 / Z.of_nat (length K))%Z /\
  left (obj s' l) = (Z.of_nat r * (600 / Z.of_nat (length K)) + 10)%Z.
Proof.
  intros Hr Hl.
  assert (Hrn : r < length K) by by eapply lookup_lt_Some.
  destruct (group_turn r i l Hr Hl) as (Hw & Hleft & _).
  split; [|done].
  destruct (lookup_lt_is_Some_2 K (length K - 1)) as [z Hz]; [lia|].
  assert (HzK : z ∈ K) by by eapply list_elem_of_lookup_2.
  destruct (K_mutual z HzK) as (lz & Hlz & Hcsz).
  assert (Hmax : forall x, x ∈ K -> x ≤ z).
  { intros x Hx. apply list_elem_of_lookup in Hx as [q Hq].
    destruct (decide (q = length K - 1)) as [->|Hne]; [by assert (x = z) as -> by congruence|].
    pose proof (lookup_lt_Some _ _ _ Hq).
    assert (x < z); [|lia].
    apply (sorted_lookup_lt K q (length K - 1)); [done..|lia]. }
  destruct (group_turn (length K - 1) z lz Hz Hlz) as (_ & _ & Hcol).
  rewrite <- Hcol.
  - apply (geometryPass_mutual arr arr_nodup s s' K z lz) with i; try done.
    + intros y ly Hy Hly. apply list_elem_of_lookup in Hy as [q Hq].
      rewrite (K_position q y ly Hq Hly), (K_position _ z lz Hz Hlz).
      apply lookup_lt_Some in Hq. lia.
    + by eapply list_elem_of_lookup_2.
  - intros d ld Hd Hld Hin.
    destruct (s_linked d ld z Hld Hin) as (lz' & Hlz' & _ & _ & Hback).
    assert (lz' = lz) as -> by congruence.
    apply Hcsz in Hback as [HdK _]. specialize (Hmax d HdK). lia.
Qed.
End group_boxes.

(** X13: for every input list of events with unique ids and start < end,
    the events of a group of mutually colliding events of the returned
    list (each has exactly the others of the group in its collisions) are
    laid out side by side: the member of rank [r] of the group, by index,
    is in column [r], and all have as [columns] the number [n] of members,
    [width = 600 / n] and [left = r * (600 / n) + 10]. *)
Theorem mutual_group_side_by_side (input : list (Z * Z * Z)) :
  NoDup ((fun r => r.1.1) <$> input) ->
  Forall (fun r => r.1.2 < r.2)%Z input ->
  exists out, layOutPage input = Ok out /\
    forall K, StronglySorted lt K -> mutually_colliding out K ->
      forall r i e, K !! r = Some i -> out !! i = Some e ->
        position e = Z.of_nat r /\
        columns e = Z.of_nat (length K) /\
        width e = (600 / Z.of_nat (length K))%Z /\
        left e = (Z.of_nat r * (600 / Z.of_nat (length K)) + 10)%Z.
Proof.
  intros Hid Ht.
  destruct (page_facts input Hid Ht)
    as (arr & s3 & s' & H & _ & _ & Hnd & Hids & Hrg & Hres & Hrk & Hco & _ & _ & Hp & Hgeo & _).
  eexists. split; [exact H|]. intros K Hsorted HK r i e Hr He.
  assert (HK3 : mutual arr s3 K).
  { intros x Hx. destruct (HK x Hx) as (ex & Hex & Hcs).
    apply lookup_objects in Hex as (l & Hl & ->).
    exists l. split; [done|]. intros y. rewrite <- (pt_collisions _ _ Hp). apply Hcs. }
  apply lookup_objects in He as (l & Hl & ->).
  assert (Hpos : forall q x lx, K !! q = Some x -> arr !! x = Some lx ->
            position (obj s3 lx) = Z.of_nat q).
  { intros q x lx. apply (group_position arr s3 K Hids (rs_linked _ _ Hres) Hco Hrk HK3 Hsorted). }
  split; [rewrite (pt_position _ _ Hp); by apply (Hpos r i)|].
  apply (geometryPass_group arr K Hnd Hsorted s3 s' Hrg (rs_linked _ _ Hres) HK3 Hpos)
    with i; try done.
  intros x lx _ Hlx. by eapply rs_columns.
Qed.

(** Outside such groups the boxes of overlapping events can overlap: on
    [crowded_day] the first two events of the returned list overlap in
    time, and the box of the first, from pixel 10 to pixel 310, covers the
    box of the second, from pixel 160 to pixel 310. *)
Example boxes_can_overlap :
  layOutPage crowded_day ≫=
    (fun out : list Event =>
       Ok ((fun e => (raw e, left e, width e)) <$> take 2 out))
  = Ok [((4, 1, 4), 10, 300); ((3, 0, 2), 160, 150)]%Z.
Proof. reflexivity. Qed.

(** ** The comparators and the helpers on start times *)

Lemma sortByStart_key e1 e2 :
  (sortByStart e1 e2 <=? 0)%Z = (- start e2 <=? - start e1)%Z.
Proof.
  unfold sortByStart. simpl.
  destruct (Z.ltb_spec (start e1) (start e2)).
  { symmetry. apply Z.leb_le. lia. }
  rewrite Z.gtb_ltb.
  destruct (Z.ltb_spec (start e2) (start e1)).
  - symmetry. apply Z.leb_gt. lia.
  - symmetry. apply Z.leb_le. lia.
Qed.

(** X14: [returnEarlierEvent] returns the argument that starts first and
    [returnLaterEvent] the one that starts last; when the two events
    start at different times the two results are the two arguments, and
    when they start at the same time both functions return the first
    argument. *)
Theorem earlier_and_later (s : State) (e1 e2 : nat) :
  start (obj s (returnEarlierEvent s e1 e2)) =
    Z.min (start (obj s e1)) (start (obj s e2)) /\
  start (obj s (returnLaterEvent s e1 e2)) =
    Z.max (start (obj s e1)) (start (obj s e2)) /\
  (start (obj s e1) <> start (obj s e2) ->
     [returnEarlierEvent s e1 e2; returnLaterEvent s e1 e2] ≡ₚ [e1; e2]) /\
  (start (obj s e1) = start (obj s e2) ->
     returnEarlierEvent s e1 e2 = e1 /\ returnLaterEvent s e1 e2 = e1).
Proof.
  unfold returnEarlierEvent, returnLaterEvent.
  destruct (Z.leb_spec (start (obj s e1)) (start (obj s e2)));
    destruct (Z.geb_spec (start (obj s e1)) (start (obj s e2)));
    split_and!; try lia; try done; intros _; apply Permutation_swap.
Qed.

(** X15: sorting an array with [sortByStart] as comparator puts its
    events in the order of their start times, earliest first, and keeps
    the events of a same start time in the order they had. *)
Theorem sortByStart_sorts (l : list Event) :
  array_sort sortByStart l ≡ₚ l /\
  StronglySorted (fun e1 e2 => (start e1 ≤ start e2)%Z) (array_sort sortByStart l) /\
  forall t, filter (fun e => start e = t) (array_sort sortByStart l) =
            filter (fun e => start e = t) l.
Proof.
  split_and!.
  - apply array_sort_perm.
  - rewrite <- (list_fmap_id (array_sort sortByStart l)).
    apply StronglySorted_fmap
      with (R1 := fun a b => (- start b ≤ - start a)%Z).
    { intros x y. simpl. lia. }
    apply (array_sort_sorted sortByStart (fun e => (- start e)%Z)).
    apply sortByStart_key.
  - intros t.
    pose proof (array_sort_stable sortByStart (fun e => (- start e)%Z)
                  sortByStart_key (- t)%Z l) as H.
    erewrite (list_filter_iff (fun e => start e = t)), H.
    + apply list_filter_iff. intros e. lia.
    + intros e. simpl. lia.
Qed.

(** X16: [sortByStart] and [sortByDuration] are consistent comparators:
    exchanging the arguments changes the sign of the result, and an event
    that does not have to follow a second one, which does not have to
    follow a third, does not have to follow the third. *)
Theorem comparators_consistent (a b c : Event) :
  sortByStart a b = (- sortByStart b a)%Z /\
  sortByDuration a b = (- sortByDuration b a)%Z /\
  ((sortByStart a b ≤ 0)%Z -> (sortByStart b c ≤ 0)%Z -> (sortByStart a c ≤ 0)%Z) /\
  ((sortByDuration a b ≤ 0)%Z -> (sortByDuration b c ≤ 0)%Z ->
   (sortByDuration a c ≤ 0)%Z).
Proof.
  unfold sortByStart, sortByDuration. cbv zeta. rewrite !Z.gtb_ltb.
  repeat match goal with
         | |- context [(?x <? ?y)%Z] => destruct (Z.ltb_spec x y)
         end; split_and!; intros; lia.
Qed.

(** ** The timeline *)

(** X17: in 12-hour mode the stops of the hours [hr] and [hr + 12], for
    [hr] from 1 to 12, show the same time; the stop on the hour shows
    [am] before 12 and [pm] from 12 on, and a stop that is not on the
    hour has no meridian. *)
Theorem twelve_hour_clock (hr : Z) (min : string) :
  (1 ≤ hr ≤ 12)%Z ->
  innerHTML <$> timeField (TimelineStop (hr + 12) min false) =
    innerHTML <$> timeField (TimelineStop hr min false) /\
  innerHTML <$> meridian (TimelineStop hr "00" false) =
    Some (if (hr <? 12)%Z then " am" else " pm") /\
  innerHTML <$> meridian (TimelineStop (hr + 12) "00" false) = Some " pm" /\
  (min <> "00" -> meridian (TimelineStop hr min false) = None).
Proof.
  intros Hhr. unfold TimelineStop, timeField, meridian. simpl.
  assert ((hr + 12 >? 12)%Z = true) as -> by lia.
  assert ((hr >? 12)%Z = false) as -> by lia.
  assert ((hr + 12 >=? 12)%Z = true) as -> by lia.
  rewrite Z.add_simpl_r. split_and!.
  - by destruct (String.eqb min "00").
  - destruct (Z.ltb_spec hr 12); [|by assert ((hr >=? 12)%Z = true) as -> by lia].
    by assert ((hr >=? 12)%Z = false) as -> by lia.
  - done.
  - intros Hmin. apply String.eqb_neq in Hmin. by rewrite Hmin.
Qed.

Lemma childNodes_append_all (stops : list Node) :
  forall timeline,
    childNodes (foldl (fun timeline stop => appendChild stop timeline) timeline stops)
    = childNodes timeline ++ stops.
Proof.
  induction stops as [|stop stops IH]; intros timeline; simpl.
  { by rewrite app_nil_r. }
  rewrite IH. simpl. by rewrite <- app_assoc.
Qed.

(** X18: [createTimeline] appends 25 stops to the timeline: for every
    hour [h] from 9 to 21 the stop on the hour, as the child number
    [2 * (h - 9)] of those it appends, followed, except for 21, by the
    stop of the half hour. *)
Theorem timeline_stops (timeline : Node) :
  length (childNodes (createTimeline timeline)) =
    length (childNodes timeline) + 25 /\
  forall h, (9 ≤ h ≤ 21)%Z ->
    childNodes (createTimeline timeline)
      !! (length (childNodes timeline) + Z.to_nat (2 * (h - 9)))
      = Some (TimelineStop h "00" false) /\
    ((h < 21)%Z ->
     childNodes (createTimeline timeline)
       !! (length (childNodes timeline) + Z.to_nat (2 * (h - 9) + 1))
       = Some (TimelineStop h "30" false)).
Proof.
  unfold createTimeline. rewrite childNodes_append_all.
  split; [by rewrite length_app|]. intros h Hh.
  rewrite !lookup_app_r by lia. rewrite !Nat.add_sub'.
  assert (Hin : h ∈ seqZ 9 13) by (apply elem_of_seqZ; lia).
  vm_compute seqZ in Hin.
  repeat (apply elem_of_cons in Hin as [->|Hin]; [split; [done|]; intros; (done || lia)|]).
  by apply elem_of_nil in Hin.
Qed.

(** ** What drawEvents draws *)

Lemma drawEvent_calls randomInt e _evt c :
  calls (drawEvent false randomInt e _evt c) = calls c ++ box_calls _evt /\
  randoms (drawEvent false randomInt e _evt c) = randoms c.
Proof. split; [|done]. simpl. by rewrite <- !app_assoc. Qed.

Lemma drawLoop_calls randomInt events :
  forall e c,
    calls (drawLoop false randomInt events e c) = calls c ++ (events ≫= box_calls) /\
    randoms (drawLoop false randomInt events e c) = randoms c.
Proof.
  induction events as [|_evt events IH]; intros e c.
  { simpl. by rewrite app_nil_r. }
  cbn [drawLoop]. destruct (IH (S e) (drawEvent false randomInt e _evt c)) as [-> ->].
  destruct (drawEvent_calls randomInt e _evt c) as [-> ->].
  by rewrite bind_cons, app_assoc.
Qed.

(** X19: with the debug mode off, [drawEvents] adds to the calls made on
    the drawing context five calls for each event, in the order of the
    array, which depend on that event only: a stroked frame, the white
    box, the blue bar on its left, and two lines of text. *)
Theorem drawing_follows_events (randomInt : nat -> Z -> Z) (events : list Event)
    (c : Screen) :
  calls (drawEvents false randomInt events c) = calls c ++ (events ≫= box_calls) /\
  length (calls (drawEvents false randomInt events c)) =
    length (calls c) + 5 * length events.
Proof.
  unfold drawEvents. destruct (drawLoop_calls randomInt events 0 c) as [-> _].
  split; [done|]. rewrite length_app. f_equal.
  induction events as [|_evt events IH]; [done|].
  rewrite bind_cons, length_app, IH. simpl. lia.
Qed.

Lemma drawEvent_globals DEBUG_MODE randomInt e _evt c :
  _left (drawEvent DEBUG_MODE randomInt e _evt c) = Some (left _evt + 13)%Z /\
  _top (drawEvent DEBUG_MODE randomInt e _evt c) = Some (start _evt + 22)%Z /\
  randoms (drawEvent DEBUG_MODE randomInt e _evt c) =
    randoms c + (if DEBUG_MODE then 3 else 0).
Proof. destruct DEBUG_MODE; simpl; split_and!; try done; lia. Qed.

Lemma drawLoop_globals DEBUG_MODE randomInt events :
  forall e c,
    _left (drawLoop DEBUG_MODE randomInt events e c) =
      from_option (fun _evt => Some (left _evt + 13)%Z) (_left c) (last events) /\
    _top (drawLoop DEBUG_MODE randomInt events e c) =
      from_option (fun _evt => Some (start _evt + 22)%Z) (_top c) (last events) /\
    randoms (drawLoop DEBUG_MODE randomInt events e c) =
      randoms c + (if DEBUG_MODE then 3 * length events else 0).
Proof.
  induction events as [|_evt events IH]; intros e c.
  { simpl. split_and!; try done. destruct DEBUG_MODE; lia. }
  cbn [drawLoop].
  destruct (IH (S e) (drawEvent DEBUG_MODE randomInt e _evt c)) as (-> & -> & ->).
  destruct (drawEvent_globals DEBUG_MODE randomInt e _evt c) as (-> & -> & ->).
  destruct events as [|x xs]; [simpl; split_and!; try done; destruct DEBUG_MODE; lia|].
  change (last (_evt :: x :: xs)) with (last (x :: xs)).
  destruct (last (x :: xs)) as [y|] eqn:Hlast.
  - simpl. split_and!; try done. destruct DEBUG_MODE; simpl; lia.
  - by apply last_None in Hlast.
Qed.

(** X20: besides drawing, [drawEvents] assigns the module-level variables
    [_left] and [_top], which end as the text position of the last event
    of the array ([left + 13] and [start + 22]) and are left as they were
    by an empty array; it calls [Math.random] three times for each event
    in the debug mode and never out of it. *)
Theorem drawEvents_side_effects (DEBUG_MODE : bool) (randomInt : nat -> Z -> Z)
    (events : list Event) (c : Screen) :
  _left (drawEvents DEBUG_MODE randomInt events c) =
    from_option (fun _evt => Some (left _evt + 13)%Z) (_left c) (last events) /\
  _top (drawEvents DEBUG_MODE randomInt events c) =
    from_option (fun _evt => Some (start _evt + 22)%Z) (_top c) (last events) /\
  randoms (drawEvents DEBUG_MODE randomInt events c) =
    randoms c + (if DEBUG_MODE then 3 * length events else 0).
Proof. apply drawLoop_globals. Qed.





(** ** The Calendar constructor *)


(** X22: on a page where nothing is bound to the module-level [events],
    [new Calendar(defaultEvents)] throws a ReferenceError when the array
    holds an event; when the array is empty it returns, with [events]
    bound to the array, the container of the calendar appended to the
    body of the document and nothing but the background drawn. *)
Theorem Calendar_on_fresh_page (s : State) (body : list Node) (c : Screen)
    (defaultEvents : nat) (evs : list nat) (DEBUG_MODE : bool)
    (randomInt : nat -> Z -> Z) (fuel : nat) :
  global_events s = None ->
  arrays s !! defaultEvents = Some evs ->
  match evs with
  | [] =>
      exists s' this,
        Calendar (S fuel) DEBUG_MODE randomInt s body c defaultEvents
          = Ok (s', body ++ [container this], this) /\
        global_events s' = Some defaultEvents /\
        arrays s' = arrays s /\ objects s' = objects s /\
        calls (ctx this) =
          [clearRect 0 0 620 720; fillRect "#ececec" 0 0 620 720]
  | _ :: _ =>
      Calendar (S fuel) DEBUG_MODE randomInt s body c defaultEvents
        = Throw ReferenceError
  end.
Proof.
  intros Hg Ha. unfold Calendar. cbn [init].
  rewrite (layOutDay_unbound fuel s defaultEvents evs Hg Ha).
  destruct evs as [|x evs']; [|done].
  cbn [mbind outcome_bind]. eexists _, (mkCalendarObject _ _ _ _).
  split; [reflexivity|].
  cbn [global_events arrays objects ctx]. split_and!; try done.
  unfold snapshot. cbn [arrays]. by rewrite (list_lookup_total_correct _ _ _ Ha).
Qed.


(** ** The further statements on concrete inputs *)

Lemma collisions_exactly_overlapping_witness :
  exists out, layOutPage split_day = Ok out /\
    forall i j ei ej, out !! i = Some ei -> out !! j = Some ej ->
      (j ∈ collisions ei <->
       i <> j /\ (start ei < end_ ej)%Z /\ (end_ ei > start ej)%Z).
Proof. apply (collisions_exactly_overlapping split_day); by_computation. Defined.

Lemma collisions_without_repeats_witness :
  exists out, layOutPage quirk_day = Ok out /\
    forall i e, out !! i = Some e ->
      NoDup (collisions e) /\ (i ∉ collisions e) /\
      forall j, j ∈ collisions e -> j < length out.
Proof. apply (collisions_without_repeats quirk_day); by_computation. Defined.

Lemma column_within_columns_witness :
  exists out, layOutPage quirk_day = Ok out /\
    forall i e, out !! i = Some e ->
      (0 ≤ position e ≤ Z.of_nat i)%Z /\
      (position e < columns e)%Z /\ (columns e ≤ Z.of_nat (length out))%Z.
Proof. apply (column_within_columns quirk_day); by_computation. Defined.

Lemma boxes_within_canvas_witness :
  exists out, layOutPage split_day = Ok out /\
    forall i e, out !! i = Some e ->
      top e = start e /\ duration e = (end_ e - start e)%Z /\
      left e = (position e * width e + 10)%Z /\
      (10 ≤ left e)%Z /\ (0 ≤ width e)%Z /\ (left e + width e ≤ 610)%Z.
Proof. apply (boxes_within_canvas split_day); by_computation. Defined.

Lemma relayout_returns_same_witness :
  exists out, layOutPage quirk_day = Ok out /\ layOutTwice quirk_day = Ok out.
Proof. apply (relayout_returns_same quirk_day); by_computation. Defined.

Lemma unbound_events_throw_witness :
  returned 1 (unbound_page [(1, 0, 60)]%Z) 0 = Throw ReferenceError.
Proof.
  exact (unbound_events_throw (unbound_page [(1, 0, 60)]%Z) 0 [0] 0 eq_refl eq_refl).
Defined.

Lemma nothing_scanned_nothing_collides_witness :
  exists out, returned 1 (empty_page [(1, 0, 60); (2, 0, 60)]%Z) 1 = Ok out /\
    length out = 2 /\ Forall plain out.
Proof.
  apply (nothing_scanned_nothing_collides
           (empty_page [(1, 0, 60); (2, 0, 60)]%Z) 0 1 [0; 1] 0);
    [reflexivity..|].
  intros l Hl. simpl.
  repeat (apply elem_of_cons in Hl as [->|Hl]; [lia|]).
  by apply elem_of_nil in Hl.
Defined.

(** Two events at the same time, laid out while [events] is bound to an
    empty array: both get the full width. *)
Example both_full_width :
  returned 1 (empty_page [(1, 0, 60); (2, 0, 60)]%Z) 1 =
  Ok [ mkEvent 1 0 60 10 0 600 60 0 0 [] 1;
       mkEvent 2 0 60 10 0 600 60 0 0 [] 1 ].
Proof. reflexivity. Qed.

Lemma mutual_group_side_by_side_witness :
  exists out, layOutPage pairs_day = Ok out /\
    forall K, StronglySorted lt K -> mutually_colliding out K ->
      forall r i e, K !! r = Some i -> out !! i = Some e ->
        position e = Z.of_nat r /\
        columns e = Z.of_nat (length K) /\
        width e = (600 / Z.of_nat (length K))%Z /\
        left e = (Z.of_nat r * (600 / Z.of_nat (length K)) + 10)%Z.
Proof. apply (mutual_group_side_by_side pairs_day); by_computation. Defined.

Lemma twelve_hour_clock_witness :
  innerHTML <$> timeField (TimelineStop (9 + 12) "30" false) =
    innerHTML <$> timeField (TimelineStop 9 "30" false) /\
  innerHTML <$> meridian (TimelineStop 9 "00" false) =
    Some (if (9 <? 12)%Z then " am" else " pm") /\
  innerHTML <$> meridian (TimelineStop (9 + 12) "00" false) = Some " pm" /\
  ("30" <> "00" -> meridian (TimelineStop 9 "30" false) = None).
Proof. apply (twelve_hour_clock 9 "30"). lia. Defined.

(** The first stop of the timeline, and the stop of 21:00. *)
Example stops_of_nine :
  TimelineStop 9 "00" false =
    Element "li" [("class", "major")] ""
      [ Element "span" [("class", "major")] "9:00" [];
        Element "span" [("class", "meridian")] " am" [] ] /\
  TimelineStop 21 "00" false =
    Element "li" [("class", "major")] ""
      [ Element "span" [("class", "major")] "9:00" [];
        Element "span" [("class", "meridian")] " pm" [] ].
Proof. split; reflexivity. Qed.


Lemma Calendar_on_fresh_page_witness :
  Calendar 1 false (fun _ _ => 0%Z) (unbound_page [(1, 0, 60)]%Z) []
           (mkScreen "" "" "" [] None None 0) 0 = Throw ReferenceError.
Proof.
  exact (Calendar_on_fresh_page (unbound_page [(1, 0, 60)]%Z) []
           (mkScreen "" "" "" [] None None 0) 0 [0] false (fun _ _ => 0%Z) 0
           eq_refl eq_refl).
Defined.



Lemma layOutDay_touches_its_array_only_witness :
  exists s',
    layOutDay 2 two_arrays 0 = Ok s' /\
    (forall l, l ∉ [0; 1] -> obj s' l = obj two_arrays l) /\
    (forall a, a <> 0 -> arrays s' !! a = arrays two_arrays !! a) /\
    global_events s' = global_events two_arrays /\
    length (objects s') = length (objects two_arrays) /\
    (forall l, raw (obj s' l) = raw (obj two_arrays l)).
Proof.
  apply (layOutDay_touches_its_array_only 2 two_arrays 0 [0; 1]); [|simpl; lia].
  split; [reflexivity|reflexivity| |by_computation|].
  - intros l Hl. simpl.
    repeat (apply elem_of_cons in Hl as [->|Hl]; [lia|]).
    by apply elem_of_nil in Hl.
  - intros l Hl.
    repeat (apply elem_of_cons in Hl as [->|Hl]; [vm_compute; reflexivity|]).
    by apply elem_of_nil in Hl.
Defined.

Lemma checkLeft_writes_position_and_collisions_witness :
  exists p s',
    checkLeft 2 two_arrays 1 1 = Ok (p, s') /\
    arrays s' = arrays two_arrays /\
    global_events s' = global_events two_arrays /\
    length (objects s') = length (objects two_arrays) /\
    (forall l, fixed (obj s' l) = fixed (obj two_arrays l)) /\
    grows two_arrays s' /\
    p = position (obj s' 1).
Proof.
  eexists _, _. split; [vm_compute; reflexivity|].
  apply (checkLeft_writes_position_and_collisions 2 two_arrays 1 1).
  vm_compute; reflexivity.
Defined.

Lemma collisions_in_ascending_order_witness :
  exists out, layOutPage quirk_day = Ok out /\
    forall i e, out !! i = Some e -> collisions e = overlapping out i e.
Proof. apply (collisions_in_ascending_order quirk_day); by_computation. Defined.
